(** * ModelExecution: the per-execution core of the c11tester model checker

    A shallow embedding of [execution.cc].  Heap objects ([ModelAction],
    [Thread], mutex states) live in finite maps indexed by pointers, and the
    methods of [ModelExecution] are functions in a state-and-error monad over
    the record of its members.  Collaborators whose sources are other files
    of the repository ([ModelAction], [ClockVector], [CycleGraph], [Thread])
    are modelled from the specification; the scheduler and the fuzzer are
    interfaces. *)

From stdpp Require Import gmap list.
From Stdlib Require Import ZArith Lia.

Open Scope Z_scope.

(** ** Outcomes of a call *)

(** A call either returns or stops the process. *)
Inductive fault : Set :=
  | NullDeref          (* a NULL pointer is dereferenced *)
  | OutOfBounds        (* a vector is indexed outside its size *)
  | AssertionFailure   (* ASSERT(expr) with expr false *)
  | Diverges.          (* the loop does not terminate *)

Inductive result (A : Type) : Type :=
  | Ok (a : A)
  | Err (e : fault).
Arguments Ok {A} a.
Arguments Err {A} e.

Definition rbind {A B} (r : result A) (k : A -> result B) : result B :=
  match r with
  | Ok a => k a
  | Err e => Err e
  end.

Notation "'let?' x := e 'in' k" := (rbind e (fun x => k))
  (at level 10, x pattern, e at level 100, k at level 200).

(** Dereference of a possibly-NULL pointer. *)
Definition deref {A} (o : option A) : result A :=
  match o with
  | Some a => Ok a
  | None => Err NullDeref
  end.

(** Modelled from the spec: the ASSERT macro of common.h, which is not under
    src/.  An internal invariant that does not hold is fatal (spec section 7,
    InternalInvariant). *)
Definition ASSERT (b : bool) : result unit :=
  if b then Ok tt else Err AssertionFailure.

(** ** Machine integers and vectors *)

Definition uint8_t (v : Z) : Z := v mod 2 ^ 8.
Definition uint16_t (v : Z) : Z := v mod 2 ^ 16.
Definition uint32_t (v : Z) : Z := v mod 2 ^ 32.
Definition uint64_t (v : Z) : Z := v mod 2 ^ 64.

(** [(unsigned int)] and [(int)] conversions of 32-bit values. *)
Definition to_unsigned (v : Z) : Z := v mod 2 ^ 32.
Definition to_int (v : Z) : Z := (v + 2 ^ 31) mod 2 ^ 32 - 2 ^ 31.

Abbreviation act_ptr := positive (only parsing).
Abbreviation thr_ptr := positive (only parsing).
Abbreviation loc := Z (only parsing).
Abbreviation thread_id_t := Z (only parsing).
Abbreviation modelclock_t := Z (only parsing).

Definition id_to_int (tid : thread_id_t) : Z := tid.
Definition int_to_id (i : Z) : thread_id_t := i.

(** [v.size()] and [v[i]] of a SnapVector; an index outside the vector is an
    out-of-bounds access. *)
Definition vsize {A} (v : list A) : Z := Z.of_nat (length v).

Definition vget {A} (v : list A) (i : Z) : result A :=
  if i <? 0 then Err OutOfBounds
  else match v !! Z.to_nat i with
       | Some a => Ok a
       | None => Err OutOfBounds
       end.

Definition vset {A} (v : list A) (i : Z) (a : A) : result (list A) :=
  if (0 <=? i) && (i <? vsize v) then Ok (<[Z.to_nat i := a]> v)
  else Err OutOfBounds.

(** [v.resize(n)]: truncate, or pad with default-constructed elements. *)
Definition vresize {A} (n : Z) (d : A) (v : list A) : list A :=
  take (Z.to_nat n) v ++ replicate (Z.to_nat n - length v) d.

(** The indices [0 .. n-1] of a counting loop. *)
Definition upto (n : Z) : list Z := map Z.of_nat (seq 0 (Z.to_nat n)).

(** ** valequals *)

Definition valequals (val1 val2 : Z) (size : Z) : result bool :=
  let val1 := uint64_t val1 in
  let val2 := uint64_t val2 in
  if size =? 1 then Ok (uint8_t val1 =? uint8_t val2)
  else if size =? 2 then Ok (uint16_t val1 =? uint16_t val2)
  else if size =? 4 then Ok (uint32_t val1 =? uint32_t val2)
  else if size =? 8 then Ok (val1 =? val2)
  else let? _ := ASSERT false in Ok false.

(** ** ModelAction *)

Inductive action_type : Set :=
  | THREAD_CREATE | THREAD_START | THREAD_JOIN | THREAD_FINISH
  | THREADONLY_FINISH | THREAD_SLEEP | PTHREAD_CREATE | PTHREAD_JOIN
  | NONATOMIC_WRITE | ATOMIC_UNINIT | ATOMIC_READ | ATOMIC_WRITE
  | ATOMIC_RMWR | ATOMIC_RMWRCAS | ATOMIC_RMW | ATOMIC_RMWC
  | ATOMIC_FENCE | ATOMIC_LOCK | ATOMIC_TRYLOCK | ATOMIC_UNLOCK
  | ATOMIC_NOTIFY_ONE | ATOMIC_NOTIFY_ALL | ATOMIC_WAIT | ATOMIC_TIMEDWAIT.

Inductive memory_order : Set :=
  | memory_order_relaxed | memory_order_acquire | memory_order_release
  | memory_order_acq_rel | memory_order_seq_cst.

#[global] Instance action_type_eq_dec : EqDecision action_type.
Proof. solve_decision. Defined.
#[global] Instance memory_order_eq_dec : EqDecision memory_order.
Proof. solve_decision. Defined.

(** Modelled from the spec: class ClockVector (clockvector.h is not under
    src/): a map from thread id to sequence number, held as the array of
    clocks of threads [0 .. num_threads-1]; a thread beyond the array has
    clock 0. *)
Definition ClockVector : Type := list modelclock_t.

Definition getClock (cv : ClockVector) (thread : thread_id_t) : modelclock_t :=
  if thread <? 0 then 0 else default 0 (cv !! Z.to_nat thread).

(** Pointwise maximum; the receiver grows to the size of the argument. *)
Fixpoint cv_max (this cv : ClockVector) : ClockVector :=
  match this, cv with
  | [], _ => map (Z.max 0) cv
  | _, [] => this
  | c :: this', d :: cv' => Z.max c d :: cv_max this' cv'
  end.

(** [this->merge(cv)]: the merged vector and whether anything changed. *)
Definition merge (this cv : ClockVector) : bool * ClockVector :=
  let merged := cv_max this cv in
  (bool_decide (merged <> this), merged).

(** [new ClockVector(parent, act)]: copy the parent and bump the entry of
    the action's own thread to its sequence number. *)
Definition new_ClockVector (parent : option ClockVector)
    (act : option (thread_id_t * modelclock_t)) : ClockVector :=
  let base := default [0] parent in
  match act with
  | None => base
  | Some (t, s) =>
      if t <? 0 then base
      else <[Z.to_nat t := s]> (vresize (Z.max (vsize base) (t + 1)) 0 base)
  end.

(** [cv->synchronized_since(act)]: the vector knows of the action. *)
Definition synchronized_since (cv : ClockVector) (t : thread_id_t)
    (s : modelclock_t) : bool :=
  (0 <=? t) && (t <? vsize cv) && (s <=? getClock cv t).

(** Modelled from the spec: class ModelAction (action.h is not under src/),
    with the attributes of spec section 3.  Fields carry the names of the
    accessors the source calls. *)
Record ModelAction : Type := mkModelAction {
  get_type : action_type;
  get_mo : memory_order;
  get_location : loc;
  get_value : Z;                        (* uint64_t *)
  getSize : Z;                          (* int *)
  get_tid : thread_id_t;
  get_seq_number : modelclock_t;
  get_cv : option ClockVector;
  get_reads_from : option act_ptr;
  get_last_fence_release_of : option act_ptr;
  get_rfcv : option ClockVector;
  get_uninit_action : option act_ptr;
  get_thread_operand : option thr_ptr;
  get_try_lock : option bool
}.

Section ActionKinds.
Variable a : ModelAction.

Definition is_read : bool :=
  bool_decide (get_type a ∈ [ATOMIC_READ; ATOMIC_RMWR; ATOMIC_RMWRCAS; ATOMIC_RMW]).
Definition is_write : bool :=
  bool_decide (get_type a ∈ [ATOMIC_WRITE; ATOMIC_RMW; ATOMIC_UNINIT; NONATOMIC_WRITE]).
Definition is_rmwr : bool :=
  bool_decide (get_type a ∈ [ATOMIC_RMWR; ATOMIC_RMWRCAS]).
Definition is_rmwrcas : bool := bool_decide (get_type a = ATOMIC_RMWRCAS).
Definition is_rmwc : bool := bool_decide (get_type a = ATOMIC_RMWC).
Definition is_rmw : bool := bool_decide (get_type a = ATOMIC_RMW).
Definition is_fence : bool := bool_decide (get_type a = ATOMIC_FENCE).
Definition is_lock : bool := bool_decide (get_type a = ATOMIC_LOCK).
Definition is_trylock : bool := bool_decide (get_type a = ATOMIC_TRYLOCK).
Definition is_unlock : bool := bool_decide (get_type a = ATOMIC_UNLOCK).
Definition is_wait : bool :=
  bool_decide (get_type a ∈ [ATOMIC_WAIT; ATOMIC_TIMEDWAIT]).
Definition is_mutex_op : bool :=
  bool_decide (get_type a ∈ [ATOMIC_LOCK; ATOMIC_TRYLOCK; ATOMIC_UNLOCK;
                             ATOMIC_WAIT; ATOMIC_TIMEDWAIT;
                             ATOMIC_NOTIFY_ONE; ATOMIC_NOTIFY_ALL]).
Definition is_thread_start : bool := bool_decide (get_type a = THREAD_START).
Definition is_thread_join : bool :=
  bool_decide (get_type a ∈ [THREAD_JOIN; PTHREAD_JOIN]).
Definition is_sleep : bool := bool_decide (get_type a = THREAD_SLEEP).
Definition is_atomic_var : bool := is_read || is_write.

Definition is_acquire : bool :=
  bool_decide (get_mo a ∈ [memory_order_acquire; memory_order_acq_rel;
                           memory_order_seq_cst]).
Definition is_release : bool :=
  bool_decide (get_mo a ∈ [memory_order_release; memory_order_acq_rel;
                           memory_order_seq_cst]).
Definition is_seqcst : bool := bool_decide (get_mo a = memory_order_seq_cst).

(** The mutex a lock operation works on: the location of a lock, trylock
    or unlock, the value of a wait (cf. [add_action_to_lists]). *)
Definition get_mutex : option loc :=
  let m := if is_trylock || is_lock || is_unlock then get_location a
           else if is_wait then get_value a
           else 0 in
  if m =? 0 then None else Some m.
End ActionKinds.

(** [*a < *b]: comparison of sequence numbers. *)
Definition act_lt (a b : ModelAction) : bool :=
  get_seq_number a <? get_seq_number b.

Definition same_var (a b : ModelAction) : bool :=
  get_location a =? get_location b.

(** [act->happens_before(other)]: [other]'s clock vector has seen [act]. *)
Definition happens_before (act other : ModelAction) : result bool :=
  let? cv := deref (get_cv other) in
  Ok (synchronized_since cv (get_tid act) (get_seq_number act)).

(** Modelled from the spec: class Thread (threads-model.h is not under
    src/), with the attributes of spec section 3. *)
Inductive thread_state : Set :=
  | THREAD_READY | THREAD_BLOCKED | THREAD_SLEEPING | THREAD_COMPLETED.

#[global] Instance thread_state_eq_dec : EqDecision thread_state.
Proof. solve_decision. Defined.

Record Thread : Type := mkThread {
  get_id : thread_id_t;
  get_state : thread_state;
  get_pending : option act_ptr;
  waiting_on : option thr_ptr;
  get_creation : option act_ptr;
  return_value : Z;
  is_model_thread : bool;
  wakeup_state : bool
}.

Definition set_return_value (v : Z) (t : Thread) : Thread :=
  mkThread (get_id t) (get_state t) (get_pending t) (waiting_on t)
           (get_creation t) v (is_model_thread t) (wakeup_state t).
Definition set_pending (p : option act_ptr) (t : Thread) : Thread :=
  mkThread (get_id t) (get_state t) p (waiting_on t)
           (get_creation t) (return_value t) (is_model_thread t) (wakeup_state t).
Definition set_creation (c : option act_ptr) (t : Thread) : Thread :=
  mkThread (get_id t) (get_state t) (get_pending t) (waiting_on t)
           c (return_value t) (is_model_thread t) (wakeup_state t).
Definition set_wakeup_state (b : bool) (t : Thread) : Thread :=
  mkThread (get_id t) (get_state t) (get_pending t) (waiting_on t)
           (get_creation t) (return_value t) (is_model_thread t) b.
Definition complete (t : Thread) : Thread :=
  mkThread (get_id t) THREAD_COMPLETED (get_pending t) (waiting_on t)
           (get_creation t) (return_value t) (is_model_thread t) (wakeup_state t).
Definition is_complete (t : Thread) : bool :=
  bool_decide (get_state t = THREAD_COMPLETED).

(** [struct cdsc::mutex_state]: the owner of the lock, NULL when free. *)
Record mutex_state : Type := mkMutexState { locked : option thr_ptr }.

(** Modelled from the spec: class CycleGraph (cyclegraph.h is not under
    src/): the modification-order graph, its nodes, its edges, and for each
    node the RMW that reads from it.  A node is keyed by the pointer to its
    action, whatever pointer the caller passes. *)
Abbreviation node_key := (option act_ptr) (only parsing).

Record CycleGraph : Type := mkCycleGraph {
  cg_nodes : gset node_key;
  cg_edges : list (node_key * node_key);
  cg_rmw : gmap node_key act_ptr
}.

Definition empty_CycleGraph : CycleGraph := mkCycleGraph ∅ [] ∅.

Definition addEdge (from to : node_key) (g : CycleGraph) : CycleGraph :=
  mkCycleGraph ({[from; to]} ∪ cg_nodes g) (cg_edges g ++ [(from, to)]) (cg_rmw g).

Definition addEdges (edgeset : list node_key) (to : node_key) (g : CycleGraph)
    : CycleGraph :=
  foldl (fun g from => addEdge from to g) g edgeset.

Definition addRMWEdge (from : node_key) (rmw : act_ptr) (g : CycleGraph)
    : CycleGraph :=
  mkCycleGraph ({[from; Some rmw]} ∪ cg_nodes g)
               (cg_edges g ++ [(from, Some rmw)])
               (<[from := rmw]> (cg_rmw g)).

Definition getNode_noCreate (g : CycleGraph) (act : node_key) : option node_key :=
  if decide (act ∈ cg_nodes g) then Some act else None.

Definition getRMW (g : CycleGraph) (node : node_key) : option act_ptr :=
  cg_rmw g !! node.

Definition successors (g : CycleGraph) (a : node_key) : list node_key :=
  map snd (filter (fun e => fst e = a) (cg_edges g)).

Fixpoint reach_from (fuel : nat) (g : CycleGraph) (frontier : list node_key)
    (to : node_key) : bool :=
  match fuel with
  | O => false
  | S fuel' =>
      if decide (to ∈ frontier) then true
      else reach_from fuel' g (frontier ≫= successors g) to
  end.

(** [checkReachable(from, to)]: is there a path from [from] to [to]? *)
Definition checkReachable (g : CycleGraph) (from to : node_key) : bool :=
  match getNode_noCreate g from, getNode_noCreate g to with
  | Some f, Some t => reach_from (S (length (cg_edges g))) g [f] t
  | _, _ => false
  end.

(** The edge relation of the graph and its paths. *)
Definition mo_edge (g : CycleGraph) (a b : act_ptr) : Prop :=
  (Some a, Some b) ∈ cg_edges g.
Definition mo_path (g : CycleGraph) : relation act_ptr := rtc (mo_edge g).

(** [struct model_snapshot_members] *)
Record model_snapshot_members : Type := mkPriv {
  next_thread_id : Z;                   (* unsigned int *)
  used_sequence_numbers : modelclock_t;
  bugs : list (list Z);                 (* the messages, as character codes *)
  asserted : bool
}.

(** What the race detector's shadow memory keeps for a location whose last
    store was not atomic (datarace.h is not under src/): the storing thread,
    its clock, and the 64-bit word at the location. *)
Record nonatomic_store : Type := mkNonAtomicStore {
  storethread : thread_id_t;
  storeclock : modelclock_t;
  storevalue : Z
}.

(** What the collaborators may read of the engine they are registered with. *)
Record engine_view : Type := mkView {
  view_actions : gmap act_ptr ModelAction;
  view_thread_map : list (option thr_ptr)
}.

(** Modelled from the spec: the scheduler interface consumed by the core
    (spec section 6; schedule.h is not under src/). *)
Class Scheduler (S : Type) : Type := {
  sched_add_thread : thr_ptr -> S -> S;
  sched_remove_thread : thr_ptr -> S -> S;
  sched_sleep : thr_ptr -> S -> S;
  sched_add_sleep : thr_ptr -> S -> S;
  sched_wake : thr_ptr -> S -> S;
  sched_remove_sleep : thr_ptr -> S -> S;
  sched_is_enabled : thread_id_t -> S -> bool;
  sched_is_sleep_set : thr_ptr -> S -> bool;
  sched_all_threads_sleeping : S -> bool
}.

(** The fuzzer interface consumed by the core (class NewFuzzer of
    newfuzzer.h); each call may advance the fuzzer's own state.
    [selectNotify] is handed the waiter list itself, not a copy: it returns
    the thread it chose together with the list as it leaves it.
    [selectWrite] answers with an index into the candidates it is shown. *)
Class Fuzzer (F : Type) : Type := {
  selectWrite : engine_view -> act_ptr -> list act_ptr -> F -> Z * F;
  selectNotify : engine_view -> list act_ptr -> F
                 -> option thr_ptr * list act_ptr * F;
  shouldSleep : engine_view -> act_ptr -> F -> bool * F;
  shouldWake : engine_view -> act_ptr -> F -> bool * F;
  shouldWait : engine_view -> act_ptr -> F -> bool * F
}.

(** Field updates of a ModelAction. *)
Definition set_type (v : action_type) (a : ModelAction) : ModelAction :=
  mkModelAction v (get_mo a) (get_location a) (get_value a) (getSize a) (get_tid a) (get_seq_number a) (get_cv a) (get_reads_from a) (get_last_fence_release_of a) (get_rfcv a) (get_uninit_action a) (get_thread_operand a) (get_try_lock a).
Definition set_mo (v : memory_order) (a : ModelAction) : ModelAction :=
  mkModelAction (get_type a) v (get_location a) (get_value a) (getSize a) (get_tid a) (get_seq_number a) (get_cv a) (get_reads_from a) (get_last_fence_release_of a) (get_rfcv a) (get_uninit_action a) (get_thread_operand a) (get_try_lock a).
Definition set_value (v : Z) (a : ModelAction) : ModelAction :=
  mkModelAction (get_type a) (get_mo a) (get_location a) v (getSize a) (get_tid a) (get_seq_number a) (get_cv a) (get_reads_from a) (get_last_fence_release_of a) (get_rfcv a) (get_uninit_action a) (get_thread_operand a) (get_try_lock a).
Definition set_seq_number (v : modelclock_t) (a : ModelAction) : ModelAction :=
  mkModelAction (get_type a) (get_mo a) (get_location a) (get_value a) (getSize a) (get_tid a) v (get_cv a) (get_reads_from a) (get_last_fence_release_of a) (get_rfcv a) (get_uninit_action a) (get_thread_operand a) (get_try_lock a).
Definition set_cv (v : option ClockVector) (a : ModelAction) : ModelAction :=
  mkModelAction (get_type a) (get_mo a) (get_location a) (get_value a) (getSize a) (get_tid a) (get_seq_number a) v (get_reads_from a) (get_last_fence_release_of a) (get_rfcv a) (get_uninit_action a) (get_thread_operand a) (get_try_lock a).
Definition set_read_from (v : option act_ptr) (a : ModelAction) : ModelAction :=
  mkModelAction (get_type a) (get_mo a) (get_location a) (get_value a) (getSize a) (get_tid a) (get_seq_number a) (get_cv a) v (get_last_fence_release_of a) (get_rfcv a) (get_uninit_action a) (get_thread_operand a) (get_try_lock a).
Definition set_last_fence_release (v : option act_ptr) (a : ModelAction) : ModelAction :=
  mkModelAction (get_type a) (get_mo a) (get_location a) (get_value a) (getSize a) (get_tid a) (get_seq_number a) (get_cv a) (get_reads_from a) v (get_rfcv a) (get_uninit_action a) (get_thread_operand a) (get_try_lock a).
Definition set_rfcv (v : option ClockVector) (a : ModelAction) : ModelAction :=
  mkModelAction (get_type a) (get_mo a) (get_location a) (get_value a) (getSize a) (get_tid a) (get_seq_number a) (get_cv a) (get_reads_from a) (get_last_fence_release_of a) v (get_uninit_action a) (get_thread_operand a) (get_try_lock a).
Definition set_uninit_action (v : option act_ptr) (a : ModelAction) : ModelAction :=
  mkModelAction (get_type a) (get_mo a) (get_location a) (get_value a) (getSize a) (get_tid a) (get_seq_number a) (get_cv a) (get_reads_from a) (get_last_fence_release_of a) (get_rfcv a) v (get_thread_operand a) (get_try_lock a).
Definition set_thread_operand (v : option thr_ptr) (a : ModelAction) : ModelAction :=
  mkModelAction (get_type a) (get_mo a) (get_location a) (get_value a) (getSize a) (get_tid a) (get_seq_number a) (get_cv a) (get_reads_from a) (get_last_fence_release_of a) (get_rfcv a) (get_uninit_action a) v (get_try_lock a).
Definition set_try_lock (v : option bool) (a : ModelAction) : ModelAction :=
  mkModelAction (get_type a) (get_mo a) (get_location a) (get_value a) (getSize a) (get_tid a) (get_seq_number a) (get_cv a) (get_reads_from a) (get_last_fence_release_of a) (get_rfcv a) (get_uninit_action a) (get_thread_operand a) v.

(** Modelled from the spec: [ModelAction::create_cv] (spec 4.2: copy the
    parent action's clock vector and bump the thread's own component). *)
Definition create_cv (parent : option ModelAction) (a : ModelAction) : ModelAction :=
  set_cv (Some (new_ClockVector (parent ≫= get_cv)
                                (Some (get_tid a, get_seq_number a)))) a.

(** Modelled from the spec: [ModelAction::process_rmw] (spec 4.2: the commit
    is merged into the RMW-read, which becomes the RMW, or a plain read when
    the RMW did not commit). *)
Definition action_process_rmw (act : ModelAction) (this : ModelAction) : ModelAction :=
  let this := set_mo (get_mo act) this in
  if is_rmwc act then set_type ATOMIC_READ this
  else if is_rmw act then set_value (get_value act) (set_type ATOMIC_RMW this)
  else this.

(** [new ModelAction(type, order, loc, value, thread)] before it is
    initialized. *)
Definition new_ModelAction (ty : action_type) (mo : memory_order) (l : loc)
    (v : Z) (t : thread_id_t) : ModelAction :=
  mkModelAction ty mo l v 0 t 0 None None None None None None None.

(** [new Thread(id, ...)] *)
Definition new_Thread (id : thread_id_t) : Thread :=
  mkThread id THREAD_READY None None None 0 false false.

(** Loops with [continue], [break] and [return]. *)
Inductive loop_ctl (A R : Type) : Type :=
  | Continue (a : A)
  | Break (a : A)
  | Return (r : R).
Arguments Continue {A R} a.
Arguments Break {A R} a.
Arguments Return {A R} r.

Fixpoint for_each {X A R} (body : X -> A -> result (loop_ctl A R))
    (xs : list X) (acc : A) : result (A + R) :=
  match xs with
  | [] => Ok (inl acc)
  | x :: xs' =>
      let? c := body x acc in
      match c with
      | Continue a => for_each body xs' a
      | Break a => Ok (inl a)
      | Return r => Ok (inr r)
      end
  end.

(** A loop that has no [return]. *)
Definition finished {A} (r : A + Empty_set) : A :=
  match r with
  | inl a => a
  | inr e => match e with end
  end.

(** ** The members of ModelExecution *)

Section Engine.
Context {Sched Fuzz : Type} `{Scheduler Sched} `{Fuzzer Fuzz}.

(** Constants and methods of headers that are not under src/. *)
Variable FENCE_LOCATION : loc.
Variable VALUE_NONE : Z.
Variable getInitThread : option thr_ptr.      (* model->getInitThread() *)
Variable could_synchronize_with : ModelAction -> ModelAction -> bool.

Record ModelExecution : Type := mkModelExecution {
  scheduler : Sched;
  fuzzer : Fuzz;
  params : option Z;   (* params->uninitvalue; NULL until set *)
  actions : gmap act_ptr ModelAction;   (* the ModelAction objects *)
  threads : gmap thr_ptr Thread;   (* the Thread objects *)
  mutexes : gmap loc mutex_state;   (* mutex->get_state() *)
  memory : gmap loc Z;   (* the program's memory, by word *)
  shadow : gmap loc (thread_id_t * modelclock_t);   (* locations whose last store was not atomic *)
  action_trace : list act_ptr;
  thread_map : list (option thr_ptr);
  pthread_map : list (option thr_ptr);
  pthread_counter : Z;
  obj_map : gmap loc (list act_ptr);
  condvar_waiters_map : gmap loc (list act_ptr);
  obj_thrd_map : gmap loc (list (list act_ptr));
  obj_wr_thrd_map : gmap loc (list (list act_ptr));
  obj_last_sc_map : gmap loc act_ptr;
  thrd_last_action : list (option act_ptr);
  thrd_last_fence_release : list (option act_ptr);
  priv : model_snapshot_members;
  mo_graph : CycleGraph;
  model_thread : option thr_ptr;
  isfinished : bool
}.

Definition set_scheduler (v : Sched) (st : ModelExecution) : ModelExecution :=
  mkModelExecution v (fuzzer st) (params st) (actions st) (threads st) (mutexes st) (memory st) (shadow st) (action_trace st) (thread_map st) (pthread_map st) (pthread_counter st) (obj_map st) (condvar_waiters_map st) (obj_thrd_map st) (obj_wr_thrd_map st) (obj_last_sc_map st) (thrd_last_action st) (thrd_last_fence_release st) (priv st) (mo_graph st) (model_thread st) (isfinished st).
Definition set_fuzzer (v : Fuzz) (st : ModelExecution) : ModelExecution :=
  mkModelExecution (scheduler st) v (params st) (actions st) (threads st) (mutexes st) (memory st) (shadow st) (action_trace st) (thread_map st) (pthread_map st) (pthread_counter st) (obj_map st) (condvar_waiters_map st) (obj_thrd_map st) (obj_wr_thrd_map st) (obj_last_sc_map st) (thrd_last_action st) (thrd_last_fence_release st) (priv st) (mo_graph st) (model_thread st) (isfinished st).
Definition set_params (v : option Z) (st : ModelExecution) : ModelExecution :=
  mkModelExecution (scheduler st) (fuzzer st) v (actions st) (threads st) (mutexes st) (memory st) (shadow st) (action_trace st) (thread_map st) (pthread_map st) (pthread_counter st) (obj_map st) (condvar_waiters_map st) (obj_thrd_map st) (obj_wr_thrd_map st) (obj_last_sc_map st) (thrd_last_action st) (thrd_last_fence_release st) (priv st) (mo_graph st) (model_thread st) (isfinished st).
Definition set_actions (v : gmap act_ptr ModelAction) (st : ModelExecution) : ModelExecution :=
  mkModelExecution (scheduler st) (fuzzer st) (params st) v (threads st) (mutexes st) (memory st) (shadow st) (action_trace st) (thread_map st) (pthread_map st) (pthread_counter st) (obj_map st) (condvar_waiters_map st) (obj_thrd_map st) (obj_wr_thrd_map st) (obj_last_sc_map st) (thrd_last_action st) (thrd_last_fence_release st) (priv st) (mo_graph st) (model_thread st) (isfinished st).
Definition set_threads (v : gmap thr_ptr Thread) (st : ModelExecution) : ModelExecution :=
  mkModelExecution (scheduler st) (fuzzer st) (params st) (actions st) v (mutexes st) (memory st) (shadow st) (action_trace st) (thread_map st) (pthread_map st) (pthread_counter st) (obj_map st) (condvar_waiters_map st) (obj_thrd_map st) (obj_wr_thrd_map st) (obj_last_sc_map st) (thrd_last_action st) (thrd_last_fence_release st) (priv st) (mo_graph st) (model_thread st) (isfinished st).
Definition set_mutexes (v : gmap loc mutex_state) (st : ModelExecution) : ModelExecution :=
  mkModelExecution (scheduler st) (fuzzer st) (params st) (actions st) (threads st) v (memory st) (shadow st) (action_trace st) (thread_map st) (pthread_map st) (pthread_counter st) (obj_map st) (condvar_waiters_map st) (obj_thrd_map st) (obj_wr_thrd_map st) (obj_last_sc_map st) (thrd_last_action st) (thrd_last_fence_release st) (priv st) (mo_graph st) (model_thread st) (isfinished st).
Definition set_memory (v : gmap loc Z) (st : ModelExecution) : ModelExecution :=
  mkModelExecution (scheduler st) (fuzzer st) (params st) (actions st) (threads st) (mutexes st) v (shadow st) (action_trace st) (thread_map st) (pthread_map st) (pthread_counter st) (obj_map st) (condvar_waiters_map st) (obj_thrd_map st) (obj_wr_thrd_map st) (obj_last_sc_map st) (thrd_last_action st) (thrd_last_fence_release st) (priv st) (mo_graph st) (model_thread st) (isfinished st).
Definition set_shadow (v : gmap loc (thread_id_t * modelclock_t)) (st : ModelExecution) : ModelExecution :=
  mkModelExecution (scheduler st) (fuzzer st) (params st) (actions st) (threads st) (mutexes st) (memory st) v (action_trace st) (thread_map st) (pthread_map st) (pthread_counter st) (obj_map st) (condvar_waiters_map st) (obj_thrd_map st) (obj_wr_thrd_map st) (obj_last_sc_map st) (thrd_last_action st) (thrd_last_fence_release st) (priv st) (mo_graph st) (model_thread st) (isfinished st).
Definition set_action_trace (v : list act_ptr) (st : ModelExecution) : ModelExecution :=
  mkModelExecution (scheduler st) (fuzzer st) (params st) (actions st) (threads st) (mutexes st) (memory st) (shadow st) v (thread_map st) (pthread_map st) (pthread_counter st) (obj_map st) (condvar_waiters_map st) (obj_thrd_map st) (obj_wr_thrd_map st) (obj_last_sc_map st) (thrd_last_action st) (thrd_last_fence_release st) (priv st) (mo_graph st) (model_thread st) (isfinished st).
Definition set_thread_map (v : list (option thr_ptr)) (st : ModelExecution) : ModelExecution :=
  mkModelExecution (scheduler st) (fuzzer st) (params st) (actions st) (threads st) (mutexes st) (memory st) (shadow st) (action_trace st) v (pthread_map st) (pthread_counter st) (obj_map st) (condvar_waiters_map st) (obj_thrd_map st) (obj_wr_thrd_map st) (obj_last_sc_map st) (thrd_last_action st) (thrd_last_fence_release st) (priv st) (mo_graph st) (model_thread st) (isfinished st).
Definition set_pthread_map (v : list (option thr_ptr)) (st : ModelExecution) : ModelExecution :=
  mkModelExecution (scheduler st) (fuzzer st) (params st) (actions st) (threads st) (mutexes st) (memory st) (shadow st) (action_trace st) (thread_map st) v (pthread_counter st) (obj_map st) (condvar_waiters_map st) (obj_thrd_map st) (obj_wr_thrd_map st) (obj_last_sc_map st) (thrd_last_action st) (thrd_last_fence_release st) (priv st) (mo_graph st) (model_thread st) (isfinished st).
Definition set_pthread_counter (v : Z) (st : ModelExecution) : ModelExecution :=
  mkModelExecution (scheduler st) (fuzzer st) (params st) (actions st) (threads st) (mutexes st) (memory st) (shadow st) (action_trace st) (thread_map st) (pthread_map st) v (obj_map st) (condvar_waiters_map st) (obj_thrd_map st) (obj_wr_thrd_map st) (obj_last_sc_map st) (thrd_last_action st) (thrd_last_fence_release st) (priv st) (mo_graph st) (model_thread st) (isfinished st).
Definition set_obj_map (v : gmap loc (list act_ptr)) (st : ModelExecution) : ModelExecution :=
  mkModelExecution (scheduler st) (fuzzer st) (params st) (actions st) (threads st) (mutexes st) (memory st) (shadow st) (action_trace st) (thread_map st) (pthread_map st) (pthread_counter st) v (condvar_waiters_map st) (obj_thrd_map st) (obj_wr_thrd_map st) (obj_last_sc_map st) (thrd_last_action st) (thrd_last_fence_release st) (priv st) (mo_graph st) (model_thread st) (isfinished st).
Definition set_condvar_waiters_map (v : gmap loc (list act_ptr)) (st : ModelExecution) : ModelExecution :=
  mkModelExecution (scheduler st) (fuzzer st) (params st) (actions st) (threads st) (mutexes st) (memory st) (shadow st) (action_trace st) (thread_map st) (pthread_map st) (pthread_counter st) (obj_map st) v (obj_thrd_map st) (obj_wr_thrd_map st) (obj_last_sc_map st) (thrd_last_action st) (thrd_last_fence_release st) (priv st) (mo_graph st) (model_thread st) (isfinished st).
Definition set_obj_thrd_map (v : gmap loc (list (list act_ptr))) (st : ModelExecution) : ModelExecution :=
  mkModelExecution (scheduler st) (fuzzer st) (params st) (actions st) (threads st) (mutexes st) (memory st) (shadow st) (action_trace st) (thread_map st) (pthread_map st) (pthread_counter st) (obj_map st) (condvar_waiters_map st) v (obj_wr_thrd_map st) (obj_last_sc_map st) (thrd_last_action st) (thrd_last_fence_release st) (priv st) (mo_graph st) (model_thread st) (isfinished st).
Definition set_obj_wr_thrd_map (v : gmap loc (list (list act_ptr))) (st : ModelExecution) : ModelExecution :=
  mkModelExecution (scheduler st) (fuzzer st) (params st) (actions st) (threads st) (mutexes st) (memory st) (shadow st) (action_trace st) (thread_map st) (pthread_map st) (pthread_counter st) (obj_map st) (condvar_waiters_map st) (obj_thrd_map st) v (obj_last_sc_map st) (thrd_last_action st) (thrd_last_fence_release st) (priv st) (mo_graph st) (model_thread st) (isfinished st).
Definition set_obj_last_sc_map (v : gmap loc act_ptr) (st : ModelExecution) : ModelExecution :=
  mkModelExecution (scheduler st) (fuzzer st) (params st) (actions st) (threads st) (mutexes st) (memory st) (shadow st) (action_trace st) (thread_map st) (pthread_map st) (pthread_counter st) (obj_map st) (condvar_waiters_map st) (obj_thrd_map st) (obj_wr_thrd_map st) v (thrd_last_action st) (thrd_last_fence_release st) (priv st) (mo_graph st) (model_thread st) (isfinished st).
Definition set_thrd_last_action (v : list (option act_ptr)) (st : ModelExecution) : ModelExecution :=
  mkModelExecution (scheduler st) (fuzzer st) (params st) (actions st) (threads st) (mutexes st) (memory st) (shadow st) (action_trace st) (thread_map st) (pthread_map st) (pthread_counter st) (obj_map st) (condvar_waiters_map st) (obj_thrd_map st) (obj_wr_thrd_map st) (obj_last_sc_map st) v (thrd_last_fence_release st) (priv st) (mo_graph st) (model_thread st) (isfinished st).
Definition set_thrd_last_fence_release (v : list (option act_ptr)) (st : ModelExecution) : ModelExecution :=
  mkModelExecution (scheduler st) (fuzzer st) (params st) (actions st) (threads st) (mutexes st) (memory st) (shadow st) (action_trace st) (thread_map st) (pthread_map st) (pthread_counter st) (obj_map st) (condvar_waiters_map st) (obj_thrd_map st) (obj_wr_thrd_map st) (obj_last_sc_map st) (thrd_last_action st) v (priv st) (mo_graph st) (model_thread st) (isfinished st).
Definition set_priv (v : model_snapshot_members) (st : ModelExecution) : ModelExecution :=
  mkModelExecution (scheduler st) (fuzzer st) (params st) (actions st) (threads st) (mutexes st) (memory st) (shadow st) (action_trace st) (thread_map st) (pthread_map st) (pthread_counter st) (obj_map st) (condvar_waiters_map st) (obj_thrd_map st) (obj_wr_thrd_map st) (obj_last_sc_map st) (thrd_last_action st) (thrd_last_fence_release st) v (mo_graph st) (model_thread st) (isfinished st).
Definition set_mo_graph (v : CycleGraph) (st : ModelExecution) : ModelExecution :=
  mkModelExecution (scheduler st) (fuzzer st) (params st) (actions st) (threads st) (mutexes st) (memory st) (shadow st) (action_trace st) (thread_map st) (pthread_map st) (pthread_counter st) (obj_map st) (condvar_waiters_map st) (obj_thrd_map st) (obj_wr_thrd_map st) (obj_last_sc_map st) (thrd_last_action st) (thrd_last_fence_release st) (priv st) v (model_thread st) (isfinished st).
Definition set_model_thread (v : option thr_ptr) (st : ModelExecution) : ModelExecution :=
  mkModelExecution (scheduler st) (fuzzer st) (params st) (actions st) (threads st) (mutexes st) (memory st) (shadow st) (action_trace st) (thread_map st) (pthread_map st) (pthread_counter st) (obj_map st) (condvar_waiters_map st) (obj_thrd_map st) (obj_wr_thrd_map st) (obj_last_sc_map st) (thrd_last_action st) (thrd_last_fence_release st) (priv st) (mo_graph st) v (isfinished st).
Definition set_isfinished (v : bool) (st : ModelExecution) : ModelExecution :=
  mkModelExecution (scheduler st) (fuzzer st) (params st) (actions st) (threads st) (mutexes st) (memory st) (shadow st) (action_trace st) (thread_map st) (pthread_map st) (pthread_counter st) (obj_map st) (condvar_waiters_map st) (obj_thrd_map st) (obj_wr_thrd_map st) (obj_last_sc_map st) (thrd_last_action st) (thrd_last_fence_release st) (priv st) (mo_graph st) (model_thread st) v.

(** ** The monad of the engine's methods *)

Definition M (A : Type) : Type := ModelExecution -> result (A * ModelExecution).

Definition ret {A} (a : A) : M A := fun st => Ok (a, st).

Definition bind {A B} (m : M A) (k : A -> M B) : M B :=
  fun st => match m st with
            | Ok (a, st') => k a st'
            | Err e => Err e
            end.

Notation "'let*' x := e 'in' k" := (bind e (fun x => k))
  (at level 10, x pattern, e at level 100, k at level 200).
Notation "e ';;' k" := (bind e (fun _ => k))
  (at level 100, k at level 200, right associativity, only parsing).

Definition read {A} (f : ModelExecution -> result A) : M A :=
  fun st => match f st with
            | Ok a => Ok (a, st)
            | Err e => Err e
            end.

Definition lift {A} (r : result A) : M A := read (fun _ => r).

Definition gets {A} (f : ModelExecution -> A) : M A := fun st => Ok (f st, st).

Definition modify (f : ModelExecution -> ModelExecution) : M unit :=
  fun st => Ok (tt, f st).

Fixpoint for_eachM {X A R} (body : X -> A -> M (loop_ctl A R))
    (xs : list X) (acc : A) : M (A + R) :=
  match xs with
  | [] => ret (inl acc)
  | x :: xs' =>
      let* c := body x acc in
      match c with
      | Continue a => for_eachM body xs' a
      | Break a => ret (inl a)
      | Return r => ret (inr r)
      end
  end.

(** Heap accesses. *)
Definition get_action (st : ModelExecution) (p : act_ptr) : result ModelAction :=
  deref (actions st !! p).

Definition update_action (p : act_ptr) (f : ModelAction -> ModelAction) : M unit :=
  let* a := read (fun st => get_action st p) in
  modify (fun st => set_actions (<[p := f a]> (actions st)) st).

Definition get_thread_obj (st : ModelExecution) (t : thr_ptr) : result Thread :=
  deref (threads st !! t).

Definition update_thread (t : option thr_ptr) (f : Thread -> Thread) : M unit :=
  let* t := lift (deref t) in
  let* th := read (fun st => get_thread_obj st t) in
  modify (fun st => set_threads (<[t := f th]> (threads st)) st).

Definition view (st : ModelExecution) : engine_view :=
  mkView (actions st) (thread_map st).

(** ** Methods of ModelExecution, in the order of execution.cc *)

Definition get_safe_ptr_action
    (get : ModelExecution -> gmap loc (list act_ptr))
    (put : gmap loc (list act_ptr) -> ModelExecution -> ModelExecution)
    (ptr : loc) : M (list act_ptr) :=
  let* hash := gets get in
  match hash !! ptr with
  | Some tmp => ret tmp
  | None => modify (put (<[ptr := []]> hash)) ;; ret []
  end.

Definition get_safe_ptr_vect_action
    (get : ModelExecution -> gmap loc (list (list act_ptr)))
    (put : gmap loc (list (list act_ptr)) -> ModelExecution -> ModelExecution)
    (ptr : loc) : M (list (list act_ptr)) :=
  let* hash := gets get in
  match hash !! ptr with
  | Some tmp => ret tmp
  | None => modify (put (<[ptr := []]> hash)) ;; ret []
  end.

Definition set_next_thread_id (n : Z) (p : model_snapshot_members)
    : model_snapshot_members :=
  mkPriv n (used_sequence_numbers p) (bugs p) (asserted p).
Definition set_used_sequence_numbers (n : modelclock_t)
    (p : model_snapshot_members) : model_snapshot_members :=
  mkPriv (next_thread_id p) n (bugs p) (asserted p).
Definition set_bugs (b : list (list Z)) (p : model_snapshot_members)
    : model_snapshot_members :=
  mkPriv (next_thread_id p) (used_sequence_numbers p) b (asserted p).
Definition set_asserted (b : bool) (p : model_snapshot_members)
    : model_snapshot_members :=
  mkPriv (next_thread_id p) (used_sequence_numbers p) (bugs p) b.

Definition get_next_id : M thread_id_t :=
  let* id := gets (fun st => next_thread_id (priv st)) in
  modify (fun st => set_priv (set_next_thread_id (to_unsigned (id + 1)) (priv st)) st) ;;
  ret id.

Definition get_num_threads (st : ModelExecution) : Z := next_thread_id (priv st).

Definition get_next_seq_num : M modelclock_t :=
  let* n := gets (fun st => to_unsigned (used_sequence_numbers (priv st) + 1)) in
  modify (fun st => set_priv (set_used_sequence_numbers n (priv st)) st) ;;
  ret n.

Definition restore_last_seq_num : M unit :=
  modify (fun st => set_priv (set_used_sequence_numbers
    (to_unsigned (used_sequence_numbers (priv st) - 1)) (priv st)) st).

Definition get_thread (st : ModelExecution) (tid : thread_id_t) : option thr_ptr :=
  let i := to_unsigned (id_to_int tid) in
  if i <? vsize (thread_map st) then
    mjoin (thread_map st !! Z.to_nat i)
  else None.

(** [get_thread(act)] *)
Definition get_thread_of (st : ModelExecution) (act : act_ptr) : result (option thr_ptr) :=
  let? a := get_action st act in
  Ok (get_thread st (get_tid a)).

Definition get_last_action (st : ModelExecution) (tid : thread_id_t)
    : result (option act_ptr) :=
  let threadid := id_to_int tid in
  if threadid <? to_int (vsize (thrd_last_action st)) then
    vget (thrd_last_action st) (id_to_int tid)
  else Ok None.

Definition get_last_fence_release (st : ModelExecution) (tid : thread_id_t)
    : result (option act_ptr) :=
  let threadid := id_to_int tid in
  if threadid <? to_int (vsize (thrd_last_fence_release st)) then
    vget (thrd_last_fence_release st) (id_to_int tid)
  else Ok None.

Definition is_enabled (st : ModelExecution) (tid : thread_id_t) : bool :=
  sched_is_enabled tid (scheduler st).

Definition should_wake_up (curr : act_ptr) (thread : thr_ptr) : M bool :=
  let* c := read (fun st => get_action st curr) in
  let* thr := read (fun st => get_thread_obj st thread) in
  if is_rmwr c then ret false
  else
    let* asleep_p := lift (deref (get_pending thr)) in
    let* asleep := read (fun st => get_action st asleep_p) in
    if could_synchronize_with asleep c then ret true
    else if is_fence asleep && is_acquire asleep && is_release c then ret true
    else
      let* woken :=
        if is_read asleep && is_acquire asleep && same_var c asleep && is_write c then
          let* fence_release := read (fun st => get_last_fence_release st (get_tid c)) in
          match fence_release with
          | Some fr =>
              let* last := read (fun st => get_last_action st (get_id thr)) in
              let* last := lift (deref last) in
              let* l := read (fun st => get_action st last) in
              let* f := read (fun st => get_action st fr) in
              ret (act_lt l f)
          | None => ret false
          end
        else ret false in
      if woken : bool then ret true
      else if is_sleep asleep then
        fun st =>
          let '(b, fz) := shouldWake (view st) asleep_p (fuzzer st) in
          Ok (b, set_fuzzer fz st)
      else ret false.

Definition wake_up_sleeping_actions (curr : act_ptr) : M unit :=
  let* n := gets get_num_threads in
  let* _ := for_eachM (R := Empty_set) (fun i (_ : unit) =>
    let* thr := gets (fun st => get_thread st (int_to_id i)) in
    let* thr := lift (deref thr) in
    let* asleep := gets (fun st => sched_is_sleep_set thr (scheduler st)) in
    (if asleep : bool then
       let* wake := should_wake_up curr thr in
       if wake : bool then
         modify (fun st => set_scheduler (sched_remove_sleep thr (scheduler st)) st) ;;
         let* t := read (fun st => get_thread_obj st thr) in
         let* p := lift (deref (get_pending t)) in
         let* pa := read (fun st => get_action st p) in
         if is_sleep pa then update_thread (Some thr) (set_wakeup_state true)
         else ret tt
       else ret tt
     else ret tt) ;;
    ret (Continue tt)) (upto n) tt in
  ret tt.

Definition set_assert : M unit :=
  modify (fun st => set_priv (set_asserted true (priv st)) st).

Definition assert_bug (msg : list Z) : M unit :=
  modify (fun st => set_priv (set_bugs (bugs (priv st) ++ [msg]) (priv st)) st) ;;
  set_assert.

Definition have_bug_reports (st : ModelExecution) : bool :=
  negb (vsize (bugs (priv st)) =? 0).

Definition has_asserted (st : ModelExecution) : bool := asserted (priv st).

Definition is_deadlocked (st : ModelExecution) : result bool :=
  let? r := for_each (fun i (blocking_threads : bool) =>
    let tid := int_to_id i in
    if is_enabled st tid then Ok (Return false)
    else
      let? t := deref (get_thread st tid) in
      let? t := get_thread_obj st t in
      if negb (is_model_thread t) && bool_decide (is_Some (get_pending t))
      then Ok (Continue true)
      else Ok (Continue blocking_threads)) (upto (get_num_threads st)) false in
  match r with
  | inl blocking_threads => Ok blocking_threads
  | inr b => Ok b
  end.

Definition is_complete_execution (st : ModelExecution) : bool :=
  forallb (fun i => negb (is_enabled st (int_to_id i))) (upto (get_num_threads st)).

(** The walk of [insertIntoActionList] from the tail: [front] holds the nodes
    up to [rit], most recent first, and [back] the nodes after it. *)
Fixpoint insert_walk (st : ModelExecution) (next_seq : modelclock_t)
    (act : act_ptr) (front back : list act_ptr) : result (list act_ptr) :=
  match front with
  | [] => Ok back
  | rit :: front' =>
      let? r := get_action st rit in
      if get_seq_number r =? next_seq then Ok (rev front ++ act :: back)
      else insert_walk st next_seq act front' (rit :: back)
  end.

Definition insertIntoActionList (st : ModelExecution) (lst : list act_ptr)
    (act : act_ptr) : result (list act_ptr) :=
  let? a := get_action st act in
  let next_seq := get_seq_number a in
  match last lst with
  | None => Ok (lst ++ [act])
  | Some rit =>
      let? r := get_action st rit in
      if get_seq_number r =? next_seq then Ok (lst ++ [act])
      else insert_walk st next_seq act (rev lst) []
  end.

Fixpoint insert_walk_cv (next_seq : modelclock_t) (act : act_ptr)
    (front back : list act_ptr) : M (list act_ptr) :=
  match front with
  | [] => ret back
  | rit :: front' =>
      let* r := read (fun st => get_action st rit) in
      if get_seq_number r =? next_seq then
        update_action act (create_cv (Some r)) ;;
        ret (rev front ++ act :: back)
      else insert_walk_cv next_seq act front' (rit :: back)
  end.

Definition insertIntoActionListAndSetCV (lst : list act_ptr) (act : act_ptr)
    : M (list act_ptr) :=
  let* a := read (fun st => get_action st act) in
  let next_seq := get_seq_number a in
  match last lst with
  | None => update_action act (create_cv None) ;; ret lst
  | Some rit =>
      let* r := read (fun st => get_action st rit) in
      if get_seq_number r =? next_seq then
        update_action act (create_cv (Some r)) ;;
        ret (lst ++ [act])
      else insert_walk_cv next_seq act (rev lst) []
  end.

(** The lazy growth of a per-thread vector: [if ((int)vec->size() <= tid)
    vec->resize(priv->next_thread_id)]. *)
Definition grow_for {A} (st : ModelExecution) (tid : Z) (d : A) (vec : list A)
    : list A :=
  if to_int (vsize vec) <=? tid then vresize (next_thread_id (priv st)) d vec
  else vec.

Definition get_last_seq_cst_write (st : ModelExecution) (curr : act_ptr)
    : result (option act_ptr) :=
  let? c := get_action st curr in
  Ok (obj_last_sc_map st !! get_location c).

(** The nodes before [before_fence], most recent first. *)
Fixpoint nodes_before (before_fence : act_ptr) (l : list act_ptr)
    : result (list act_ptr) :=
  match l with
  | [] => Err NullDeref
  | rit :: l' => if decide (rit = before_fence) then Ok l'
                 else nodes_before before_fence l'
  end.

Fixpoint find_action (st : ModelExecution) (p : ModelAction -> bool)
    (l : list act_ptr) : result (option act_ptr) :=
  match l with
  | [] => Ok None
  | rit :: l' =>
      let? act := get_action st rit in
      if p act then Ok (Some rit) else find_action st p l'
  end.

Definition get_last_seq_cst_fence (st : ModelExecution) (tid : thread_id_t)
    (before_fence : option act_ptr) : result (option act_ptr) :=
  match obj_map st !! FENCE_LOCATION with
  | None => Ok None
  | Some lst =>
      let? l := match before_fence with
                | Some bf => nodes_before bf (rev lst)
                | None => Ok (rev lst)
                end in
      find_action st (fun act => is_fence act && (tid =? get_tid act) && is_seqcst act) l
  end.

Definition get_last_unlock (st : ModelExecution) (curr : act_ptr)
    : result (option act_ptr) :=
  let? c := get_action st curr in
  let? lst := deref (obj_map st !! get_location c) in
  find_action st (fun act => is_unlock act || is_wait act) (rev lst).

Definition get_parent_action (st : ModelExecution) (tid : thread_id_t)
    : result (option act_ptr) :=
  let? parent := get_last_action st tid in
  match parent with
  | Some p => Ok (Some p)
  | None =>
      let? t := deref (get_thread st tid) in
      let? t := get_thread_obj st t in
      Ok (get_creation t)
  end.

(** [ModelExecution::get_cv(tid)] *)
Definition get_cv_of_thread (st : ModelExecution) (tid : thread_id_t)
    : result (option ClockVector) :=
  let? firstaction := get_parent_action st tid in
  match firstaction with
  | Some p => let? a := get_action st p in Ok (get_cv a)
  | None => Ok None
  end.

Definition add_normal_write_to_lists (act : act_ptr) : M unit :=
  let* a := read (fun st => get_action st act) in
  let tid := id_to_int (get_tid a) in
  let* trace := gets action_trace in
  let* trace := insertIntoActionListAndSetCV trace act in
  modify (set_action_trace trace) ;;
  let* lst := get_safe_ptr_action obj_map set_obj_map (get_location a) in
  let* lst := read (fun st => insertIntoActionList st lst act) in
  modify (fun st => set_obj_map (<[get_location a := lst]> (obj_map st)) st) ;;
  let* vec := get_safe_ptr_vect_action obj_thrd_map set_obj_thrd_map (get_location a) in
  let* vec := gets (fun st => grow_for st tid [] vec) in
  modify (fun st => set_obj_thrd_map (<[get_location a := vec]> (obj_thrd_map st)) st) ;;
  let* l := lift (vget vec tid) in
  let* l := read (fun st => insertIntoActionList st l act) in
  let* vec := lift (vset vec tid l) in
  modify (fun st => set_obj_thrd_map (<[get_location a := vec]> (obj_thrd_map st)) st) ;;
  let* last := read (fun st => vget (thrd_last_action st) tid) in
  let* last := lift (deref last) in
  let* la := read (fun st => get_action st last) in
  let* a := read (fun st => get_action st act) in
  if get_seq_number la =? get_seq_number a then
    let* v := read (fun st => vset (thrd_last_action st) tid (Some act)) in
    modify (set_thrd_last_action v)
  else ret tt.

Definition add_write_to_lists (write : act_ptr) : M unit :=
  let* w := read (fun st => get_action st write) in
  let* vec := get_safe_ptr_vect_action obj_wr_thrd_map set_obj_wr_thrd_map (get_location w) in
  let tid := id_to_int (get_tid w) in
  let* vec := gets (fun st => grow_for st tid [] vec) in
  let* l := lift (vget vec tid) in
  let* vec := lift (vset vec tid (l ++ [write])) in
  modify (fun st => set_obj_wr_thrd_map (<[get_location w := vec]> (obj_wr_thrd_map st)) st).

(** The walk of [w_modification_order] over the actions of one thread, most
    recent first. *)
Definition w_mo_thread (st : ModelExecution) (curr : act_ptr) (c : ModelAction)
    (last_sc_fence_thread_before : option act_ptr)
    (lst : list act_ptr) (edgeset : list node_key) : result (list node_key) :=
  let? r := for_each (R := Empty_set) (fun act edgeset =>
    if decide (act = curr) then
      if is_rmw c then
        if bool_decide (get_reads_from c <> None) then Ok (Break edgeset)
        else Ok (Continue edgeset)
      else Ok (Continue edgeset)
    else
      let? a := get_action st act in
      (* C++, Section 29.3 statement 7 *)
      let? stmt7 :=
        match last_sc_fence_thread_before with
        | Some f =>
            if is_write a then
              let? fence := get_action st f in Ok (act_lt a fence)
            else Ok false
        | None => Ok false
        end in
      if stmt7 : bool then Ok (Break (edgeset ++ [Some act]))
      else
        let? hb := happens_before a c in
        if hb : bool then
          if is_write a then Ok (Break (edgeset ++ [Some act]))
          else if is_read a then Ok (Break (edgeset ++ [get_reads_from a]))
          else Ok (Break edgeset)
        else Ok (Continue edgeset)) (rev lst) edgeset in
  Ok (finished r).

Definition w_modification_order (curr : act_ptr) : M unit :=
  let* c := read (fun st => get_action st curr) in
  lift (ASSERT (is_write c)) ;;
  let* edgeset :=
    if is_seqcst c then
      let* last_seq_cst := read (fun st => get_last_seq_cst_write st curr) in
      modify (fun st => set_obj_last_sc_map
                          (<[get_location c := curr]> (obj_last_sc_map st)) st) ;;
      ret (match last_seq_cst with
           | Some l => [Some l]
           | None => []
           end)
    else ret [] in
  let* last_sc_fence_local :=
    read (fun st => get_last_seq_cst_fence st (get_tid c) None) in
  let* thrd_lists := read (fun st => deref (obj_thrd_map st !! get_location c)) in
  let* r := read (fun st => for_each (R := Empty_set) (fun i edgeset =>
    let? last_sc_fence_thread_before :=
      if bool_decide (last_sc_fence_local <> None)
         && negb (int_to_id (to_int i) =? get_tid c)
      then get_last_seq_cst_fence st (int_to_id i) last_sc_fence_local
      else Ok None in
    let? lst := vget thrd_lists i in
    let? edgeset := w_mo_thread st curr c last_sc_fence_thread_before lst edgeset in
    Ok (Continue edgeset)) (upto (vsize thrd_lists)) edgeset) in
  modify (fun st => set_mo_graph (addEdges (finished r) (Some curr) (mo_graph st)) st).

Definition mo_may_allow (st : ModelExecution) (writer reader : act_ptr)
    : result bool :=
  let? r := get_action st reader in
  let? thrd_lists := deref (obj_thrd_map st !! get_location r) in
  let? res := for_each (fun i (_ : unit) =>
    let? lst := vget thrd_lists i in
    let? write_after_read := for_each (R := Empty_set)
      (fun act (write_after_read : option act_ptr) =>
         let? a := get_action st act in
         let? hb := happens_before r a in
         (* Don't disallow due to act == reader *)
         if negb hb || bool_decide (reader = act) then Ok (Break write_after_read)
         else if is_write a then Ok (Continue (Some act))
         else if is_read a && bool_decide (get_reads_from a <> None)
         then Ok (Continue (get_reads_from a))
         else Ok (Continue write_after_read)) (rev lst) None in
    match finished write_after_read with
    | Some w =>
        if bool_decide (w <> writer)
           && checkReachable (mo_graph st) (Some w) (Some writer)
        then Ok (Return false)
        else Ok (Continue tt)
    | None => Ok (Continue tt)
    end) (upto (vsize thrd_lists)) tt in
  match res with
  | inl _ => Ok true
  | inr b => Ok b
  end.

(** The shadow memory of the race detector (datarace.h is not under src/). *)
Definition hasNonAtomicStore (st : ModelExecution) (location : loc) : bool :=
  bool_decide (is_Some (shadow st !! location)).

Definition convertNonAtomicStore (location : loc) : M act_ptr :=
  let* value := read (fun st => deref (memory st !! location)) in
  let* (storethread, storeclock) := read (fun st => deref (shadow st !! location)) in
  modify (fun st => set_shadow (delete location (shadow st)) st) ;;
  let* thr := gets (fun st => get_thread st storethread) in
  let* thr := lift (deref thr) in
  let* t := read (fun st => get_thread_obj st thr) in
  let* act := gets (fun st => fresh (dom (actions st))) in
  modify (fun st => set_actions
    (<[act := set_seq_number storeclock
                (new_ModelAction NONATOMIC_WRITE memory_order_relaxed location
                                 (uint64_t value) (get_id t))]> (actions st)) st) ;;
  add_normal_write_to_lists act ;;
  add_write_to_lists act ;;
  w_modification_order act ;;
  ret act.

(** The first loop of [get_hb_from_write]: follow the RMW chain from [rf],
    collecting the RMWs whose release clock vector is not known yet. *)
Fixpoint hb_chain (fuel : nat) (st : ModelExecution) (rf : option act_ptr)
    (processset : list act_ptr) : result (option act_ptr * list act_ptr) :=
  match fuel with
  | O => Err Diverges
  | S fuel' =>
      match rf with
      | None => Ok (None, processset)
      | Some p =>
          let? a := get_action st p in
          let? _ := ASSERT (is_write a) in
          if negb (is_rmw a) || (is_acquire a && is_release a)
             || bool_decide (get_rfcv a <> None)
          then Ok (Some p, processset)
          else hb_chain fuel' st (get_reads_from a) (processset ++ [p])
      end
  end.

(** One turn of the second loop: the clock vector a release sequence hands
    on through [rf], given the one that reaches it. *)
Definition hb_step (rf : option act_ptr) (vec : option ClockVector)
    : M (option ClockVector) :=
  let* rf := lift (deref rf) in
  let* a := read (fun st => get_action st rf) in
  if bool_decide (get_rfcv a <> None) then ret (get_rfcv a)
  else if is_acquire a && is_release a then ret (get_cv a)
  else if is_release a && negb (is_rmw a) then ret (get_cv a)
  else if is_release a then
    (* have rmw that is release and doesn't have a rfcv *)
    let* cv := lift (deref (get_cv a)) in
    let vec := Some (snd (merge (new_ClockVector vec None) cv)) in
    update_action rf (set_rfcv vec) ;;
    ret vec
  else
    (* operation that isn't release *)
    let* vec :=
      match get_last_fence_release_of a with
      | Some fr =>
          let* f := read (fun st => get_action st fr) in
          match vec with
          | None => ret (get_cv f)
          | Some _ =>
              let* cv := lift (deref (get_cv f)) in
              ret (Some (snd (merge (new_ClockVector vec None) cv)))
          end
      | None => ret vec
      end in
    update_action rf (set_rfcv vec) ;;
    ret vec.

Definition get_hb_from_write (rf : option act_ptr) : M (option ClockVector) :=
  let* (rf, processset) :=
    read (fun st => hb_chain (S (size (actions st))) st rf []) in
  let* r := for_eachM (R := Empty_set) (fun rf vec =>
    let* vec := hb_step rf vec in
    ret (Continue vec)) (rf :: map Some (rev processset)) None in
  ret (finished r).

Definition read_from (act rf : act_ptr) : M unit :=
  let* r := read (fun st => get_action st rf) in
  lift (ASSERT (is_write r)) ;;
  update_action act (set_read_from (Some rf)) ;;
  let* a := read (fun st => get_action st act) in
  if is_acquire a then
    let* cv := get_hb_from_write (Some rf) in
    match cv with
    | None => ret tt
    | Some cv =>
        let* a := read (fun st => get_action st act) in
        let* this := lift (deref (get_cv a)) in
        update_action act (set_cv (Some (snd (merge this cv))))
    end
  else ret tt.

Definition synchronize_with (this : act_ptr) (act : ModelAction) : M bool :=
  let* t := read (fun st => get_action st this) in
  let* tcv := lift (deref (get_cv t)) in
  let* cv := lift (deref (get_cv act)) in
  update_action this (set_cv (Some (snd (merge tcv cv)))) ;;
  ret true.

Definition synchronize (first : option act_ptr) (second : act_ptr) : M bool :=
  let* first := lift (deref first) in
  let* f := read (fun st => get_action st first) in
  let* s := read (fun st => get_action st second) in
  if act_lt s f then
    lift (ASSERT false) ;; ret false
  else synchronize_with second f.

(** What [r_modification_order] carries through its loops: the prior set,
    [*canprune] and [prev_same_thread]. *)
Record rmo_acc : Type := mkRmoAcc {
  acc_priorset : list act_ptr;
  acc_canprune : bool;
  acc_prev_same_thread : option act_ptr
}.

Definition rmo_push (check_only : bool) (act : act_ptr) (acc : rmo_acc) : rmo_acc :=
  if check_only then acc
  else mkRmoAcc (acc_priorset acc ++ [act]) (acc_canprune acc)
                (acc_prev_same_thread acc).

Definition lt_fence (st : ModelExecution) (a : ModelAction) (fence : option act_ptr)
    : result bool :=
  match fence with
  | Some f => let? fa := get_action st f in Ok (act_lt a fa)
  | None => Ok false
  end.

(** The walk of [r_modification_order] over the actions of one thread. *)
Definition r_mo_thread (st : ModelExecution) (curr : act_ptr) (c : ModelAction)
    (rf : act_ptr) (check_only : bool) (i : Z)
    (last_sc_fence_local last_sc_fence_thread_local
       last_sc_fence_thread_before : option act_ptr)
    (lst : list act_ptr) (acc : rmo_acc) : result (rmo_acc + rmo_acc) :=
  for_each (fun act acc =>
    (* Skip curr *)
    if decide (act = curr) then Ok (Continue acc)
    else
      let? a := get_action st act in
      (* Don't want to add reflexive edges on 'rf' *)
      if decide (act = rf) then
        let? hb := happens_before a c in
        if hb : bool then Ok (Break acc) else Ok (Continue acc)
      else
        let? stmt5 := if is_write a && is_seqcst c
                      then lt_fence st a last_sc_fence_thread_local else Ok false in
        let? stmt4 := if is_write a && negb stmt5 && is_seqcst a
                      then lt_fence st a last_sc_fence_local else Ok false in
        let? stmt6 := if is_write a && negb stmt5 && negb stmt4
                      then lt_fence st a last_sc_fence_thread_before else Ok false in
        if stmt5 || stmt4 || stmt6 then
          if checkReachable (mo_graph st) (Some rf) (Some act) then Ok (Return acc)
          else Ok (Break (rmo_push check_only act acc))
        else
          (* Include at most one act per-thread that "happens before" curr *)
          let? hb := happens_before a c in
          if hb : bool then
            let? acc :=
              if i =? 0 then
                let? later := match last_sc_fence_local with
                              | None => Ok true
                              | Some f => let? fa := get_action st f in
                                          Ok (act_lt fa a)
                              end in
                if later : bool
                then Ok (mkRmoAcc (acc_priorset acc) (acc_canprune acc) (Some act))
                else Ok acc
              else Ok acc in
            if is_write a then
              if checkReachable (mo_graph st) (Some rf) (Some act) then Ok (Return acc)
              else Ok (Break (rmo_push check_only act acc))
            else
              let? prevrf := deref (get_reads_from a) in
              if negb (bool_decide (prevrf = rf)) then
                if checkReachable (mo_graph st) (Some rf) (Some prevrf)
                then Ok (Return acc)
                else Ok (Break (rmo_push check_only prevrf acc))
              else if (get_tid a =? get_tid c) && negb check_only then
                Ok (Break (mkRmoAcc (acc_priorset acc) true (acc_prev_same_thread acc)))
              else Ok (Break acc)
          else Ok (Continue acc)) (rev lst) acc.

Definition r_modification_order (st : ModelExecution) (curr rf : act_ptr)
    (priorset : list act_ptr) (canprune check_only : bool)
    : result (bool * list act_ptr * bool) :=
  let? c := get_action st curr in
  let? _ := ASSERT (is_read c) in
  (* Last SC fence in the current thread *)
  let? last_sc_fence_local := get_last_seq_cst_fence st (get_tid c) None in
  let? thrd_lists := deref (obj_thrd_map st !! get_location c) in
  let? r := for_each (fun i '(tid, acc) =>
    let next_tid := if to_unsigned (tid + 1) =? vsize thrd_lists then 0
                    else to_int (tid + 1) in
    (* Last SC fence in thread tid *)
    let? last_sc_fence_thread_local :=
      if negb (i =? 0) then get_last_seq_cst_fence st (int_to_id tid) None
      else Ok None in
    (* Last SC fence in thread tid, before last SC fence in current thread *)
    let? last_sc_fence_thread_before :=
      if bool_decide (last_sc_fence_local <> None)
      then get_last_seq_cst_fence st (int_to_id tid) last_sc_fence_local
      else Ok None in
    let? skip :=
      match acc_prev_same_thread acc with
      | None => Ok false
      | Some pst =>
          let? p := get_action st pst in
          let? pcv := deref (get_cv p) in
          let? c := get_action st curr in
          let? ccv := deref (get_cv c) in
          if getClock pcv tid =? getClock ccv tid then
            match last_sc_fence_thread_local with
            | None => Ok true
            | Some f => let? fa := get_action st f in Ok (act_lt fa p)
            end
          else Ok false
      end in
    if skip : bool then Ok (Continue (next_tid, acc))
    else
      let? lst := vget thrd_lists tid in
      let? r := r_mo_thread st curr c rf check_only i last_sc_fence_local
                  last_sc_fence_thread_local last_sc_fence_thread_before lst acc in
      match r with
      | inl acc => Ok (Continue (next_tid, acc))
      | inr acc => Ok (Return acc)
      end) (upto (vsize thrd_lists)) (get_tid c, mkRmoAcc priorset canprune None) in
  match r with
  | inl (_, acc) => Ok (true, acc_priorset acc, acc_canprune acc)
  | inr acc => Ok (false, acc_priorset acc, acc_canprune acc)
  end.

(** Modelled from the spec: [ModelAction::get_return_value] (spec 4.4: the
    value a read returns to its thread is the value of the write it reads
    from). *)
Definition action_return_value (st : ModelExecution) (a : ModelAction) : result Z :=
  if is_read a then
    match get_reads_from a with
    | Some rf => let? w := get_action st rf in Ok (get_value w)
    | None => Ok VALUE_NONE
    end
  else Ok (get_value a).

(** Overwrite the element at [index] with [rf_set->back()], then
    [rf_set->pop_back()]. *)
Definition swap_remove {A} (index : Z) (v : list A) : result (list A) :=
  let? back := deref (last v) in
  let? v := vset v index back in
  Ok (removelast v).

(** The rf-choice loop of [process_read].  Every turn that does not return
    takes one candidate out of [rf_set], so [S (length rf_set)] turns are
    enough. *)
Fixpoint process_read_loop (fuel : nat) (curr : act_ptr)
    (rf_set priorset : list act_ptr) : M bool :=
  match fuel with
  | O => lift (Err Diverges)
  | S fuel' =>
      let* index := (fun st =>
        let '(index, fz) := selectWrite (view st) curr rf_set (fuzzer st) in
        Ok (index, set_fuzzer fz st)) in
      if index =? -1 then ret false     (* no feasible write exists *)
      else
        let* rf := lift (vget rf_set index) in
        (* ASSERT(rf): the elements of rf_set are actions, never NULL *)
        let canprune := false in
        let* (accepted, priorset, canprune) :=
          read (fun st => r_modification_order st curr rf priorset canprune false) in
        if accepted : bool then
          modify (fun st => set_mo_graph
            (foldl (fun g p => addEdge (Some p) (Some rf) g) (mo_graph st) priorset) st) ;;
          read_from curr rf ;;
          let* thr := read (fun st => get_thread_of st curr) in
          let* c := read (fun st => get_action st curr) in
          let* v := read (fun st => action_return_value st c) in
          update_thread thr (set_return_value v) ;;
          (if canprune && bool_decide (get_type c = ATOMIC_READ) then
             let tid := id_to_int (get_tid c) in
             let* vec := read (fun st => deref (obj_thrd_map st !! get_location c)) in
             let* l := lift (vget vec tid) in
             let* _ := lift (deref (last l)) in
             let* vec := lift (vset vec tid (removelast l)) in
             modify (fun st => set_obj_thrd_map
                                 (<[get_location c := vec]> (obj_thrd_map st)) st)
           else ret tt) ;;
          ret true
        else
          let* rf_set := lift (swap_remove index rf_set) in
          process_read_loop fuel' curr rf_set []
  end.

Definition process_read (curr : act_ptr) (rf_set : list act_ptr) : M bool :=
  let priorset := [] in
  let* c := read (fun st => get_action st curr) in
  let* hasnonatomicstore := gets (fun st => hasNonAtomicStore st (get_location c)) in
  let* rf_set :=
    if hasnonatomicstore : bool then
      let* nonatomicstore := convertNonAtomicStore (get_location c) in
      ret (rf_set ++ [nonatomicstore])
    else ret rf_set in
  process_read_loop (S (length rf_set)) curr rf_set priorset.

(** The threads an unlock wakes: those that wait on the current thread with
    a pending lock. *)
Definition wake_lock_waiters (curr : act_ptr) : M unit :=
  let* n := gets get_num_threads in
  let* _ := for_eachM (R := Empty_set) (fun i (_ : unit) =>
    let* t := gets (fun st => get_thread st (int_to_id i)) in
    let* curr_thrd := read (fun st => get_thread_of st curr) in
    let* tp := lift (deref t) in
    let* thr := read (fun st => get_thread_obj st tp) in
    (if bool_decide (waiting_on thr = curr_thrd) then
       let* p := lift (deref (get_pending thr)) in
       let* pa := read (fun st => get_action st p) in
       if is_lock pa then
         modify (fun st => set_scheduler (sched_wake tp (scheduler st)) st)
       else ret tt
     else ret tt) ;;
    ret (Continue tt)) (upto n) tt in
  ret tt.

Definition get_mutex_state (st : ModelExecution) (state : option loc)
    : result mutex_state :=
  let? m := deref state in
  deref (mutexes st !! m).

Definition set_locked (state : option loc) (owner : option thr_ptr) : M unit :=
  let* m := lift (deref state) in
  let* _ := read (fun st => deref (mutexes st !! m)) in
  modify (fun st => set_mutexes (<[m := mkMutexState owner]> (mutexes st)) st).

(** The [ATOMIC_LOCK] case, into which a successful trylock falls. *)
Definition process_mutex_lock (curr : act_ptr) (state : option loc) : M bool :=
  let* thr := read (fun st => get_thread_of st curr) in
  set_locked state thr ;;
  let* unlock := read (fun st => get_last_unlock st curr) in
  (* synchronize with the previous unlock statement *)
  match unlock with
  | Some u => synchronize (Some u) curr ;; ret true
  | None => ret false
  end.

Definition process_mutex (curr : act_ptr) : M bool :=
  let* c := read (fun st => get_action st curr) in
  let mutex := get_mutex c in
  let state := mutex in
  match get_type c with
  | ATOMIC_TRYLOCK =>
      let* s := read (fun st => get_mutex_state st state) in
      let success := negb (bool_decide (locked s <> None)) in
      update_action curr (set_try_lock (Some success)) ;;
      let* thr := read (fun st => get_thread_of st curr) in
      if negb success then
        update_thread thr (set_return_value 0) ;;
        ret false
      else
        update_thread thr (set_return_value 1) ;;
        (* otherwise fall into the lock case *)
        process_mutex_lock curr state
  | ATOMIC_LOCK => process_mutex_lock curr state
  | ATOMIC_WAIT =>
      (* wake up the other threads *)
      wake_lock_waiters curr ;;
      (* unlock the lock - after checking who was waiting on it *)
      set_locked state None ;;
      let* wait := (fun st =>
        let '(b, fz) := shouldWait (view st) curr (fuzzer st) in
        Ok (b, set_fuzzer fz st)) in
      (if wait : bool then
         (* disable this thread *)
         let* waiters := get_safe_ptr_action condvar_waiters_map
                           set_condvar_waiters_map (get_location c) in
         modify (fun st => set_condvar_waiters_map
           (<[get_location c := waiters ++ [curr]]> (condvar_waiters_map st)) st) ;;
         let* thr := read (fun st => get_thread_of st curr) in
         let* thr := lift (deref thr) in
         modify (fun st => set_scheduler (sched_sleep thr (scheduler st)) st)
       else ret tt) ;;
      ret false
  | ATOMIC_TIMEDWAIT | ATOMIC_UNLOCK =>
      (* wake up the other threads *)
      wake_lock_waiters curr ;;
      (* unlock the lock - after checking who was waiting on it *)
      set_locked state None ;;
      ret false
  | ATOMIC_NOTIFY_ALL =>
      let* waiters := get_safe_ptr_action condvar_waiters_map
                        set_condvar_waiters_map (get_location c) in
      (* activate all the waiting threads *)
      let* _ := for_eachM (R := Empty_set) (fun rit (_ : unit) =>
        let* thr := read (fun st => get_thread_of st rit) in
        let* thr := lift (deref thr) in
        modify (fun st => set_scheduler (sched_wake thr (scheduler st)) st) ;;
        ret (Continue tt)) waiters tt in
      modify (fun st => set_condvar_waiters_map
        (<[get_location c := []]> (condvar_waiters_map st)) st) ;;
      ret false
  | ATOMIC_NOTIFY_ONE =>
      let* waiters := get_safe_ptr_action condvar_waiters_map
                        set_condvar_waiters_map (get_location c) in
      (if negb (vsize waiters =? 0) then
         (* the fuzzer works on the list of the table *)
         let* thread := (fun st =>
           let '(t, waiters', fz) := selectNotify (view st) waiters (fuzzer st) in
           Ok (t, set_condvar_waiters_map
                    (<[get_location c := waiters']> (condvar_waiters_map st))
                    (set_fuzzer fz st))) in
         let* thread := lift (deref thread) in
         modify (fun st => set_scheduler (sched_wake thread (scheduler st)) st)
       else ret tt) ;;
      ret false
  | _ => lift (ASSERT false) ;; ret false
  end.

Definition process_write (curr : act_ptr) : M unit :=
  w_modification_order curr ;;
  let* thr := read (fun st => get_thread_of st curr) in
  update_thread thr (set_return_value VALUE_NONE).

Definition process_fence (curr : act_ptr) : M bool :=
  let* c := read (fun st => get_action st curr) in
  if is_acquire c then
    let* lst := gets action_trace in
    (* Find X : is_read(X) && X --sb-> curr *)
    let* r := for_eachM (R := Empty_set) (fun act (updated : bool) =>
      if decide (act = curr) then ret (Continue updated)
      else
        let* a := read (fun st => get_action st act) in
        let* c := read (fun st => get_action st curr) in
        if negb (get_tid a =? get_tid c) then ret (Continue updated)
        (* Stop at the beginning of the thread *)
        else if is_thread_start a then ret (Break updated)
        (* Stop once we reach a prior fence-acquire *)
        else if is_fence a && is_acquire a then ret (Break updated)
        else if negb (is_read a) then ret (Continue updated)
        (* read-acquire will find its own release sequences *)
        else if is_acquire a then ret (Continue updated)
        else
          (* Establish hypothetical release sequences *)
          let* cv := get_hb_from_write (get_reads_from a) in
          match cv with
          | None => ret (Continue updated)
          | Some cv =>
              let* c := read (fun st => get_action st curr) in
              let* this := lift (deref (get_cv c)) in
              let '(changed, merged) := merge this cv in
              update_action curr (set_cv (Some merged)) ;;
              ret (Continue (if changed then true else updated))
          end) (rev lst) false in
    ret (finished r)
  else ret false.

Definition add_thread (t : thr_ptr) : M unit :=
  let* th := read (fun st => get_thread_obj st t) in
  let i := to_unsigned (id_to_int (get_id th)) in
  modify (fun st =>
    if vsize (thread_map st) <=? i
    then set_thread_map (vresize (to_unsigned (i + 1)) None (thread_map st)) st
    else st) ;;
  let* v := read (fun st => vset (thread_map st) i (Some t)) in
  modify (set_thread_map v) ;;
  if negb (is_model_thread th) then
    modify (fun st => set_scheduler (sched_add_thread t (scheduler st)) st)
  else ret tt.

Definition get_pthread (st : ModelExecution) (pid : Z) : result (option thr_ptr) :=
  let thread_id := uint32_t pid in
  if thread_id <? uint32_t (pthread_counter st + 1)
  then vget (pthread_map st) thread_id
  else Ok None.

(** [new Thread(get_next_id(), ...)], [curr->set_thread_operand(th)],
    [add_thread(th)], [th->set_creation(curr)]. *)
Definition create_thread (curr : act_ptr) : M thr_ptr :=
  let* id := get_next_id in
  let* th := gets (fun st => fresh (dom (threads st))) in
  modify (fun st => set_threads (<[th := new_Thread id]> (threads st)) st) ;;
  update_action curr (set_thread_operand (Some th)) ;;
  add_thread th ;;
  update_thread (Some th) (set_creation (Some curr)) ;;
  ret th.

Definition join_thread (curr : act_ptr) : M unit :=
  let* c := read (fun st => get_action st curr) in
  let* blocking := lift (deref (get_thread_operand c)) in
  let* b := read (fun st => get_thread_obj st blocking) in
  let* act := read (fun st => get_last_action st (get_id b)) in
  synchronize act curr ;;
  ret tt.

Definition process_thread_action (curr : act_ptr) : M unit :=
  let* c := read (fun st => get_action st curr) in
  match get_type c with
  | THREAD_CREATE => create_thread curr ;; ret tt
  | PTHREAD_CREATE =>
      let* counter := gets pthread_counter in
      modify (fun st => set_memory (<[get_location c := uint32_t counter]> (memory st)) st) ;;
      modify (set_pthread_counter (to_unsigned (counter + 1))) ;;
      let* th := create_thread curr in
      modify (fun st =>
        if vsize (pthread_map st) <? pthread_counter st
        then set_pthread_map (vresize (pthread_counter st) None (pthread_map st)) st
        else st) ;;
      let* v := read (fun st =>
        vset (pthread_map st) (to_unsigned (pthread_counter st - 1)) (Some th)) in
      modify (set_pthread_map v)
  | THREAD_JOIN => join_thread curr
  | PTHREAD_JOIN => join_thread curr
  | THREADONLY_FINISH | THREAD_FINISH =>
      let* th := read (fun st => get_thread_of st curr) in
      if bool_decide (get_type c = THREAD_FINISH) && bool_decide (th = getInitThread)
      then
        update_thread th complete ;;
        modify (set_isfinished true)
      else
        (* Wake up any joining threads *)
        let* n := gets get_num_threads in
        let* _ := for_eachM (R := Empty_set) (fun i (_ : unit) =>
          let* waiting := gets (fun st => get_thread st (int_to_id i)) in
          let* wp := lift (deref waiting) in
          let* w := read (fun st => get_thread_obj st wp) in
          (if bool_decide (waiting_on w = th) then
             let* p := lift (deref (get_pending w)) in
             let* pa := read (fun st => get_action st p) in
             if is_thread_join pa then
               modify (fun st => set_scheduler (sched_wake wp (scheduler st)) st)
             else ret tt
           else ret tt) ;;
          ret (Continue tt)) (upto n) tt in
        update_thread th complete
  | THREAD_START => ret tt
  | THREAD_SLEEP =>
      let* th := read (fun st => get_thread_of st curr) in
      update_thread th (set_pending (Some curr)) ;;
      let* th := lift (deref th) in
      modify (fun st => set_scheduler (sched_add_sleep th (scheduler st)) st)
  | _ => ret tt
  end.

(** [ModelExecution::process_rmw]: close out a RMWR by converting the
    previous RMWR into a RMW or READ. *)
Definition process_rmw (act : act_ptr) : M act_ptr :=
  let* a := read (fun st => get_action st act) in
  let* lastread := read (fun st => get_last_action st (get_tid a)) in
  let* lastread := lift (deref lastread) in
  update_action lastread (action_process_rmw a) ;;
  (if is_rmw a then
     let* l := read (fun st => get_action st lastread) in
     modify (fun st => set_mo_graph
                         (addRMWEdge (get_reads_from l) lastread (mo_graph st)) st)
   else ret tt) ;;
  ret lastread.

Definition initialize_curr_action (curr : act_ptr) : M (bool * act_ptr) :=
  let* c := read (fun st => get_action st curr) in
  if is_rmwc c || is_rmw c then
    let* newcurr := process_rmw curr in
    modify (fun st => set_actions (delete curr (actions st)) st) ;;
    ret (false, newcurr)
  else
    let newcurr := curr in
    let* seq := get_next_seq_num in
    update_action newcurr (set_seq_number seq) ;;
    (* Always compute new clock vector *)
    let* parent := read (fun st => get_parent_action st (get_tid c)) in
    let* parent := match parent with
                   | Some p => let* pa := read (fun st => get_action st p) in
                               ret (Some pa)
                   | None => ret None
                   end in
    update_action newcurr (create_cv parent) ;;
    (* Assign most recent release fence *)
    let* fr := read (fun st => get_last_fence_release st (get_tid c)) in
    update_action newcurr (set_last_fence_release fr) ;;
    ret (true, newcurr).     (* This was a new ModelAction *)

Definition get_uninitialized_action (curr : act_ptr) : M act_ptr :=
  let* c := read (fun st => get_action st curr) in
  let* act :=
    match get_uninit_action c with
    | Some act => ret act
    | None =>
        let* uninitvalue := read (fun st => deref (params st)) in
        let* mt := gets model_thread in
        let* mt := lift (deref mt) in
        let* t := read (fun st => get_thread_obj st mt) in
        let* act := gets (fun st => fresh (dom (actions st))) in
        modify (fun st => set_actions
          (<[act := new_ModelAction ATOMIC_UNINIT memory_order_relaxed
                      (get_location c) uninitvalue (get_id t)]> (actions st)) st) ;;
        update_action curr (set_uninit_action (Some act)) ;;
        ret act
    end in
  update_action act (create_cv None) ;;
  ret act.

Definition push_front_at (vec : list (list act_ptr)) (i : Z) (act : act_ptr)
    : result (list (list act_ptr)) :=
  let? l := vget vec i in
  vset vec i (act :: l).

Definition push_back_at (vec : list (list act_ptr)) (i : Z) (act : act_ptr)
    : result (list (list act_ptr)) :=
  let? l := vget vec i in
  vset vec i (l ++ [act]).

Definition add_uninit_action_to_lists (act : act_ptr) : M unit :=
  let* a := read (fun st => get_action st act) in
  let tid := id_to_int (get_tid a) in
  let* lst := get_safe_ptr_action obj_map set_obj_map (get_location a) in
  let* uninit :=
    if bool_decide (lst = []) && is_atomic_var a then
      let* uninit := get_uninitialized_action act in
      let* u := read (fun st => get_action st uninit) in
      let uninit_id := id_to_int (get_tid u) in
      modify (fun st => set_obj_map (<[get_location a := uninit :: lst]> (obj_map st)) st) ;;
      let* vec := get_safe_ptr_vect_action obj_wr_thrd_map set_obj_wr_thrd_map
                    (get_location a) in
      let vec := if to_int (vsize vec) <=? uninit_id
                 then vresize (uninit_id + 1) [] vec else vec in
      let* vec := lift (push_front_at vec uninit_id uninit) in
      modify (fun st => set_obj_wr_thrd_map
                          (<[get_location a := vec]> (obj_wr_thrd_map st)) st) ;;
      ret (Some (uninit, uninit_id))
    else ret None in
  (* Update action trace, a total order of all actions *)
  match uninit with
  | Some (u, _) => modify (fun st => set_action_trace (u :: action_trace st) st)
  | None => ret tt
  end ;;
  (* Update obj_thrd_map, a per location, per thread, order of actions *)
  let* vec := get_safe_ptr_vect_action obj_thrd_map set_obj_thrd_map (get_location a) in
  let* vec := gets (fun st => grow_for st tid [] vec) in
  let* vec := match uninit with
              | Some (u, uninit_id) => lift (push_front_at vec uninit_id u)
              | None => ret vec
              end in
  modify (fun st => set_obj_thrd_map (<[get_location a := vec]> (obj_thrd_map st)) st) ;;
  (* Update thrd_last_action, the last action taken by each thread *)
  modify (fun st =>
    if to_int (vsize (thrd_last_action st)) <=? tid
    then set_thrd_last_action (vresize (get_num_threads st) None (thrd_last_action st)) st
    else st) ;;
  match uninit with
  | Some (u, uninit_id) =>
      let* v := read (fun st => vset (thrd_last_action st) uninit_id (Some u)) in
      modify (set_thrd_last_action v)
  | None => ret tt
  end.

(** The update of [obj_map] and [obj_thrd_map] for one location. *)
Definition index_at (location : loc) (act : act_ptr) : M unit :=
  let* lst := get_safe_ptr_action obj_map set_obj_map location in
  modify (fun st => set_obj_map (<[location := lst ++ [act]]> (obj_map st)) st).

Definition index_thrd_at (location : loc) (tid : Z) (act : act_ptr) : M unit :=
  let* vec := get_safe_ptr_vect_action obj_thrd_map set_obj_thrd_map location in
  let* vec := gets (fun st => grow_for st tid [] vec) in
  let* vec := lift (push_back_at vec tid act) in
  modify (fun st => set_obj_thrd_map (<[location := vec]> (obj_thrd_map st)) st).

Definition add_action_to_lists (act : act_ptr) : M unit :=
  let* a := read (fun st => get_action st act) in
  let tid := id_to_int (get_tid a) in
  index_at (get_location a) act ;;
  (* Update action trace, a total order of all actions *)
  modify (fun st => set_action_trace (action_trace st ++ [act]) st) ;;
  (* Update obj_thrd_map, a per location, per thread, order of actions *)
  index_thrd_at (get_location a) tid act ;;
  (* Update thrd_last_action, the last action taken by each thread *)
  modify (fun st =>
    if to_int (vsize (thrd_last_action st)) <=? tid
    then set_thrd_last_action (vresize (get_num_threads st) None (thrd_last_action st)) st
    else st) ;;
  let* v := read (fun st => vset (thrd_last_action st) tid (Some act)) in
  modify (set_thrd_last_action v) ;;
  (* Update thrd_last_fence_release, the last release fence taken by each thread *)
  (if is_fence a && is_release a then
     modify (fun st =>
       if to_int (vsize (thrd_last_fence_release st)) <=? tid
       then set_thrd_last_fence_release
              (vresize (get_num_threads st) None (thrd_last_fence_release st)) st
       else st) ;;
     let* v := read (fun st => vset (thrd_last_fence_release st) tid (Some act)) in
     modify (set_thrd_last_fence_release v)
   else ret tt) ;;
  if is_wait a then
    let mutex_loc := get_value a in
    index_at mutex_loc act ;;
    index_thrd_at mutex_loc tid act
  else ret tt.

(** The walk of [build_may_read_from] over the writes of one thread, most
    recent first. *)
Definition may_read_from_thread (st : ModelExecution) (curr : act_ptr)
    (c : ModelAction) (last_sc_write : option act_ptr)
    (lst : list act_ptr) (rf_set : list act_ptr) : result (list act_ptr) :=
  let? r := for_each (R := Empty_set) (fun act rf_set =>
    if decide (act = curr) then Ok (Continue rf_set)
    else
      let? a := get_action st act in
      (* Don't consider more than one seq_cst write if we are a seq_cst read. *)
      let? before_last_sc :=
        if is_seqcst c && negb (is_seqcst a) then
          match last_sc_write with
          | Some l => let? la := get_action st l in happens_before a la
          | None => Ok false
          end
        else Ok false in
      let allow_read :=
        negb (is_seqcst c && (is_seqcst a || before_last_sc)
              && bool_decide (Some act <> last_sc_write)) in
      (* Need to check whether we will have two RMW reading from the same value *)
      let? allow_read :=
        if is_rmwr c then
          (* It is okay if we have a failing CAS *)
          let? same := if negb (is_rmwrcas c) then Ok true
                       else valequals (get_value c) (get_value a) (getSize c) in
          if same : bool then
            (* Need to make sure we aren't the second RMW *)
            match getNode_noCreate (mo_graph st) (Some act) with
            | Some node =>
                if bool_decide (getRMW (mo_graph st) node <> None)
                then Ok false     (* we are the second RMW *)
                else Ok allow_read
            | None => Ok allow_read
            end
          else Ok allow_read
        else Ok allow_read in
      (* Only add feasible reads *)
      let rf_set := if allow_read : bool then rf_set ++ [act] else rf_set in
      (* Include at most one act per-thread that "happens before" curr *)
      let? hb := happens_before a c in
      if hb : bool then Ok (Break rf_set) else Ok (Continue rf_set))
    (rev lst) rf_set in
  Ok (finished r).

Definition build_may_read_from (st : ModelExecution) (curr : act_ptr)
    : result (list act_ptr) :=
  let? c := get_action st curr in
  let? _ := ASSERT (is_read c) in
  let? last_sc_write :=
    if is_seqcst c then get_last_seq_cst_write st curr else Ok None in
  let? thrd_lists := deref (obj_wr_thrd_map st !! get_location c) in
  let? r := for_each (R := Empty_set) (fun i rf_set =>
    let? lst := vget thrd_lists i in
    let? rf_set := may_read_from_thread st curr c last_sc_write lst rf_set in
    Ok (Continue rf_set)) (upto (vsize thrd_lists)) [] in
  Ok (finished r).

Definition check_action_enabled (curr : act_ptr) : M bool :=
  let* c := read (fun st => get_action st curr) in
  if is_lock c then
    let* state := read (fun st => get_mutex_state st (get_mutex c)) in
    if bool_decide (locked state <> None) then ret false else ret true
  else if is_thread_join c then
    let* blocking := lift (deref (get_thread_operand c)) in
    let* b := read (fun st => get_thread_obj st blocking) in
    if negb (is_complete b) then ret false else ret true
  else if is_sleep c then
    let* sleep := (fun st =>
      let '(b, fz) := shouldSleep (view st) curr (fuzzer st) in
      Ok (b, set_fuzzer fz st)) in
    if negb sleep then ret false else ret true
  else ret true.

Definition check_current_action (curr : act_ptr) : M act_ptr :=
  let* c := read (fun st => get_action st curr) in
  let second_part_of_rmw := is_rmwc c || is_rmw c in
  let* (newly_explored, curr) := initialize_curr_action curr in
  wake_up_sleeping_actions curr ;;
  (* Add uninitialized actions to lists *)
  (if negb second_part_of_rmw then add_uninit_action_to_lists curr else ret tt) ;;
  let* c := read (fun st => get_action st curr) in
  (* Build may_read_from set for newly-created actions *)
  let* rf_set :=
    if newly_explored && is_read c
    then let* s := read (fun st => build_may_read_from st curr) in ret (Some s)
    else ret None in
  (if is_read c && negb second_part_of_rmw then
     let* rf_set := lift (deref rf_set) in
     process_read curr rf_set ;;
     ret tt
   else lift (ASSERT (bool_decide (rf_set = None)))) ;;
  (* Add the action to lists *)
  (if negb second_part_of_rmw then add_action_to_lists curr else ret tt) ;;
  let* c := read (fun st => get_action st curr) in
  (if is_write c then add_write_to_lists curr else ret tt) ;;
  process_thread_action curr ;;
  let* c := read (fun st => get_action st curr) in
  (if is_write c then process_write curr else ret tt) ;;
  let* c := read (fun st => get_action st curr) in
  (if is_fence c then process_fence curr ;; ret tt else ret tt) ;;
  let* c := read (fun st => get_action st curr) in
  (if is_mutex_op c then process_mutex curr ;; ret tt else ret tt) ;;
  ret curr.

Definition paused_by_fuzzer (st : ModelExecution) (act : act_ptr) : result bool :=
  let? a := get_action st act in
  let? _ := ASSERT (is_read a) in
  (* Actions paused by fuzzer have their sequence number reset to 0 *)
  Ok (get_seq_number a =? 0).

Definition action_select_next_thread (st : ModelExecution) (curr : act_ptr)
    : result (option thr_ptr) :=
  let? c := get_action st curr in
  (* Do not split atomic RMW *)
  let? keep := if is_rmwr c
               then let? paused := paused_by_fuzzer st curr in Ok (negb paused)
               else Ok false in
  if keep : bool then get_thread_of st curr
  (* Follow CREATE with the created thread *)
  else if bool_decide (get_type c = THREAD_CREATE) then Ok (get_thread_operand c)
  else if bool_decide (get_type c = PTHREAD_CREATE) then Ok (get_thread_operand c)
  else Ok None.

Definition take_step (curr : act_ptr) : M (option thr_ptr) :=
  let* curr_thrd := read (fun st => get_thread_of st curr) in
  let* p := lift (deref curr_thrd) in
  let* t := read (fun st => get_thread_obj st p) in
  lift (ASSERT (bool_decide (get_state t = THREAD_READY))) ;;
  let* enabled := check_action_enabled curr in
  lift (ASSERT enabled) ;;
  let* curr := check_current_action curr in
  let* t := read (fun st => get_thread_obj st p) in
  (if bool_decide (get_state t = THREAD_BLOCKED) || is_complete t
   then modify (fun st => set_scheduler (sched_remove_thread p (scheduler st)) st)
   else ret tt) ;;
  read (fun st => action_select_next_thread st curr).

End Engine.

(** ** A scheduler and a fuzzer for closed examples *)

(** A small scheduler: the Thread with id [k] is the object at pointer
    [k+1]; the state is the set of enabled threads and the sleep set. *)
Record toy_sched : Type := mkToySched {
  ts_enabled : list thr_ptr;
  ts_sleep_set : list thr_ptr
}.

Definition ts_enable (t : thr_ptr) (s : toy_sched) : toy_sched :=
  mkToySched (t :: ts_enabled s) (ts_sleep_set s).
Definition ts_disable (t : thr_ptr) (s : toy_sched) : toy_sched :=
  mkToySched (filter (fun u => u <> t) (ts_enabled s)) (ts_sleep_set s).

#[global] Instance toy_scheduler : Scheduler toy_sched := {
  sched_add_thread := ts_enable;
  sched_remove_thread := ts_disable;
  sched_sleep := ts_disable;
  sched_add_sleep t s := mkToySched (ts_enabled s) (t :: ts_sleep_set s);
  sched_wake := ts_enable;
  sched_remove_sleep t s :=
    mkToySched (ts_enabled s) (filter (fun u => u <> t) (ts_sleep_set s));
  sched_is_enabled tid s :=
    (0 <=? tid) && bool_decide (Z.to_pos (tid + 1) ∈ ts_enabled s);
  sched_is_sleep_set t s := bool_decide (t ∈ ts_sleep_set s);
  sched_all_threads_sleeping s := bool_decide (ts_enabled s ⊆ ts_sleep_set s)
}.

(** A scripted fuzzer: [selectWrite] answers with the next index of the
    script, and with -1 when the script is over; [selectNotify] takes the
    thread of the first waiter; a thread always waits and sleeps. *)
Definition script_selectNotify (v : engine_view) (waiters : list act_ptr)
    : option thr_ptr :=
  w ← head waiters;
  a ← view_actions v !! w;
  mjoin (view_thread_map v !! Z.to_nat (get_tid a)).

#[global] Instance script_fuzzer : Fuzzer (list Z) := {
  selectWrite _ _ _ script :=
    match script with
    | [] => (-1, [])
    | index :: script' => (index, script')
    end;
  selectNotify v waiters script := (script_selectNotify v waiters, waiters, script);
  shouldSleep _ _ script := (true, script);
  shouldWake _ _ script := (false, script);
  shouldWait _ _ script := (true, script)
}.

(** A fuzzer with no state of its own that takes the first waiter out of
    the list it is handed and answers with its thread; it never finds a
    write to read from. *)
#[global] Instance erasing_fuzzer : Fuzzer unit := {
  selectWrite _ _ _ u := (-1, u);
  selectNotify v waiters u := (script_selectNotify v waiters, tail waiters, u);
  shouldSleep _ _ u := (true, u);
  shouldWake _ _ u := (false, u);
  shouldWait _ _ u := (true, u)
}.

(** The engine [st] run with another fuzzer. *)
Definition with_fuzzer {Sched F G : Type} (g : G) (st : @ModelExecution Sched F)
    : @ModelExecution Sched G :=
  mkModelExecution (scheduler st) g (params st) (actions st) (threads st) (mutexes st) (memory st) (shadow st) (action_trace st) (thread_map st) (pthread_map st) (pthread_counter st) (obj_map st) (condvar_waiters_map st) (obj_thrd_map st) (obj_wr_thrd_map st) (obj_last_sc_map st) (thrd_last_action st) (thrd_last_fence_release st) (priv st) (mo_graph st) (model_thread st) (isfinished st).

Abbreviation toy_execution := (@ModelExecution toy_sched (list Z)).

Definition toy_FENCE_LOCATION : loc := 7.
Definition toy_VALUE_NONE : Z := 3735928559.
Definition never_synchronizes (_ _ : ModelAction) : bool := false.

(** ** Notions used to state the properties *)

Section Notions.
Context {Sched Fuzz : Type}.
Implicit Types st : @ModelExecution Sched Fuzz.

(** The writes [build_may_read_from] walks in the list of one thread, given
    most recent first: every action but [curr], up to and including the
    first one that happens before [curr]. *)
Fixpoint walked_thread st (curr : act_ptr) (c : ModelAction) (l : list act_ptr)
    : list act_ptr :=
  match l with
  | [] => []
  | act :: l' =>
      if decide (act = curr) then walked_thread st curr c l'
      else match actions st !! act with
           | Some a =>
               act :: match happens_before a c with
                      | Ok true => []
                      | _ => walked_thread st curr c l'
                      end
           | None => []
           end
  end.

Definition walked_writes st (curr : act_ptr) (c : ModelAction) : list act_ptr :=
  concat (map (fun lst => walked_thread st curr c (rev lst))
              (default [] (obj_wr_thrd_map st !! get_location c))).

(** The write [act] happens before the last seq-cst write of the location
    of [c]. *)
Definition before_last_sc_write st (c a : ModelAction) : Prop :=
  exists l la, obj_last_sc_map st !! get_location c = Some l /\
               actions st !! l = Some la /\ happens_before a la = Ok true.

(** The seq-cst rule of [build_may_read_from], as the code has it: a seq-cst
    read sees the last seq-cst write of its location, and otherwise only
    writes that are not seq-cst and do not happen before that write. *)
Definition seq_cst_rule_admits st (c : ModelAction) (act : act_ptr)
    (a : ModelAction) : Prop :=
  is_seqcst c = false \/
  obj_last_sc_map st !! get_location c = Some act \/
  (is_seqcst a = false /\ ~ before_last_sc_write st c a).

(** The seq-cst rule as the specification words it. *)
Definition seq_cst_rule_of_spec st (c : ModelAction) (act : act_ptr)
    (a : ModelAction) : Prop :=
  is_seqcst c = false \/
  is_seqcst a = true \/
  before_last_sc_write st c a \/
  obj_last_sc_map st !! get_location c = Some act.

(** [u] is the last action of the list [l] that satisfies [p]. *)
Definition last_match st (p : ModelAction -> bool) (l : list act_ptr)
    (u : act_ptr) : Prop :=
  exists l1 l2 ua,
    l = l1 ++ u :: l2 /\ actions st !! u = Some ua /\ p ua = true /\
    forall y, y ∈ l2 -> exists ya, actions st !! y = Some ya /\ p ya = false.

(** No action of the list [l] satisfies [p]. *)
Definition no_match st (p : ModelAction -> bool) (l : list act_ptr) : Prop :=
  forall y, y ∈ l -> exists ya, actions st !! y = Some ya /\ p ya = false.

(** The RMW clause: [c] is an RMW-read, not a CAS that fails on the value of
    [act], and an RMW already reads from [act]. *)
Definition second_rmw st (c : ModelAction) (act : act_ptr) (a : ModelAction)
    : Prop :=
  is_rmwr c = true /\
  (is_rmwrcas c = false \/
   valequals (get_value c) (get_value a) (getSize c) = Ok true) /\
  Some act ∈ cg_nodes (mo_graph st) /\
  cg_rmw (mo_graph st) !! Some act <> None.

End Notions.

Section Schedules.
Context {Sched Fuzz : Type}.
Variable FENCE_LOCATION : loc.
Implicit Types st : @ModelExecution Sched Fuzz.

(** A step of the engine that keeps the edges of the MO graph and the map
    of last seq-cst writes. *)
Definition keeps_mo st st1 : Prop :=
  cg_edges (mo_graph st) ⊆ cg_edges (mo_graph st1) /\
  obj_last_sc_map st1 = obj_last_sc_map st.

(** [writes_processed st ws st']: from [st] the engine reaches [st'] and on
    the way [w_modification_order] processes the writes [ws], in this order,
    each listed with the action it is when processed; between them the engine
    takes steps that keep the MO graph's edges and [obj_last_sc_map]. *)
Inductive writes_processed : ModelExecution -> list (act_ptr * ModelAction) ->
                             ModelExecution -> Prop :=
  | processed_none st : writes_processed st [] st
  | processed_write st w c st1 ws st2 :
      actions st !! w = Some c ->
      w_modification_order FENCE_LOCATION w st = Ok (tt, st1) ->
      writes_processed st1 ws st2 ->
      writes_processed st ((w, c) :: ws) st2
  | processed_other st st1 ws st2 :
      keeps_mo st st1 ->
      writes_processed st1 ws st2 ->
      writes_processed st ws st2.

(** [only_rfcv st st']: the engine is the same in [st'] as in [st] but for
    the cached release clock vectors ([rfcv]) of its actions. *)
Definition only_rfcv st st' : Prop :=
  st' = set_actions (actions st') st /\
  forall p, set_rfcv None <$> actions st' !! p = set_rfcv None <$> actions st !! p.

(** An action without its clock vectors and its rf link. *)
Definition erase_links (a : ModelAction) : ModelAction :=
  set_rfcv None (set_cv None (set_read_from None a)).

(** [links_only st st']: the engine is the same in [st'] as in [st] but for
    the clock vectors and the rf links of its actions. *)
Definition links_only st st' : Prop :=
  st' = set_actions (actions st') st /\
  forall p, erase_links <$> actions st' !! p = erase_links <$> actions st !! p.

(** A method that leaves the assert flag as it finds it. *)
Definition keeps_asserted {A} (m : @M Sched Fuzz A) : Prop :=
  forall st (a : A) st', m st = Ok (a, st') ->
                         asserted (priv st') = asserted (priv st).

(** A method that leaves the action trace as it finds it. *)
Definition keeps_trace {A} (m : @M Sched Fuzz A) : Prop :=
  forall st (a : A) st', m st = Ok (a, st') -> action_trace st' = action_trace st.

End Schedules.

(** ** Closed examples *)

Definition toy_thread (id : thread_id_t) (model : bool) : Thread :=
  mkThread id THREAD_READY None None None 0 model false.

(** The model thread and three user threads; nothing has run yet. *)
Definition toy_init : toy_execution :=
  mkModelExecution
    (mkToySched [2; 3; 4]%positive [])
    []
    (Some 0)
    ∅
    (list_to_map [(1%positive, toy_thread 0 true); (2%positive, toy_thread 1 false);
                  (3%positive, toy_thread 2 false); (4%positive, toy_thread 3 false)])
    ∅ ∅ ∅
    []
    [Some 1%positive; Some 2%positive; Some 3%positive; Some 4%positive]
    [] 1
    ∅ ∅ ∅ ∅ ∅
    [None] []
    (mkPriv 4 0 [] false)
    empty_CycleGraph
    (Some 1%positive)
    false.

(** An action as the instrumentation hands it over, and as it is once
    initialized with a sequence number and a clock vector. *)
Definition toy_action (ty : action_type) (mo : memory_order) (l : loc) (v : Z)
    (t : thread_id_t) : ModelAction :=
  mkModelAction ty mo l v 8 t 0 None None None None None None None.

Definition toy_done (ty : action_type) (mo : memory_order) (l : loc) (v : Z)
    (t : thread_id_t) (s : modelclock_t) (cv : ClockVector) : ModelAction :=
  mkModelAction ty mo l v 8 t s (Some cv) None None None None None None.

(** A relaxed read by thread 1 of a location nothing has touched; the
    fuzzer's script is empty, so that [selectWrite] returns -1. *)
Definition ex_infeasible : toy_execution :=
  set_actions
    (list_to_map [(10%positive,
                   toy_action ATOMIC_READ memory_order_relaxed 100 0 1)])
    toy_init.

(** A seq-cst read [10] by thread 3 at a location with a relaxed write [13]
    and a seq-cst write [12] of thread 2 and a seq-cst write [11] of thread
    1; the last seq-cst write is [12]. *)
Definition ex_read_10 : ModelAction :=
  toy_done ATOMIC_READ memory_order_seq_cst 100 0 3 4 [0; 0; 0; 4].
Definition ex_write_11 : ModelAction :=
  toy_done ATOMIC_WRITE memory_order_seq_cst 100 1 1 2 [0; 2].
Definition ex_write_12 : ModelAction :=
  toy_done ATOMIC_WRITE memory_order_seq_cst 100 2 2 3 [0; 0; 3].
Definition ex_write_13 : ModelAction :=
  toy_done ATOMIC_WRITE memory_order_relaxed 100 3 2 1 [0; 0; 1].

Definition ex_seq_cst_read : toy_execution :=
  set_obj_last_sc_map (list_to_map [(100, 12%positive)])
    (set_obj_wr_thrd_map
       (list_to_map [(100, [[]; [11%positive]; [13%positive; 12%positive]; []])])
       (set_actions
          (list_to_map
             [(10%positive, ex_read_10); (11%positive, ex_write_11);
              (12%positive, ex_write_12); (13%positive, ex_write_13)])
          toy_init)).

(** Three seq-cst writes of threads 1, 2 and 3 to one location, and the
    engine after [w_modification_order] has processed one, two and three of
    them. *)
Definition ex_sc_write (t : thread_id_t) : ModelAction :=
  toy_done ATOMIC_WRITE memory_order_seq_cst 100 t t t
           (new_ClockVector None (Some (t, t))).

Definition ex_three_writes : toy_execution :=
  set_obj_thrd_map
    (list_to_map [(100, [[]; [11%positive]; [12%positive]; [13%positive]])])
    (set_actions
       (list_to_map
          [(11%positive, ex_sc_write 1); (12%positive, ex_sc_write 2);
           (13%positive, ex_sc_write 3)])
       toy_init).

Definition after_write (w : act_ptr) (st : toy_execution) : toy_execution :=
  match w_modification_order toy_FENCE_LOCATION w st with
  | Ok (_, st') => st'
  | Err _ => st
  end.

Definition ex_one_written : toy_execution := after_write 11 ex_three_writes.
Definition ex_two_written : toy_execution := after_write 12 ex_one_written.
Definition ex_three_written : toy_execution := after_write 13 ex_two_written.

(** An acquire read [10] by thread 3, after its own relaxed write [13], with
    the release write [11] of thread 1 as candidate; the script of the fuzzer
    chooses index 0. *)
Definition ex_acquire_read : toy_execution :=
  set_fuzzer [0]
    (set_obj_thrd_map
       (list_to_map [(100, [[]; [11%positive]; []; [13%positive]])])
       (set_actions
          (list_to_map
             [(10%positive,
               toy_done ATOMIC_READ memory_order_acquire 100 0 3 4 [0; 0; 0; 4]);
              (11%positive,
               toy_done ATOMIC_WRITE memory_order_release 100 1 1 2 [0; 2]);
              (13%positive,
               toy_done ATOMIC_WRITE memory_order_relaxed 100 3 3 3 [0; 0; 0; 3])])
          toy_init)).

(** The same read when the MO graph already orders [11] before [13]: the
    candidate [11] is rejected and the second candidate [14], a write of
    thread 2, is chosen next. *)
Definition ex_rejected_read : toy_execution :=
  set_fuzzer [0; 0]
    (set_mo_graph (addEdge (Some 11%positive) (Some 13%positive) empty_CycleGraph)
       (set_obj_thrd_map
          (list_to_map [(100, [[]; [11%positive]; [14%positive]; [13%positive]])])
          (set_actions
             (list_to_map
                [(10%positive,
                  toy_done ATOMIC_READ memory_order_acquire 100 0 3 4 [0; 0; 0; 4]);
                 (11%positive,
                  toy_done ATOMIC_WRITE memory_order_release 100 1 1 2 [0; 2]);
                 (13%positive,
                  toy_done ATOMIC_WRITE memory_order_relaxed 100 3 3 3 [0; 0; 0; 3]);
                 (14%positive,
                  toy_done ATOMIC_WRITE memory_order_relaxed 100 4 2 1 [0; 0; 1])])
             toy_init))).

(** Threads 1 and 2 each wait for a lock the other holds. *)
Definition ex_deadlock : toy_execution :=
  set_priv (mkPriv 3 2 [] false)
    (set_thread_map [Some 1%positive; Some 2%positive; Some 3%positive]
       (set_threads
          (list_to_map
             [(1%positive, toy_thread 0 true);
              (2%positive, mkThread 1 THREAD_READY (Some 10%positive)
                             (Some 3%positive) None 0 false false);
              (3%positive, mkThread 2 THREAD_READY (Some 11%positive)
                             (Some 2%positive) None 0 false false)])
          (set_scheduler (mkToySched [] []) toy_init))).

(** A trylock [10] by thread 2 of the mutex at 300, which thread 1 has
    unlocked with [11]. *)
Definition ex_trylock_free : toy_execution :=
  set_obj_map (list_to_map [(300, [11%positive; 10%positive])])
    (set_mutexes (list_to_map [(300, mkMutexState None)])
       (set_actions
          (list_to_map
             [(10%positive,
               toy_done ATOMIC_TRYLOCK memory_order_seq_cst 300 0 2 5 [0; 0; 5]);
              (11%positive,
               toy_done ATOMIC_UNLOCK memory_order_seq_cst 300 0 1 3 [0; 3])])
          toy_init)).

(** The same trylock when thread 1 holds the mutex. *)
Definition ex_trylock_taken : toy_execution :=
  set_mutexes (list_to_map [(300, mkMutexState (Some 2%positive))]) ex_trylock_free.

(** A notify-one [10] by thread 1 on the condition variable at 200, on which
    thread 2 waits with [11] and thread 3 with [12]. *)
Definition ex_notify : toy_execution :=
  set_condvar_waiters_map (list_to_map [(200, [11%positive; 12%positive])])
    (set_actions
       (list_to_map
          [(10%positive,
            toy_done ATOMIC_NOTIFY_ONE memory_order_seq_cst 200 0 1 5 [0; 5]);
           (11%positive,
            toy_done ATOMIC_WAIT memory_order_seq_cst 200 300 2 3 [0; 0; 3]);
           (12%positive,
            toy_done ATOMIC_WAIT memory_order_seq_cst 200 300 3 4 [0; 0; 0; 4])])
       toy_init).

(** The same notify-one when no thread has ever waited on the condition
    variable. *)
Definition ex_notify_none : toy_execution := set_condvar_waiters_map ∅ ex_notify.

(** Four actions with sequence numbers 1, 2, 2 and 3, and a fifth one with
    sequence number 2 to insert; [6] has sequence number 9. *)
Definition ex_lists : toy_execution :=
  set_actions
    (list_to_map
       [(1%positive, toy_done ATOMIC_WRITE memory_order_relaxed 100 0 1 1 [0; 1]);
        (2%positive, toy_done ATOMIC_WRITE memory_order_relaxed 100 0 1 2 [0; 2]);
        (3%positive, toy_done ATOMIC_READ memory_order_relaxed 100 0 1 2 [0; 2]);
        (4%positive, toy_done ATOMIC_WRITE memory_order_relaxed 100 0 1 3 [0; 3]);
        (5%positive, toy_done NONATOMIC_WRITE memory_order_relaxed 100 0 1 2 [0; 2]);
        (6%positive, toy_done NONATOMIC_WRITE memory_order_relaxed 100 0 1 9 [0; 9])])
    toy_init.

(** * Properties *)

(** Two integers agree on their low [n] bits. *)
Lemma agree_low_mod (n a b : Z) :
  0 <= n ->
  (forall i, 0 <= i < n -> Z.testbit a i = Z.testbit b i) <-> a mod 2 ^ n = b mod 2 ^ n.
Proof.
  intros Hn. split.
  - intros Hbits. apply Z.bits_inj_iff'. intros i Hi.
    rewrite !Z.testbit_mod_pow2 by lia.
    destruct (Z.ltb_spec i n) as [Hlt | Hge]; simpl; [apply Hbits; lia | reflexivity].
  - intros Heq i Hi.
    rewrite <- (Z.mod_pow2_bits_low a n i), <- (Z.mod_pow2_bits_low b n i) by lia.
    now rewrite Heq.
Qed.

Lemma mod_mod_pow2 (a n m : Z) :
  0 <= n <= m -> (a mod 2 ^ m) mod 2 ^ n = a mod 2 ^ n.
Proof.
  intros Hnm. apply Z.mod_mod_divide.
  exists (2 ^ (m - n)). rewrite <- Z.pow_add_r by lia. f_equal. lia.
Qed.

(** C7. [valequals] returns true exactly when the two values agree on their
    low [8 * size] bits, for sizes 1, 2, 4 and 8; for any other size it fails
    the assertion and returns no comparison. *)
Theorem valequals_exact (val1 val2 size : Z) :
  (In size [1; 2; 4; 8] ->
   exists b, valequals val1 val2 size = Ok b /\
     (b = true <->
      forall i, 0 <= i < 8 * size -> Z.testbit val1 i = Z.testbit val2 i)) /\
  (~ In size [1; 2; 4; 8] ->
   valequals val1 val2 size = Err AssertionFailure).
Proof.
  split.
  - intros Hsize. unfold valequals, uint8_t, uint16_t, uint32_t, uint64_t.
    simpl in Hsize.
    destruct Hsize as [<- | [<- | [<- | [<- | []]]]]; simpl;
      eexists; (split; [reflexivity |]);
      rewrite ?mod_mod_pow2 by lia; rewrite Z.eqb_eq;
      symmetry; apply agree_low_mod; lia.
  - intros Hsize. unfold valequals. simpl in Hsize.
    destruct (Z.eqb_spec size 1); [lia |].
    destruct (Z.eqb_spec size 2); [lia |].
    destruct (Z.eqb_spec size 4); [lia |].
    destruct (Z.eqb_spec size 8); [lia |].
    reflexivity.
Qed.

Lemma valequals_exact_witness :
  In 2 [1; 2; 4; 8] /\ ~ In 3 [1; 2; 4; 8] /\
  valequals 65537 1 2 = Ok true /\
  valequals 65537 1 4 = Ok false /\
  valequals 1 1 3 = Err AssertionFailure.
Proof.
  split; [simpl; tauto |].
  split; [simpl; lia |].
  split; [reflexivity |].
  split; [reflexivity |].
  apply (valequals_exact 1 1 3). simpl. lia.
Defined.

Section EngineProofs.
Context {Sched Fuzz : Type} `{Scheduler Sched} `{Fuzzer Fuzz}.
Implicit Types st : @ModelExecution Sched Fuzz.

Lemma to_int_small (n : Z) : 0 <= n < 2 ^ 31 -> to_int n = n.
Proof.
  intros Hn. unfold to_int. change (2 ^ 31) with 2147483648 in *.
  change (2 ^ 32) with 4294967296. rewrite Z.mod_small; lia.
Qed.

Lemma vget_lookup {A} (v : list A) (i : Z) (a : A) :
  vget v i = Ok a <-> 0 <= i /\ v !! Z.to_nat i = Some a.
Proof.
  unfold vget. destruct (Z.ltb_spec i 0) as [Hneg | Hpos].
  - split; [discriminate | lia].
  - destruct (v !! Z.to_nat i) as [a' |]; split.
    + intros [= ->]. auto.
    + intros [_ [= ->]]. reflexivity.
    + discriminate.
    + intros [_ [=]].
Qed.

Lemma vget_in_range {A} (v : list A) (i : Z) :
  0 <= i < vsize v -> exists a, vget v i = Ok a.
Proof.
  intros Hi. unfold vsize in Hi.
  destruct (lookup_lt_is_Some_2 v (Z.to_nat i)) as [a Ha]; [lia |].
  exists a. apply vget_lookup. split; [lia | exact Ha].
Qed.



(** *** The engine's monad *)

Lemma rbind_ok {A B} (r : result A) (k : A -> result B) (b : B) :
  rbind r k = Ok b <-> exists a, r = Ok a /\ k a = Ok b.
Proof.
  destruct r as [a | e]; simpl; split.
  - eauto.
  - intros (a' & [= <-] & Hk). exact Hk.
  - discriminate.
  - intros (a' & [=] & _).
Qed.

Lemma bind_ok {A B} (m : M A) (k : A -> M B) st (b : B) st' :
  bind m k st = Ok (b, st') <->
  exists a st1, m st = Ok (a, st1) /\ k a st1 = Ok (b, st').
Proof.
  unfold bind. destruct (m st) as [[a st1] | e]; split.
  - eauto.
  - intros (a' & st1' & [= <- <-] & Hk). exact Hk.
  - discriminate.
  - intros (a' & st1' & [=] & _).
Qed.

Lemma read_ok {A} (f : ModelExecution -> result A) st (a : A) st' :
  read f st = Ok (a, st') <-> f st = Ok a /\ st' = st.
Proof.
  unfold read. destruct (f st) as [a' | e]; split.
  - intros [= <- <-]. auto.
  - intros [[= <-] ->]. reflexivity.
  - discriminate.
  - intros [[=] _].
Qed.

Lemma lift_ok {A} (r : result A) st (a : A) st' :
  lift r st = Ok (a, st') <-> r = Ok a /\ st' = st.
Proof. unfold lift. apply read_ok. Qed.

Lemma gets_ok {A} (f : ModelExecution -> A) st (a : A) st' :
  gets f st = Ok (a, st') <-> a = f st /\ st' = st.
Proof. unfold gets. split; [intros [= <- <-]; auto | intros [-> ->]; reflexivity]. Qed.

Lemma modify_ok (f : ModelExecution -> ModelExecution) st (u : unit) st' :
  modify f st = Ok (u, st') <-> st' = f st.
Proof.
  unfold modify. destruct u. split; [intros [= <-]; auto | intros ->; reflexivity].
Qed.

Lemma ret_ok {A} (x : A) st (a : A) st' :
  ret x st = Ok (a, st') <-> a = x /\ st' = st.
Proof. unfold ret. split; [intros [= <- <-]; auto | intros [-> ->]; reflexivity]. Qed.

(** A loop without [return] keeps what each of its turns keeps. *)
Lemma for_each_invariant {X A} (body : X -> A -> result (loop_ctl A Empty_set))
    (P : A -> Prop) (xs : list X) (acc : A) (r : A + Empty_set) :
  P acc ->
  (forall x a ctl, P a -> body x a = Ok ctl ->
     match ctl with
     | Continue a' | Break a' => P a'
     | Return e => True
     end) ->
  for_each body xs acc = Ok r -> P (finished r).
Proof.
  intros Hacc Hbody. revert acc Hacc.
  induction xs as [| x xs IH]; intros acc Hacc Hloop; simpl in Hloop.
  - injection Hloop as <-. exact Hacc.
  - apply rbind_ok in Hloop as (ctl & Hturn & Hrest).
    pose proof (Hbody x acc ctl Hacc Hturn) as Hctl.
    destruct ctl as [a' | a' | []].
    + eapply IH; eassumption.
    + injection Hrest as <-. exact Hctl.
Qed.


(** *** Deadlock detection *)

(** What the loop of [is_deadlocked] computes over the thread ids [l]. *)
Lemma is_deadlocked_loop st (l : list Z) (blocking : bool) :
  (forall i, i ∈ l -> exists p t, get_thread st i = Some p /\ threads st !! p = Some t) ->
  exists r,
    for_each (fun i (blocking_threads : bool) =>
      let tid := int_to_id i in
      if is_enabled st tid then Ok (Return false)
      else
        let? t := deref (get_thread st tid) in
        let? t := get_thread_obj st t in
        if negb (is_model_thread t) && bool_decide (is_Some (get_pending t))
        then Ok (Continue true)
        else Ok (Continue blocking_threads)) l blocking = Ok r /\
    ((exists i, i ∈ l /\ is_enabled st i = true) -> r = inr false) /\
    ((forall i, i ∈ l -> is_enabled st i = false) ->
     exists b, r = inl b /\
       (b = true <-> blocking = true \/
          exists i p t, i ∈ l /\ get_thread st i = Some p /\ threads st !! p = Some t /\
                        is_model_thread t = false /\ get_pending t <> None)).
Proof.
  revert blocking. induction l as [| i l IH]; intros blocking Hvalid.
  - eexists. split; [reflexivity |]. split.
    + intros (i & Hi & _). inversion Hi.
    + intros _. exists blocking. split; [reflexivity |]. split; [auto |].
      intros [Hb | (i & p & t & Hi & _)]; [exact Hb | inversion Hi].
  - simpl. unfold int_to_id.
    destruct (is_enabled st i) eqn:Hen.
    + eexists. split; [reflexivity |]. split; [reflexivity |].
      intros Hnone. rewrite Hnone in Hen by constructor. discriminate.
    + destruct (Hvalid i) as (p & t & Hp & Ht); [constructor |].
      rewrite Hp. simpl. unfold get_thread_obj. rewrite Ht. simpl.
      set (blocking' := if negb (is_model_thread t)
                           && bool_decide (is_Some (get_pending t))
                        then true else blocking).
      destruct (IH blocking') as (r & Hr & Hsome & Hnone).
      { intros j Hj. apply Hvalid. now constructor. }
      exists r. split.
      { subst blocking'.
        destruct (negb (is_model_thread t) && bool_decide (is_Some (get_pending t)));
          exact Hr. }
      split.
      * intros (j & Hj & Hjen). apply Hsome.
        apply elem_of_cons in Hj as [-> | Hj]; [congruence | eauto].
      * intros Hall. destruct Hnone as (b & -> & Hb).
        { intros j Hj. apply Hall. now constructor. }
        exists b. split; [reflexivity |]. rewrite Hb. subst blocking'.
        destruct (is_model_thread t) eqn:Hmodel; simpl.
        -- split.
           ++ intros [Hbl | (j & q & u & Hj & Hrest)]; [auto |].
              right. exists j, q, u. split; [now constructor | exact Hrest].
           ++ intros [Hbl | (j & q & u & Hj & Hq & Hu & Hm & Hpend)]; [auto |].
              apply elem_of_cons in Hj as [-> | Hj].
              ** congruence.
              ** right. exists j, q, u. auto.
        -- destruct (get_pending t) as [pend |] eqn:Hpend.
           ++ rewrite bool_decide_eq_true_2 by eauto.
              split; [| auto]. intros _. right. exists i, p, t.
              repeat split; [constructor | auto .. | congruence].
           ++ rewrite bool_decide_eq_false_2 by (intros [? [=]]).
              split.
              ** intros [Hbl | (j & q & u & Hj & Hrest)]; [auto |].
                 right. exists j, q, u. split; [now constructor | exact Hrest].
              ** intros [Hbl | (j & q & u & Hj & Hq & Hu & Hm & Hpe)]; [auto |].
                 apply elem_of_cons in Hj as [-> | Hj].
                 --- congruence.
                 --- right. exists j, q, u. auto.
Qed.

Lemma elem_of_upto (n i : Z) : i ∈ upto n <-> 0 <= i < n.
Proof.
  unfold upto. rewrite list_elem_of_fmap. split.
  - intros (k & -> & Hk). apply list_elem_of_In, in_seq in Hk. lia.
  - intros Hi. exists (Z.to_nat i). split; [lia |].
    apply list_elem_of_In, in_seq. lia.
Qed.

Lemma classic_enabled st (n : Z) :
  (exists i, 0 <= i < n /\ is_enabled st i = true) \/
  (forall i, 0 <= i < n -> is_enabled st i = false).
Proof.
  destruct (existsb (is_enabled st) (upto n)) eqn:Hex.
  - left. apply existsb_exists in Hex as (i & Hi & Hen).
    exists i. split; [apply elem_of_upto, list_elem_of_In, Hi | exact Hen].
  - right. intros i Hi. destruct (is_enabled st i) eqn:Hen; [| reflexivity].
    rewrite <- Hex. symmetry. apply existsb_exists. exists i.
    split; [apply list_elem_of_In, elem_of_upto, Hi | exact Hen].
Qed.

(** C5. With every thread id below [get_num_threads] naming a Thread,
    [is_deadlocked] returns true exactly when no thread is enabled and some
    thread that is not the model thread has a pending action; it returns
    false as soon as one thread is enabled. *)
Theorem is_deadlocked_exact st :
  (forall i, 0 <= i < get_num_threads st ->
     exists p t, get_thread st i = Some p /\ threads st !! p = Some t) ->
  exists b, is_deadlocked st = Ok b /\
    (b = true <->
       (forall i, 0 <= i < get_num_threads st -> is_enabled st i = false) /\
       (exists i p t, 0 <= i < get_num_threads st /\
          get_thread st i = Some p /\ threads st !! p = Some t /\
          is_model_thread t = false /\ get_pending t <> None)) /\
    ((exists i, 0 <= i < get_num_threads st /\ is_enabled st i = true) -> b = false).
Proof.
  intros Hvalid. unfold is_deadlocked.
  destruct (is_deadlocked_loop st (upto (get_num_threads st)) false)
    as (r & Hr & Hsome & Hnone).
  { intros i Hi. apply Hvalid, elem_of_upto, Hi. }
  cbv zeta in Hr. rewrite Hr. simpl.
  destruct (classic_enabled st (get_num_threads st)) as [Hen | Hall].
  - rewrite Hsome by (destruct Hen as (i & Hi & Hien); exists i;
                      split; [apply elem_of_upto; exact Hi | exact Hien]).
    exists false. split; [reflexivity |]. split; [| auto].
    split; [discriminate |]. intros [Hno _].
    destruct Hen as (i & Hi & Hien). rewrite Hno in Hien by exact Hi. discriminate.
  - destruct Hnone as (b & -> & Hb).
    { intros i Hi. apply Hall, elem_of_upto, Hi. }
    exists b. split; [reflexivity |]. split.
    + rewrite Hb. split.
      * intros [[=] | (i & p & t & Hi & Hrest)].
        split; [exact Hall |]. exists i, p, t.
        split; [apply elem_of_upto; exact Hi | exact Hrest].
      * intros [_ (i & p & t & Hi & Hrest)]. right. exists i, p, t.
        split; [apply elem_of_upto; exact Hi | exact Hrest].
    + intros (i & Hi & Hien). rewrite Hall in Hien by exact Hi. discriminate.
Qed.

(** *** Insertion into an action list *)

Lemma insert_walk_no_match st (next_seq : modelclock_t) (act : act_ptr)
    (front back : list act_ptr) :
  (forall y, y ∈ front -> exists ya, actions st !! y = Some ya /\
                                     get_seq_number ya <> next_seq) ->
  insert_walk st next_seq act front back = Ok (rev front ++ back).
Proof.
  revert back. induction front as [| rit front IH]; intros back Hno; [reflexivity |].
  simpl. destruct (Hno rit) as (ra & Hra & Hseq); [constructor |].
  unfold get_action. rewrite Hra. simpl.
  destruct (Z.eqb_spec (get_seq_number ra) next_seq); [contradiction |].
  rewrite IH by (intros y Hy; apply Hno; now constructor).
  now rewrite <- app_assoc.
Qed.

Lemma insert_walk_match st (next_seq : modelclock_t) (act : act_ptr)
    (f1 f2 back : list act_ptr) (x : act_ptr) (xa : ModelAction) :
  (forall y, y ∈ f1 -> exists ya, actions st !! y = Some ya /\
                                  get_seq_number ya <> next_seq) ->
  actions st !! x = Some xa -> get_seq_number xa = next_seq ->
  insert_walk st next_seq act (f1 ++ x :: f2) back
  = Ok (rev (x :: f2) ++ act :: rev f1 ++ back).
Proof.
  revert back. induction f1 as [| rit f1 IH]; intros back Hno Hx Hseq.
  - simpl. unfold get_action. rewrite Hx. simpl.
    destruct (Z.eqb_spec (get_seq_number xa) next_seq); [reflexivity | contradiction].
  - simpl. destruct (Hno rit) as (ra & Hra & Hne); [constructor |].
    unfold get_action at 1. rewrite Hra. simpl.
    destruct (Z.eqb_spec (get_seq_number ra) next_seq); [contradiction |].
    rewrite IH; [| intros y Hy; apply Hno; now constructor | assumption ..].
    simpl. rewrite <- (app_assoc (rev f1) [rit] back). reflexivity.
Qed.

(** C9. [insertIntoActionList] appends to an empty list; when an element has
    the sequence number of [act] it inserts [act] right after the last such
    element, the first one its walk from the tail meets, so that actions of
    one sequence number stay in arrival order; when the list is not empty and
    no element has that sequence number the list is returned as it is. *)
Theorem insertIntoActionList_cases st (lst : list act_ptr) (act : act_ptr)
    (a : ModelAction) :
  actions st !! act = Some a ->
  (forall y, y ∈ lst -> is_Some (actions st !! y)) ->
  (lst = [] -> insertIntoActionList st lst act = Ok [act]) /\
  (forall l1 x xa l2,
     lst = l1 ++ x :: l2 ->
     actions st !! x = Some xa -> get_seq_number xa = get_seq_number a ->
     (forall y ya, y ∈ l2 -> actions st !! y = Some ya ->
                   get_seq_number ya <> get_seq_number a) ->
     insertIntoActionList st lst act = Ok (l1 ++ x :: act :: l2)) /\
  (lst <> [] ->
   (forall y ya, y ∈ lst -> actions st !! y = Some ya ->
                 get_seq_number ya <> get_seq_number a) ->
   insertIntoActionList st lst act = Ok lst).
Proof.
  intros Hact Hvalid. unfold insertIntoActionList, get_action.
  rewrite Hact. simpl. repeat split.
  - intros ->. reflexivity.
  - intros l1 x xa l2 -> Hx Hseq Hl2.
    destruct l2 as [| y l2' _] using rev_ind.
    + rewrite last_snoc. rewrite Hx. simpl.
      destruct (Z.eqb_spec (get_seq_number xa) (get_seq_number a)); [| contradiction].
      rewrite <- app_assoc. reflexivity.
    + replace (l1 ++ x :: l2' ++ [y]) with ((l1 ++ x :: l2') ++ [y])
        by (rewrite <- app_assoc; reflexivity).
      rewrite last_snoc.
      destruct (Hvalid y) as [ya Hya].
      { set_solver. }
      rewrite Hya. cbn [deref rbind].
      destruct (Z.eqb_spec (get_seq_number ya) (get_seq_number a)) as [Heq | _].
      { exfalso. apply (Hl2 y ya); [| assumption ..].
        set_solver. }
      replace (rev ((l1 ++ x :: l2') ++ [y])) with ((y :: rev l2') ++ x :: rev l1)
        by (rewrite !rev_app_distr; simpl; rewrite <- app_assoc; reflexivity).
      rewrite (insert_walk_match st _ act (y :: rev l2') (rev l1) [] x xa).
      * simpl. rewrite !rev_involutive, !app_nil_r.
        rewrite <- !app_assoc. reflexivity.
      * intros z Hz. assert (Hz' : z ∈ l2' ++ [y]).
        { apply elem_of_cons in Hz as [-> | Hz]; [set_solver |].
          apply list_elem_of_In, in_rev, list_elem_of_In in Hz. set_solver. }
        destruct (Hvalid z) as [za Hza].
        { rewrite elem_of_app, elem_of_cons. auto. }
        exists za. split; [exact Hza | eapply Hl2; eauto].
      * exact Hx.
      * exact Hseq.
  - intros Hne Hno.
    destruct lst as [| y lst' _] using rev_ind; [contradiction |].
    rewrite last_snoc.
    destruct (Hvalid y) as [ya Hya].
    { set_solver. }
    rewrite Hya. simpl.
    destruct (Z.eqb_spec (get_seq_number ya) (get_seq_number a)) as [Heq | _].
    { exfalso. apply (Hno y ya); [| assumption ..].
      set_solver. }
    rewrite insert_walk_no_match.
    + now rewrite rev_involutive, app_nil_r.
    + intros z Hz. apply list_elem_of_In, in_rev, list_elem_of_In in Hz.
      destruct (Hvalid z Hz) as [za Hza]. exists za. split; [exact Hza | eauto].
Qed.

(** *** Trylock *)

Lemma find_action_ext st1 st2 (p : ModelAction -> bool) (l : list act_ptr) :
  (forall y, y ∈ l -> p <$> actions st1 !! y = p <$> actions st2 !! y) ->
  find_action st1 p l = find_action st2 p l.
Proof.
  induction l as [| rit l IH]; intros Hext; [reflexivity |].
  simpl. unfold get_action.
  pose proof (Hext rit ltac:(constructor)) as Hrit.
  destruct (actions st1 !! rit) as [a1 |], (actions st2 !! rit) as [a2 |];
    simpl in *; try discriminate; [| reflexivity].
  injection Hrit as ->.
  destruct (p a2); [reflexivity |].
  apply IH. intros y Hy. apply Hext. now constructor.
Qed.

Lemma find_action_found st (p : ModelAction -> bool) (l : list act_ptr) (u : act_ptr) :
  find_action st p l = Ok (Some u) ->
  exists ua, actions st !! u = Some ua /\ p ua = true.
Proof.
  induction l as [| rit l IH]; simpl; [discriminate |].
  unfold get_action. destruct (actions st !! rit) as [a |] eqn:Ha; simpl; [| discriminate].
  destruct (p a) eqn:Hp.
  - intros [= <-]. eauto.
  - exact IH.
Qed.

(** [get_thread] reads the thread map only. *)
Ltac frame_get_thread st :=
  repeat match goal with
         | |- context [get_thread ?s ?t] =>
             lazymatch s with
             | st => fail
             | _ => change (get_thread s t) with (get_thread st t)
             end
         end.

(** C6. An ATOMIC_TRYLOCK returns 1 to its thread exactly when the mutex is
    free.  On a taken lock it returns 0, and neither the owner of any mutex
    nor the clock vector of any action changes.  On a free lock it returns 1
    and goes on as a lock does: the owner becomes the current thread, and
    when the location has a last unlock the action's clock vector is merged
    with that of the unlock. *)
Theorem trylock_behaviour st (curr : act_ptr) (c : ModelAction) (m : loc)
    (s : mutex_state) (thr : thr_ptr) (t : Thread) :
  actions st !! curr = Some c ->
  get_type c = ATOMIC_TRYLOCK ->
  get_mutex c = Some m ->
  mutexes st !! m = Some s ->
  get_thread st (get_tid c) = Some thr ->
  threads st !! thr = Some t ->
  (locked s <> None ->
   exists st' t',
     process_mutex curr st = Ok (false, st') /\
     threads st' !! thr = Some t' /\ return_value t' = 0 /\
     mutexes st' = mutexes st /\
     forall p, get_cv <$> actions st' !! p = get_cv <$> actions st !! p) /\
  (locked s = None ->
   forall unlock : option act_ptr,
     get_last_unlock st curr = Ok unlock ->
     (forall u ua, unlock = Some u -> actions st !! u = Some ua ->
        act_lt c ua = false /\ get_cv c <> None /\ get_cv ua <> None) ->
     exists (b : bool) st' t',
       process_mutex curr st = Ok (b, st') /\
       threads st' !! thr = Some t' /\ return_value t' = 1 /\
       mutexes st' !! m = Some (mkMutexState (Some thr)) /\
       match unlock with
       | Some u =>
           b = true /\
           exists ua ccv ucv,
             actions st !! u = Some ua /\ get_cv c = Some ccv /\
             get_cv ua = Some ucv /\
             get_cv <$> actions st' !! curr = Some (Some (cv_max ccv ucv))
       | None =>
           b = false /\
           forall p, get_cv <$> actions st' !! p = get_cv <$> actions st !! p
       end).
Proof.
  intros Hc Htype Hm Hs Hthr Ht.
  unfold process_mutex, bind, read, get_action. rewrite Hc. simpl.
  rewrite Htype, Hm. unfold get_mutex_state. simpl. rewrite Hs. simpl.
  unfold update_action, bind, read, modify, get_action. rewrite Hc. simpl.
  unfold get_thread_of, get_action. simpl. rewrite lookup_insert_eq. simpl.
  frame_get_thread st. rewrite Hthr.
  split.
  - (* the lock is taken *)
    intros Hlocked. destruct (locked s) as [owner |]; [| contradiction]. simpl.
    unfold update_thread, bind, lift, read, modify, get_thread_obj. simpl.
    rewrite Ht. simpl.
    eexists _, _. split; [reflexivity |]. simpl.
    rewrite lookup_insert_eq. split; [reflexivity |].
    repeat split. intros p.
    destruct (decide (p = curr)) as [-> | Hne].
    + rewrite lookup_insert_eq, Hc. reflexivity.
    + rewrite lookup_insert_ne by congruence. reflexivity.
  - (* the lock is free *)
    intros Hlocked unlock Hunlock Hsync. rewrite Hlocked. simpl.
    unfold update_thread, bind, lift, read, modify, get_thread_obj. simpl.
    rewrite Ht. simpl.
    unfold process_mutex_lock, bind, read, get_thread_of, get_action. simpl.
    rewrite lookup_insert_eq. simpl.
    frame_get_thread st. rewrite Hthr.
    unfold set_locked, bind, lift, read, modify. simpl. rewrite Hs. simpl.
    (* the last unlock is the one of the state before the call *)
    match goal with
    | |- context [get_last_unlock ?st1 curr] =>
        assert (Hu : get_last_unlock st1 curr = Ok unlock)
    end.
    { revert Hunlock. unfold get_last_unlock, get_action. simpl.
      rewrite lookup_insert_eq, Hc. simpl.
      destruct (obj_map st !! get_location c) as [l |]; simpl; [| discriminate].
      intros <-. apply find_action_ext. intros y _. simpl.
      destruct (decide (y = curr)) as [-> | Hne].
      - rewrite lookup_insert_eq, Hc. reflexivity.
      - rewrite lookup_insert_ne by congruence. reflexivity. }
    rewrite Hu. simpl.
    destruct unlock as [u |].
    + (* synchronize with the previous unlock statement *)
      assert (Hua : exists ua, actions st !! u = Some ua /\ u <> curr) .
      { revert Hunlock. unfold get_last_unlock, get_action. rewrite Hc. simpl.
        destruct (obj_map st !! get_location c) as [l |]; simpl; [| discriminate].
        intros Hfind. apply find_action_found in Hfind as (ua & Hua & Hp).
        exists ua. split; [exact Hua |]. intros ->.
        rewrite Hc in Hua. injection Hua as <-.
        unfold is_unlock, is_wait in Hp. rewrite Htype in Hp. discriminate. }
      destruct Hua as (ua & Hua & Hne).
      destruct (Hsync u ua eq_refl Hua) as (Hlt & Hccv & Hucv).
      destruct (get_cv c) as [ccv |] eqn:Hcv; [| contradiction].
      destruct (get_cv ua) as [ucv |] eqn:Hucv'; [| contradiction].
      unfold synchronize, bind, lift, read, get_action. simpl.
      rewrite lookup_insert_ne by congruence. rewrite Hua. simpl.
      rewrite lookup_insert_eq. simpl.
      unfold act_lt in *. simpl. rewrite Hlt.
      unfold synchronize_with, bind, lift, read, get_action. simpl.
      rewrite lookup_insert_eq. simpl. rewrite Hcv, Hucv'. simpl.
      unfold update_action, bind, read, modify, get_action. simpl.
      rewrite lookup_insert_eq. simpl.
      eexists _, _, _. split; [reflexivity |]. simpl.
      rewrite lookup_insert_eq. split; [reflexivity |].
      split; [reflexivity |].
      split; [apply lookup_insert_eq |].
      split; [reflexivity |].
      exists ua, ccv, ucv. repeat split; [exact Hucv' |].
      rewrite lookup_insert_eq. reflexivity.
    + eexists _, _, _. split; [reflexivity |]. simpl.
      rewrite lookup_insert_eq. split; [reflexivity |].
      split; [reflexivity |].
      split; [apply lookup_insert_eq |].
      split; [reflexivity |].
      intros p. destruct (decide (p = curr)) as [-> | Hne].
      * rewrite lookup_insert_eq, Hc. reflexivity.
      * rewrite lookup_insert_ne by congruence. reflexivity.
Qed.
(** *** Notify-one *)

(** C8, as amended. An ATOMIC_NOTIFY_ONE whose location has waiters, of
    which the fuzzer chooses one, wakes the thread of that waiter and
    nothing else.  The core removes nothing from the waiter list: the list
    of the location is afterwards the one [selectNotify], which works on
    the list itself, has left, so it is unchanged when the fuzzer has not
    edited it.  When there is no waiter nothing is woken and the fuzzer is
    not asked; the state is returned as it is, except that a location with
    no waiter list yet is given an empty one by [get_safe_ptr_action]. *)
Theorem notify_one_behaviour st (curr : act_ptr) (c : ModelAction) :
  actions st !! curr = Some c ->
  get_type c = ATOMIC_NOTIFY_ONE ->
  (forall waiters w thread waiters' fz,
     condvar_waiters_map st !! get_location c = Some waiters ->
     w ∈ waiters ->
     get_thread_of st w = Ok (Some thread) ->
     selectNotify (view st) waiters (fuzzer st) = (Some thread, waiters', fz) ->
     process_mutex curr st
     = Ok (false,
           set_scheduler (sched_wake thread (scheduler st))
             (set_condvar_waiters_map
                (<[get_location c := waiters']> (condvar_waiters_map st))
                (set_fuzzer fz st))) /\
     (waiters' = waiters ->
      process_mutex curr st
      = Ok (false, set_scheduler (sched_wake thread (scheduler st))
                     (set_fuzzer fz st)))) /\
  (condvar_waiters_map st !! get_location c = Some [] ->
   process_mutex curr st = Ok (false, st)) /\
  (condvar_waiters_map st !! get_location c = None ->
   process_mutex curr st
   = Ok (false, set_condvar_waiters_map
                  (<[get_location c := []]> (condvar_waiters_map st)) st)).
Proof.
  intros Hc Htype.
  unfold process_mutex, bind, read, get_action. rewrite Hc. simpl. rewrite Htype.
  unfold get_safe_ptr_action, bind, gets. simpl.
  split; [| split].
  - intros waiters w thread waiters' fz Hw Hin _ Hsel. rewrite Hw. simpl.
    destruct waiters as [| w0 waiters]; [inversion Hin |].
    unfold vsize. simpl length.
    destruct (Z.eqb_spec (Z.of_nat (S (length waiters))) 0) as [Hz | _]; [lia |].
    simpl. rewrite Hsel. split; [reflexivity |].
    intros ->. rewrite (insert_id _ _ _ Hw). destruct st. reflexivity.
  - intros Hw. rewrite Hw. reflexivity.
  - intros Hw. rewrite Hw. reflexivity.
Qed.

(** *** The candidate set of a read *)

(** A counting loop over a vector visits its elements in order. *)
Lemma for_each_upto_vget {A B} (v : list A) (f : A -> B -> result B)
    (P : list A -> B -> Prop) (acc0 : B) (r : B + Empty_set) :
  P [] acc0 ->
  (forall pre x acc acc', P pre acc -> f x acc = Ok acc' -> P (pre ++ [x]) acc') ->
  for_each (fun i acc => let? x := vget v i in
                         let? acc := f x acc in
                         Ok (Continue acc)) (upto (vsize v)) acc0 = Ok r ->
  P v (finished r).
Proof.
  intros Hinit Hstep. unfold upto, vsize. rewrite Nat2Z.id.
  assert (Hgen : forall (suf pre : list A) acc,
    v = pre ++ suf -> P pre acc ->
    for_each (fun i acc => let? x := vget v i in
                           let? acc := f x acc in
                           Ok (Continue acc))
             (map Z.of_nat (seq (length pre) (length suf))) acc = Ok r ->
    P v (finished r)).
  { induction suf as [| x suf IH]; intros pre acc Hv Hpre Hloop.
    - simpl in Hloop. injection Hloop as <-. simpl.
      rewrite Hv, app_nil_r. exact Hpre.
    - simpl in Hloop. apply rbind_ok in Hloop as (ctl & Hbody & Hrest).
      apply rbind_ok in Hbody as (x' & Hget & Hbody).
      apply rbind_ok in Hbody as (acc' & Hf & [= <-]).
      apply vget_lookup in Hget as [_ Hget].
      rewrite Nat2Z.id, Hv, lookup_app_r, Nat.sub_diag in Hget by lia.
      injection Hget as <-.
      apply (IH (pre ++ [x]) acc').
      + rewrite Hv, <- app_assoc. reflexivity.
      + eapply Hstep; eassumption.
      + rewrite length_app. simpl. rewrite Nat.add_1_r. exact Hrest. }
  intros Hloop. apply (Hgen v [] acc0); auto.
Qed.

Lemma happens_before_ok (a c : ModelAction) (b : bool) :
  happens_before a c = Ok b ->
  exists cv, get_cv c = Some cv /\
             b = synchronized_since cv (get_tid a) (get_seq_number a).
Proof.
  unfold happens_before. destruct (get_cv c) as [cv |]; simpl; [| discriminate].
  intros [= <-]. eauto.
Qed.

(** One turn of the walk: whether the write is taken into [rf_set]. *)
Lemma may_read_from_turn st (curr : act_ptr) (c : ModelAction)
    (act : act_ptr) (a : ModelAction) (rf_set : list act_ptr)
    (ctl : loop_ctl (list act_ptr) Empty_set) :
  actions st !! act = Some a ->
  (let last_sc_write := if is_seqcst c then obj_last_sc_map st !! get_location c
                        else None in
   let? before_last_sc :=
     if is_seqcst c && negb (is_seqcst a) then
       match last_sc_write with
       | Some l => let? la := get_action st l in happens_before a la
       | None => Ok false
       end
     else Ok false in
   let allow_read :=
     negb (is_seqcst c && (is_seqcst a || before_last_sc)
           && bool_decide (Some act <> last_sc_write)) in
   let? allow_read :=
     if is_rmwr c then
       let? same := if negb (is_rmwrcas c) then Ok true
                    else valequals (get_value c) (get_value a) (getSize c) in
       if same : bool then
         match getNode_noCreate (mo_graph st) (Some act) with
         | Some node =>
             if bool_decide (getRMW (mo_graph st) node <> None)
             then Ok false
             else Ok allow_read
         | None => Ok allow_read
         end
       else Ok allow_read
     else Ok allow_read in
   let rf_set := if allow_read : bool then rf_set ++ [act] else rf_set in
   let? hb := happens_before a c in
   if hb : bool then Ok (Break rf_set) else Ok (Continue rf_set)) = Ok ctl ->
  exists (allow hb : bool),
    happens_before a c = Ok hb /\
    ctl = (if hb then Break else Continue)
            (if allow then rf_set ++ [act] else rf_set) /\
    (allow = true <-> seq_cst_rule_admits st c act a /\ ~ second_rmw st c act a).
Proof.
  intros Ha. cbv zeta. intros Hturn.
  apply rbind_ok in Hturn as (before & Hbefore & Hturn).
  apply rbind_ok in Hturn as (allow & Hallow & Hturn).
  apply rbind_ok in Hturn as (hb & Hhb & Hctl).
  exists allow, hb. split; [exact Hhb |]. split.
  { destruct hb; injection Hctl as <-; reflexivity. }
  (* the seq-cst rule *)
  set (sc_ok := negb (is_seqcst c && (is_seqcst a || before)
                     && bool_decide (Some act <>
                          (if is_seqcst c then obj_last_sc_map st !! get_location c
                           else None)))) in *.
  assert (Hsc : sc_ok = true <-> seq_cst_rule_admits st c act a).
  { subst sc_ok. unfold seq_cst_rule_admits, before_last_sc_write.
    destruct (is_seqcst c) eqn:Hcsc; simpl in *; [| split; auto].
    destruct (is_seqcst a) eqn:Hasc; simpl in *.
    - injection Hbefore as <-.
      rewrite negb_true_iff, bool_decide_eq_false. split.
      + intros Hlast. right. left. symmetry. apply dec_stable. exact Hlast.
      + intros [[=] | [Hlast | [[=] _]]]. intros Hne. apply Hne. now rewrite Hlast.
    - rewrite negb_true_iff.
      destruct (obj_last_sc_map st !! get_location c) as [l |] eqn:Hlast.
      + apply rbind_ok in Hbefore as (la & Hla & Hhbl).
        unfold get_action in Hla. destruct (actions st !! l) as [la' |] eqn:Hl;
          simpl in Hla; [| discriminate]. injection Hla as ->.
        destruct before; simpl.
        * rewrite bool_decide_eq_false. split.
          -- intros Hact. right. left. symmetry. apply dec_stable. exact Hact.
          -- intros [[=] | [[= ->] | [_ Hnot]]].
             ++ intros Hne. now apply Hne.
             ++ exfalso. apply Hnot. eauto.
        * split; [| reflexivity]. intros _. right. right. split; [reflexivity |].
          intros (l' & la'' & [= <-] & Hl' & Hhb').
          rewrite Hl in Hl'. injection Hl' as <-. congruence.
      + injection Hbefore as <-. simpl. split; [| reflexivity].
        intros _. right. right. split; [reflexivity |].
        intros (l' & la'' & [=] & _). }
  (* the RMW clause *)
  unfold second_rmw. rewrite <- Hsc. clear Hsc.
  destruct (is_rmwr c) eqn:Hrmwr; simpl in Hallow.
  - apply rbind_ok in Hallow as (same & Hsame & Hallow).
    destruct same.
    + unfold getNode_noCreate, getRMW in Hallow.
      destruct (decide (Some act ∈ cg_nodes (mo_graph st))) as [Hnode | Hnode].
      * destruct (cg_rmw (mo_graph st) !! Some act) as [rmw |] eqn:Hrmw.
        -- rewrite bool_decide_eq_true_2 in Hallow by discriminate.
           injection Hallow as <-. split; [discriminate |].
           intros [_ Hnot]. exfalso. apply Hnot.
           repeat split; [| exact Hnode | discriminate].
           destruct (is_rmwrcas c); simpl in Hsame; auto.
        -- rewrite bool_decide_eq_false_2 in Hallow by (intros Hne; now apply Hne).
           injection Hallow as <-. split; [| tauto].
           intros Hok. split; [exact Hok |]. intros (_ & _ & _ & Hne). now apply Hne.
      * injection Hallow as <-. split; [| tauto].
        intros Hok. split; [exact Hok |]. intros (_ & _ & Hin & _). contradiction.
    + injection Hallow as <-. split; [| tauto].
      intros Hok. split; [exact Hok |]. intros (_ & Hval & _).
      destruct (is_rmwrcas c); simpl in Hsame; destruct Hval; congruence.
  - injection Hallow as <-. split; [| tauto].
    intros Hok. split; [exact Hok |]. intros ([=] & _).
Qed.

Lemma may_read_from_thread_walk st (curr : act_ptr) (c : ModelAction)
    (l rf_set rf_set' : list act_ptr) :
  may_read_from_thread st curr c
    (if is_seqcst c then obj_last_sc_map st !! get_location c else None)
    (rev l) rf_set = Ok rf_set' ->
  forall w, w ∈ rf_set' <->
    w ∈ rf_set \/
    (w ∈ walked_thread st curr c l /\
     exists a, actions st !! w = Some a /\
               seq_cst_rule_admits st c w a /\ ~ second_rmw st c w a).
Proof.
  unfold may_read_from_thread. rewrite rev_involutive.
  intros Hwalk. apply rbind_ok in Hwalk as (r & Hloop & [= <-]).
  revert rf_set Hloop. induction l as [| act l IH]; intros rf_set Hloop w.
  - simpl in Hloop. injection Hloop as <-. simpl. split; [auto |].
    intros [Hw | [Hw _]]; [exact Hw | inversion Hw].
  - simpl in Hloop. simpl walked_thread.
    destruct (decide (act = curr)) as [-> | Hne].
    + simpl in Hloop. apply IH. exact Hloop.
    + apply rbind_ok in Hloop as (ctl & Hturn & Hrest).
      apply rbind_ok in Hturn as (a & Ha & Hturn).
      unfold get_action in Ha. destruct (actions st !! act) as [a' |] eqn:Hact;
        simpl in Ha; [| discriminate]. injection Ha as ->.
      apply (may_read_from_turn st curr c act a rf_set ctl Hact) in Hturn
        as (allow & hb & Hhb & -> & Hallow).
      rewrite Hhb.
      assert (Hpush : forall w, w ∈ (if allow then rf_set ++ [act] else rf_set) <->
                w ∈ rf_set \/ (w = act /\ allow = true)).
      { intros w'. destruct allow.
        - rewrite elem_of_app, list_elem_of_singleton. tauto.
        - split; [auto |]. intros [Hw | [_ [=]]]. exact Hw. }
      destruct hb.
      * injection Hrest as <-. simpl. rewrite Hpush, list_elem_of_singleton.
        split.
        -- intros [Hw | [-> Hal]]; [auto |]. right. split; [reflexivity |].
           exists a. split; [exact Hact | apply Hallow, Hal].
        -- intros [Hw | [-> (a' & Ha' & Hadm)]]; [auto |]. right.
           split; [reflexivity |]. apply Hallow.
           rewrite Hact in Ha'. injection Ha' as <-. exact Hadm.
      * rewrite (IH _ Hrest w), Hpush, elem_of_cons. split.
        -- intros [[Hw | [-> Hal]] | [Hw Hadm]]; [auto | | tauto].
           right. split; [auto |].
           exists a. split; [exact Hact | apply Hallow, Hal].
        -- intros [Hw | [[-> | Hw] Hadm]]; [auto | | tauto].
           left. right. split; [reflexivity |]. apply Hallow.
           destruct Hadm as (a' & Ha' & Hadm).
           rewrite Hact in Ha'. injection Ha' as <-. exact Hadm.
Qed.

(** C2, as amended. A write that [build_may_read_from] walks is admitted
    into [rf_set] by the seq-cst rule exactly when the read is not seq-cst,
    or the write is the last seq-cst write of the location, or the write is
    not seq-cst and does not happen before that last seq-cst write; the set
    holds the walked writes that this rule admits and the RMW clause does
    not exclude. *)
Theorem may_read_from_seq_cst_rule st (curr : act_ptr) (c : ModelAction)
    (rf_set : list act_ptr) :
  actions st !! curr = Some c ->
  build_may_read_from st curr = Ok rf_set ->
  forall w, w ∈ rf_set <->
    w ∈ walked_writes st curr c /\
    exists a, actions st !! w = Some a /\
              seq_cst_rule_admits st c w a /\ ~ second_rmw st c w a.
Proof.
  intros Hc Hbuild w. unfold build_may_read_from, get_action in Hbuild.
  rewrite Hc in Hbuild. simpl in Hbuild.
  apply rbind_ok in Hbuild as (_ & _ & Hbuild).
  apply rbind_ok in Hbuild as (last_sc_write & Hlast & Hbuild).
  apply rbind_ok in Hbuild as (thrd_lists & Hlists & Hbuild).
  apply rbind_ok in Hbuild as (r & Hloop & [= <-]).
  assert (last_sc_write
          = if is_seqcst c then obj_last_sc_map st !! get_location c else None)
    as ->.
  { destruct (is_seqcst c); [| congruence].
    unfold get_last_seq_cst_write, get_action in Hlast. rewrite Hc in Hlast.
    simpl in Hlast. congruence. }
  unfold walked_writes.
  destruct (obj_wr_thrd_map st !! get_location c) as [lists |]; simpl in Hlists;
    [| discriminate]. injection Hlists as ->. simpl.
  revert w.
  apply (for_each_upto_vget thrd_lists
    (may_read_from_thread st curr c
       (if is_seqcst c then obj_last_sc_map st !! get_location c else None))
    (fun pre rf => forall w, w ∈ rf <->
       w ∈ concat (map (fun lst => walked_thread st curr c (rev lst)) pre) /\
       exists a, actions st !! w = Some a /\
                 seq_cst_rule_admits st c w a /\ ~ second_rmw st c w a)
    [] r).
  - intros w. simpl. split; [intros Hw; inversion Hw | intros [Hw _]; inversion Hw].
  - intros pre lst acc acc' Hacc Hthread w.
    rewrite <- (rev_involutive lst) in Hthread.
    rewrite (may_read_from_thread_walk st curr c (rev lst) acc acc' Hthread w).
    rewrite map_app, concat_app, elem_of_app. simpl. rewrite app_nil_r.
    rewrite Hacc. tauto.
  - exact Hloop.
Qed.

(** *** The rf-choice loop *)

Lemma only_rfcv_refl st : only_rfcv st st.
Proof. split; [destruct st; reflexivity | reflexivity]. Qed.

Lemma only_rfcv_trans st1 st2 st3 :
  only_rfcv st1 st2 -> only_rfcv st2 st3 -> only_rfcv st1 st3.
Proof.
  intros [H12 Ha12] [H23 Ha23]. split.
  - rewrite H23, H12. reflexivity.
  - intros p. rewrite Ha23. apply Ha12.
Qed.

Lemma only_rfcv_update st (p : act_ptr) (vec : option ClockVector) (u : unit) st' :
  update_action p (set_rfcv vec) st = Ok (u, st') -> only_rfcv st st'.
Proof.
  unfold update_action. intros Hrun.
  apply bind_ok in Hrun as (a & s & Hread & Hrun).
  apply read_ok in Hread as [Hread ->]. apply modify_ok in Hrun as ->.
  unfold get_action in Hread. destruct (actions st !! p) as [a' |] eqn:Ha;
    simpl in Hread; [| discriminate]. injection Hread as ->.
  split; [reflexivity |]. intros q. simpl.
  destruct (decide (q = p)) as [-> | Hne].
  - rewrite lookup_insert_eq, Ha. reflexivity.
  - rewrite lookup_insert_ne by congruence. reflexivity.
Qed.

Lemma only_rfcv_hb_step (rf : option act_ptr) (vec vec' : option ClockVector) st st' :
  hb_step rf vec st = Ok (vec', st') -> only_rfcv st st'.
Proof.
  unfold hb_step. intros Hrun.
  apply bind_ok in Hrun as (p & s & Hp & Hrun). apply lift_ok in Hp as [_ ->].
  apply bind_ok in Hrun as (a & s & Ha & Hrun). apply read_ok in Ha as [_ ->].
  destruct (bool_decide (get_rfcv a <> None)).
  { apply ret_ok in Hrun as [_ ->]. apply only_rfcv_refl. }
  destruct (is_acquire a && is_release a).
  { apply ret_ok in Hrun as [_ ->]. apply only_rfcv_refl. }
  destruct (is_release a && negb (is_rmw a)).
  { apply ret_ok in Hrun as [_ ->]. apply only_rfcv_refl. }
  destruct (is_release a).
  - apply bind_ok in Hrun as (cv & s & Hcv & Hrun). apply lift_ok in Hcv as [_ ->].
    apply bind_ok in Hrun as (u & s & Hupd & Hrun).
    apply ret_ok in Hrun as [_ ->]. destruct u. eapply only_rfcv_update, Hupd.
  - apply bind_ok in Hrun as (v & s & Hvec & Hrun).
    assert (s = st) as ->.
    { destruct (get_last_fence_release_of a).
      - apply bind_ok in Hvec as (f & s' & Hf & Hvec).
        apply read_ok in Hf as [_ ->]. destruct vec.
        + apply bind_ok in Hvec as (cv & s' & Hcv & Hvec).
          apply lift_ok in Hcv as [_ ->]. now apply ret_ok in Hvec as [_ ->].
        + now apply ret_ok in Hvec as [_ ->].
      - now apply ret_ok in Hvec as [_ ->]. }
    apply bind_ok in Hrun as (u & s & Hupd & Hrun).
    apply ret_ok in Hrun as [_ ->]. destruct u. eapply only_rfcv_update, Hupd.
Qed.

Lemma for_eachM_relates {X A R} (rel : relation ModelExecution)
    (body : X -> A -> M (loop_ctl A R)) (xs : list X) :
  (forall st, rel st st) ->
  (forall st1 st2 st3, rel st1 st2 -> rel st2 st3 -> rel st1 st3) ->
  (forall x a st ctl st', body x a st = Ok (ctl, st') -> rel st st') ->
  forall acc st r st', for_eachM body xs acc st = Ok (r, st') -> rel st st'.
Proof.
  intros Hrefl Htrans Hbody. induction xs as [| x xs IH]; intros acc st r st' Hrun;
    simpl in Hrun.
  - apply ret_ok in Hrun as [_ ->]. apply Hrefl.
  - apply bind_ok in Hrun as (ctl & s & Hturn & Hrun).
    apply Hbody in Hturn. destruct ctl as [a | a | ret'].
    + eapply Htrans; [exact Hturn | eapply IH, Hrun].
    + apply ret_ok in Hrun as [_ ->]. exact Hturn.
    + apply ret_ok in Hrun as [_ ->]. exact Hturn.
Qed.

Lemma only_rfcv_get_hb_from_write (rf : option act_ptr) (vec : option ClockVector)
    st st' :
  get_hb_from_write rf st = Ok (vec, st') -> only_rfcv st st'.
Proof.
  unfold get_hb_from_write. intros Hrun.
  apply bind_ok in Hrun as ([rf' processset] & s & Hchain & Hrun).
  apply read_ok in Hchain as [_ ->].
  apply bind_ok in Hrun as (r & s & Hloop & Hrun).
  apply ret_ok in Hrun as [_ ->].
  revert Hloop. apply (for_eachM_relates only_rfcv).
  - apply only_rfcv_refl.
  - apply only_rfcv_trans.
  - intros x a st0 ctl st1 Hturn.
    apply bind_ok in Hturn as (v & s0 & Hstep & Hturn).
    apply ret_ok in Hturn as [_ ->]. eapply only_rfcv_hb_step, Hstep.
Qed.

Lemma swap_remove_ok {A} (index : Z) (v v' : list A) :
  swap_remove index v = Ok v' ->
  exists back, last v = Some back /\ 0 <= index < vsize v /\
               v' = removelast (<[Z.to_nat index := back]> v) /\
               length v' = pred (length v).
Proof.
  unfold swap_remove. destruct (last v) as [back |]; simpl; [| discriminate].
  unfold vset.
  destruct (Z.leb_spec 0 index), (Z.ltb_spec index (vsize v)); simpl;
    try discriminate.
  intros [= <-]. exists back. repeat split; try assumption.
  rewrite <- (length_insert v (Z.to_nat index) back).
  generalize (<[Z.to_nat index := back]> v). intros l.
  destruct l as [| x l _] using rev_ind; [reflexivity |].
  rewrite removelast_last, length_app. simpl. lia.
Qed.

Lemma addEdge_fold_edges (priorset : list act_ptr) (rf : act_ptr) (g : CycleGraph) :
  cg_edges (foldl (fun g p => addEdge (Some p) (Some rf) g) g priorset)
  = cg_edges g ++ map (fun p => (Some p, Some rf)) priorset.
Proof.
  revert g. induction priorset as [| p ps IH]; intros g; simpl.
  - now rewrite app_nil_r.
  - rewrite IH. simpl. now rewrite <- app_assoc.
Qed.

Lemma swap_remove_candidate {A} (index : Z) (v : list A) (rf : A) :
  vget v index = Ok rf ->
  exists back,
    last v = Some back /\
    swap_remove index v = Ok (removelast (<[Z.to_nat index := back]> v)) /\
    rf :: removelast (<[Z.to_nat index := back]> v) ≡ₚ v.
Proof.
  intros Hget. apply vget_lookup in Hget as [Hpos Hget].
  apply list_elem_of_split_length in Hget as (l1 & l2 & -> & Hlen).
  rewrite Hlen.
  destruct l2 as [| back l2 _] using rev_ind.
  - exists rf. rewrite last_snoc.
    assert (Hins : <[length l1 := rf]> (l1 ++ [rf]) = l1 ++ [rf]).
    { rewrite insert_app_r_alt, Nat.sub_diag by lia. reflexivity. }
    rewrite Hins, removelast_last. split; [reflexivity |]. split.
    + unfold swap_remove. rewrite last_snoc. simpl. unfold vset, vsize.
      rewrite length_app. simpl.
      destruct (Z.leb_spec 0 index), (Z.ltb_spec index (Z.of_nat (length l1 + 1)));
        try lia. simpl.
      rewrite Hlen, Hins, removelast_last. reflexivity.
    + apply Permutation_cons_append.
  - exists back.
    assert (Hlast : last (l1 ++ rf :: l2 ++ [back]) = Some back).
    { replace (l1 ++ rf :: l2 ++ [back]) with ((l1 ++ rf :: l2) ++ [back])
        by (rewrite <- app_assoc; reflexivity).
      apply last_snoc. }
    assert (Hins : removelast (<[length l1 := back]> (l1 ++ rf :: l2 ++ [back]))
                   = l1 ++ back :: l2).
    { rewrite insert_app_r_alt, Nat.sub_diag by lia. simpl.
      replace (l1 ++ back :: l2 ++ [back]) with ((l1 ++ back :: l2) ++ [back])
        by (rewrite <- app_assoc; reflexivity).
      apply removelast_last. }
    rewrite Hlast, Hins. split; [reflexivity |]. split.
    + unfold swap_remove. rewrite Hlast. simpl. unfold vset, vsize.
      rewrite !length_app. simpl. rewrite length_app. simpl.
      destruct (Z.leb_spec 0 index),
               (Z.ltb_spec index (Z.of_nat (length l1 + S (length l2 + 1))));
        try lia. simpl.
      rewrite Hlen, Hins. reflexivity.
    + rewrite <- (Permutation_middle l1 (l2 ++ [back]) rf).
      apply Permutation_skip, Permutation_app_head, Permutation_cons_append.
Qed.

Lemma links_only_refl st : links_only st st.
Proof. split; [destruct st; reflexivity | reflexivity]. Qed.

Lemma links_only_trans st1 st2 st3 :
  links_only st1 st2 -> links_only st2 st3 -> links_only st1 st3.
Proof.
  intros [H12 Ha12] [H23 Ha23]. split.
  - rewrite H23, H12. reflexivity.
  - intros p. rewrite Ha23. apply Ha12.
Qed.

Lemma only_rfcv_links st st' : only_rfcv st st' -> links_only st st'.
Proof.
  intros [Hst Hacts]. split; [exact Hst |]. intros p. specialize (Hacts p).
  destruct (actions st' !! p) as [a' |], (actions st !! p) as [a |];
    simpl in *; try discriminate; [| reflexivity].
  apply (inj Some) in Hacts. f_equal.
  change (erase_links (set_rfcv None a') = erase_links (set_rfcv None a)).
  now rewrite Hacts.
Qed.

Lemma update_action_ok st (p : act_ptr) (f : ModelAction -> ModelAction)
    (a : ModelAction) :
  actions st !! p = Some a ->
  update_action p f st = Ok (tt, set_actions (<[p := f a]> (actions st)) st).
Proof.
  intros Ha. unfold update_action, bind, read, modify, get_action.
  rewrite Ha. reflexivity.
Qed.

Lemma links_only_update st (p : act_ptr) (f : ModelAction -> ModelAction)
    (a : ModelAction) :
  actions st !! p = Some a ->
  erase_links (f a) = erase_links a ->
  links_only st (set_actions (<[p := f a]> (actions st)) st).
Proof.
  intros Ha Hf. split; [reflexivity |]. intros q. simpl.
  destruct (decide (q = p)) as [-> | Hne].
  - rewrite lookup_insert_eq, Ha. simpl. now rewrite Hf.
  - rewrite lookup_insert_ne by congruence. reflexivity.
Qed.

Lemma links_only_lookup st st' (p : act_ptr) (a : ModelAction) :
  links_only st st' -> actions st !! p = Some a ->
  exists a', actions st' !! p = Some a' /\ erase_links a' = erase_links a.
Proof.
  intros [_ Hacts] Ha. specialize (Hacts p). rewrite Ha in Hacts.
  destruct (actions st' !! p) as [a' |]; simpl in Hacts; [| discriminate].
  apply (inj Some) in Hacts. eauto.
Qed.

(** [read_from] succeeds as soon as [rf] is a write and, for an acquire
    read, [get_hb_from_write] returns and the read has a clock vector to
    merge into. *)
Lemma read_from_ok st (act rf : act_ptr) (a r : ModelAction) :
  actions st !! act = Some a ->
  actions st !! rf = Some r ->
  is_write r = true ->
  (is_acquire a = true ->
   exists hb st2,
     get_hb_from_write (Some rf)
       (set_actions (<[act := set_read_from (Some rf) a]> (actions st)) st)
     = Ok (hb, st2) /\
     (hb <> None -> get_cv a <> None)) ->
  exists st' a',
    read_from act rf st = Ok (tt, st') /\ links_only st st' /\
    actions st' !! act = Some a' /\ get_reads_from a' = Some rf.
Proof.
  intros Ha Hr Hwrite Hhb.
  assert (Hset : links_only st
            (set_actions (<[act := set_read_from (Some rf) a]> (actions st)) st))
    by (apply links_only_update; [exact Ha | reflexivity]).
  unfold read_from. unfold bind at 1, read at 1, get_action at 1. rewrite Hr.
  simpl. unfold bind at 1, lift at 1, read at 1. rewrite Hwrite. simpl.
  unfold bind at 1. rewrite (update_action_ok st act _ a Ha).
  unfold bind at 1, read at 1, get_action at 1. simpl.
  rewrite lookup_insert_eq. simpl.
  change (is_acquire (set_read_from (Some rf) a)) with (is_acquire a).
  destruct (is_acquire a) eqn:Hacq.
  - destruct (Hhb eq_refl) as (hb & st2 & Hrun & Hcv).
    unfold bind at 1. rewrite Hrun.
    pose proof (only_rfcv_get_hb_from_write _ _ _ _ Hrun) as Honly.
    pose proof (only_rfcv_links _ _ Honly) as Hlinks.
    destruct hb as [v |].
    + destruct Honly as [_ Hacts]. specialize (Hacts act). simpl in Hacts.
      rewrite lookup_insert_eq in Hacts.
      destruct (actions st2 !! act) as [a2 |] eqn:Ha2; [| discriminate].
      change (Some (set_rfcv None a2)
              = Some (set_rfcv None (set_read_from (Some rf) a))) in Hacts.
      apply (inj Some) in Hacts.
      pose proof (f_equal get_cv Hacts) as Hcv2. simpl in Hcv2.
      pose proof (f_equal get_reads_from Hacts) as Hrf2. simpl in Hrf2.
      destruct (get_cv a) as [cv0 |] eqn:Hcv0; [| exfalso; now apply Hcv].
      unfold bind at 1, read at 1, get_action at 1. rewrite Ha2. simpl.
      unfold bind at 1, lift at 1, read at 1. rewrite Hcv2. simpl.
      rewrite (update_action_ok st2 act _ a2 Ha2).
      eexists _, _. split; [reflexivity |]. split.
      * eapply links_only_trans; [exact Hset |].
        eapply links_only_trans; [exact Hlinks |].
        apply links_only_update; [exact Ha2 | reflexivity].
      * split; [simpl; apply lookup_insert_eq | exact Hrf2].
    + destruct Honly as [_ Hacts]. specialize (Hacts act). simpl in Hacts.
      rewrite lookup_insert_eq in Hacts.
      destruct (actions st2 !! act) as [a2 |] eqn:Ha2; [| discriminate].
      change (Some (set_rfcv None a2)
              = Some (set_rfcv None (set_read_from (Some rf) a))) in Hacts.
      apply (inj Some) in Hacts.
      pose proof (f_equal get_reads_from Hacts) as Hrf2. simpl in Hrf2.
      exists st2, a2. split; [reflexivity |]. split.
      * eapply links_only_trans; [exact Hset | exact Hlinks].
      * split; [exact Ha2 | exact Hrf2].
  - eexists _, _. split; [reflexivity |]. split; [exact Hset |].
    split; [simpl; apply lookup_insert_eq | reflexivity].
Qed.

(** *** The tables of the engine *)

(** X1. [get_safe_ptr_action] and [get_safe_ptr_vect_action] get or create:
    they return the entry of [ptr], an empty one when the table has none,
    and afterwards the table holds what they returned at [ptr] and what it
    held before at every other key; a table that has the entry is not
    touched, so that a second call returns the same and changes nothing. *)
Theorem get_safe_ptr_get_or_create (ptr : loc) st :
  (forall (get : ModelExecution -> gmap loc (list act_ptr))
          (put : gmap loc (list act_ptr) -> ModelExecution -> ModelExecution),
     (forall h s, get (put h s) = h) ->
     exists tmp st',
       get_safe_ptr_action get put ptr st = Ok (tmp, st') /\
       tmp = default [] (get st !! ptr) /\
       get st' !! ptr = Some tmp /\
       (forall q, q <> ptr -> get st' !! q = get st !! q) /\
       (is_Some (get st !! ptr) -> st' = st) /\
       get_safe_ptr_action get put ptr st' = Ok (tmp, st')) /\
  (forall (get : ModelExecution -> gmap loc (list (list act_ptr)))
          (put : gmap loc (list (list act_ptr)) -> ModelExecution -> ModelExecution),
     (forall h s, get (put h s) = h) ->
     exists tmp st',
       get_safe_ptr_vect_action get put ptr st = Ok (tmp, st') /\
       tmp = default [] (get st !! ptr) /\
       get st' !! ptr = Some tmp /\
       (forall q, q <> ptr -> get st' !! q = get st !! q) /\
       (is_Some (get st !! ptr) -> st' = st) /\
       get_safe_ptr_vect_action get put ptr st' = Ok (tmp, st')).
Proof.
  split; intros get put Hlens.
  - unfold get_safe_ptr_action, bind, gets, modify, ret.
    destruct (get st !! ptr) as [tmp |] eqn:Hptr.
    + exists tmp, st. rewrite Hptr. repeat split; try reflexivity; auto.
    + exists [], (put (<[ptr := []]> (get st)) st).
      rewrite Hlens, lookup_insert_eq. repeat split; try reflexivity.
      * intros q Hq. now rewrite lookup_insert_ne by congruence.
      * intros [? [=]].
  - unfold get_safe_ptr_vect_action, bind, gets, modify, ret.
    destruct (get st !! ptr) as [tmp |] eqn:Hptr.
    + exists tmp, st. rewrite Hptr. repeat split; try reflexivity; auto.
    + exists [], (put (<[ptr := []]> (get st)) st).
      rewrite Hlens, lookup_insert_eq. repeat split; try reflexivity.
      * intros q Hq. now rewrite lookup_insert_ne by congruence.
      * intros [? [=]].
Qed.

(** *** Sequence numbers *)

(** X2. [get_next_seq_num] returns the successor of the last used sequence
    number, wrapping at 2^32, and records it; [restore_last_seq_num] then
    puts the engine back exactly as it was before the pair of calls. *)
Theorem seq_num_round_trip st :
  0 <= used_sequence_numbers (priv st) < 2 ^ 32 ->
  exists n st1,
    get_next_seq_num st = Ok (n, st1) /\
    n = (used_sequence_numbers (priv st) + 1) mod 2 ^ 32 /\
    used_sequence_numbers (priv st1) = n /\
    restore_last_seq_num st1 = Ok (tt, st).
Proof.
  intros Hused. unfold get_next_seq_num, restore_last_seq_num, bind, gets, modify, ret.
  eexists _, _. split; [reflexivity |]. split; [reflexivity |].
  split; [reflexivity |]. f_equal. f_equal.
  destruct st as [? ? ? ? ? ? ? ? ? ? ? ? ? ? ? ? ? ? ? [nid used bgs asd] ? ? ?].
  unfold set_priv, set_used_sequence_numbers, to_unsigned. simpl in *.
  do 2 f_equal.
  change (2 ^ 32) with 4294967296 in *.
  destruct (Z.eq_dec used 4294967295) as [-> | Hne]; [reflexivity |].
  rewrite (Z.mod_small (used + 1)) by lia. rewrite Z.mod_small by lia. lia.
Qed.

(** *** Complete executions *)

Lemma is_deadlocked_loop_disabled st (l : list Z) (blocking : bool) (r : bool + bool) :
  for_each (fun i (blocking_threads : bool) =>
    let tid := int_to_id i in
    if is_enabled st tid then Ok (Return false)
    else
      let? t := deref (get_thread st tid) in
      let? t := get_thread_obj st t in
      if negb (is_model_thread t) && bool_decide (is_Some (get_pending t))
      then Ok (Continue true)
      else Ok (Continue blocking_threads)) l blocking = Ok r ->
  match r with
  | inl _ => forall i, i ∈ l -> is_enabled st i = false
  | inr b => b = false
  end.
Proof.
  revert blocking. induction l as [| i l IH]; intros blocking Hloop; simpl in Hloop.
  - injection Hloop as <-. intros i Hi. inversion Hi.
  - unfold int_to_id in Hloop. destruct (is_enabled st i) eqn:Hen.
    + injection Hloop as <-. reflexivity.
    + apply rbind_ok in Hloop as (ctl & Hturn & Hrest).
      apply rbind_ok in Hturn as (p & _ & Hturn).
      apply rbind_ok in Hturn as (t & _ & Hturn).
      assert (Hnext : exists b', ctl = Continue b').
      { destruct (negb (is_model_thread t) && bool_decide (is_Some (get_pending t)));
          injection Hturn as <-; eauto. }
      destruct Hnext as [b' ->]. specialize (IH b' Hrest).
      destruct r as [b | b]; [| exact IH].
      intros j Hj. apply elem_of_cons in Hj as [-> | Hj]; [exact Hen | now apply IH].
Qed.

(** X3. [is_complete_execution] returns true exactly when no thread id below
    [get_num_threads] is enabled; and [is_deadlocked] never reports a
    deadlock of an execution that is not complete in this sense. *)
Theorem complete_execution_exact st :
  (is_complete_execution st = true <->
   forall i, 0 <= i < get_num_threads st -> is_enabled st i = false) /\
  (is_deadlocked st = Ok true -> is_complete_execution st = true).
Proof.
  assert (Hexact : is_complete_execution st = true <->
            forall i, 0 <= i < get_num_threads st -> is_enabled st i = false).
  { unfold is_complete_execution, int_to_id. rewrite forallb_forall. split.
    - intros Hall i Hi. apply negb_true_iff, Hall, list_elem_of_In, elem_of_upto, Hi.
    - intros Hall i Hi. apply negb_true_iff, Hall, elem_of_upto, list_elem_of_In, Hi. }
  split; [exact Hexact |].
  intros Hdead. apply Hexact. intros i Hi.
  unfold is_deadlocked in Hdead. cbv zeta in Hdead.
  apply rbind_ok in Hdead as (r & Hloop & Hr).
  apply is_deadlocked_loop_disabled in Hloop.
  destruct r as [b | b].
  - apply Hloop, elem_of_upto, Hi.
  - subst b. discriminate.
Qed.

(** *** Locks *)

Lemma links_only_run_update st (p : act_ptr) (f : ModelAction -> ModelAction)
    (u : unit) st' :
  (forall a, erase_links (f a) = erase_links a) ->
  update_action p f st = Ok (u, st') -> links_only st st'.
Proof.
  intros Hf Hrun. unfold update_action in Hrun.
  apply bind_ok in Hrun as (a & s & Hread & Hrun).
  apply read_ok in Hread as [Hread ->]. apply modify_ok in Hrun as ->.
  unfold get_action in Hread. destruct (actions st !! p) as [a' |] eqn:Ha;
    simpl in Hread; [| discriminate]. injection Hread as ->.
  apply links_only_update; [exact Ha | apply Hf].
Qed.

Lemma links_only_synchronize st (first : option act_ptr) (second : act_ptr)
    (b : bool) st' :
  synchronize first second st = Ok (b, st') -> links_only st st'.
Proof.
  unfold synchronize. intros Hrun.
  apply bind_ok in Hrun as (fp & s & Hfp & Hrun). apply lift_ok in Hfp as [_ ->].
  apply bind_ok in Hrun as (f & s & Hf & Hrun). apply read_ok in Hf as [_ ->].
  apply bind_ok in Hrun as (sa & s & Hs & Hrun). apply read_ok in Hs as [_ ->].
  destruct (act_lt sa f).
  - apply bind_ok in Hrun as (u & s & Hassert & _).
    apply lift_ok in Hassert as [[=] _].
  - unfold synchronize_with in Hrun.
    apply bind_ok in Hrun as (t & s & Ht & Hrun). apply read_ok in Ht as [_ ->].
    apply bind_ok in Hrun as (tcv & s & Htcv & Hrun). apply lift_ok in Htcv as [_ ->].
    apply bind_ok in Hrun as (cv & s & Hcv & Hrun). apply lift_ok in Hcv as [_ ->].
    apply bind_ok in Hrun as (u & s & Hupd & Hrun). apply ret_ok in Hrun as [_ ->].
    destruct u. eapply links_only_run_update; [| exact Hupd]. reflexivity.
Qed.

(** [only_scheduler st st']: nothing but the scheduler differs. *)
Lemma wake_lock_waiters_scheduler (curr : act_ptr) st (u : unit) st' :
  wake_lock_waiters curr st = Ok (u, st') ->
  st' = set_scheduler (scheduler st') st.
Proof.
  unfold wake_lock_waiters. intros Hrun.
  apply bind_ok in Hrun as (n & s & Hn & Hrun). apply gets_ok in Hn as [_ ->].
  apply bind_ok in Hrun as (r & s & Hloop & Hrun). apply ret_ok in Hrun as [_ ->].
  revert Hloop.
  apply (for_eachM_relates (fun s1 s2 => s2 = set_scheduler (scheduler s2) s1)).
  - intros s0. destruct s0; reflexivity.
  - intros s1 s2 s3 H12 H23. rewrite H23, H12. reflexivity.
  - intros i a s0 ctl s1 Hturn.
    apply bind_ok in Hturn as (t & z & Ht & Hturn). apply gets_ok in Ht as [_ ->].
    apply bind_ok in Hturn as (ct & z & Hct & Hturn). apply read_ok in Hct as [_ ->].
    apply bind_ok in Hturn as (tp & z & Htp & Hturn). apply lift_ok in Htp as [_ ->].
    apply bind_ok in Hturn as (thr & z & Hthr & Hturn). apply read_ok in Hthr as [_ ->].
    apply bind_ok in Hturn as (u' & z & Hwake & Hturn).
    apply ret_ok in Hturn as [_ ->].
    destruct (bool_decide (waiting_on thr = ct)).
    + apply bind_ok in Hwake as (p & z' & Hp & Hwake). apply lift_ok in Hp as [_ ->].
      apply bind_ok in Hwake as (pa & z' & Hpa & Hwake). apply read_ok in Hpa as [_ ->].
      destruct (is_lock pa).
      * apply modify_ok in Hwake as ->. reflexivity.
      * apply ret_ok in Hwake as [_ ->]. destruct s0; reflexivity.
    + apply ret_ok in Hwake as [_ ->]. destruct s0; reflexivity.
Qed.

Lemma lock_enabledness st (other : act_ptr) (o : ModelAction) (m : loc)
    (owner : option thr_ptr) :
  actions st !! other = Some o -> is_lock o = true -> get_mutex o = Some m ->
  mutexes st !! m = Some (mkMutexState owner) ->
  check_action_enabled other st = Ok (bool_decide (owner = None), st).
Proof.
  intros Ho Hlock Hm Hstate.
  unfold check_action_enabled, bind, read, get_action. rewrite Ho. simpl.
  rewrite Hlock, Hm. unfold get_mutex_state. simpl. rewrite Hstate. simpl.
  destruct owner; reflexivity.
Qed.

(** X4. Once [process_mutex] has processed an ATOMIC_LOCK of the mutex [m],
    the mutex is owned by the thread of the action, nothing else about the
    mutexes has changed, and [check_action_enabled] answers false for every
    lock of [m]: no other lock of the mutex can be taken. *)
Theorem lock_then_disabled st (curr : act_ptr) (c : ModelAction) (m : loc)
    (thr : thr_ptr) (b : bool) st' :
  actions st !! curr = Some c ->
  get_type c = ATOMIC_LOCK ->
  get_mutex c = Some m ->
  get_thread st (get_tid c) = Some thr ->
  process_mutex curr st = Ok (b, st') ->
  mutexes st' = <[m := mkMutexState (Some thr)]> (mutexes st) /\
  forall (other : act_ptr) (o : ModelAction),
    actions st' !! other = Some o -> is_lock o = true -> get_mutex o = Some m ->
    check_action_enabled other st' = Ok (false, st').
Proof.
  intros Hc Htype Hm Hthr Hrun.
  assert (Hmutexes : mutexes st' = <[m := mkMutexState (Some thr)]> (mutexes st)).
  { unfold process_mutex in Hrun.
    apply bind_ok in Hrun as (c' & s & Hread & Hrun).
    apply read_ok in Hread as [Hread ->].
    unfold get_action in Hread. rewrite Hc in Hread. injection Hread as <-.
    rewrite Htype, Hm in Hrun. unfold process_mutex_lock in Hrun.
    apply bind_ok in Hrun as (t & s & Ht & Hrun). apply read_ok in Ht as [Ht ->].
    unfold get_thread_of, get_action in Ht. rewrite Hc in Ht. simpl in Ht.
    rewrite Hthr in Ht. injection Ht as <-.
    apply bind_ok in Hrun as (u & s1 & Hset & Hrun).
    unfold set_locked in Hset.
    apply bind_ok in Hset as (m' & s & Hm' & Hset). apply lift_ok in Hm' as [[= <-] ->].
    apply bind_ok in Hset as (old & s & Hold & Hset). apply read_ok in Hold as [_ ->].
    apply modify_ok in Hset as ->.
    apply bind_ok in Hrun as (unlock & s & Hunlock & Hrun).
    apply read_ok in Hunlock as [_ ->].
    destruct unlock as [ul |].
    - apply bind_ok in Hrun as (b' & s2 & Hsync & Hrun).
      apply ret_ok in Hrun as [_ ->].
      apply links_only_synchronize in Hsync as [-> _]. reflexivity.
    - apply ret_ok in Hrun as [_ ->]. reflexivity. }
  split; [exact Hmutexes |].
  intros other o Ho Hlock Hmo.
  apply (lock_enabledness st' other o m (Some thr) Ho Hlock Hmo).
  rewrite Hmutexes. apply lookup_insert_eq.
Qed.

(** X5. Once [process_mutex] has processed an ATOMIC_UNLOCK or an
    ATOMIC_TIMEDWAIT of the mutex [m], the mutex is free; the call returns
    false and changes nothing but this mutex and the scheduler, and
    [check_action_enabled] answers true for every lock of [m]. *)
Theorem unlock_then_enabled st (curr : act_ptr) (c : ModelAction) (m : loc)
    (b : bool) st' :
  actions st !! curr = Some c ->
  get_type c = ATOMIC_UNLOCK \/ get_type c = ATOMIC_TIMEDWAIT ->
  get_mutex c = Some m ->
  process_mutex curr st = Ok (b, st') ->
  b = false /\
  st' = set_mutexes (<[m := mkMutexState None]> (mutexes st))
          (set_scheduler (scheduler st') st) /\
  forall (other : act_ptr) (o : ModelAction),
    actions st' !! other = Some o -> is_lock o = true -> get_mutex o = Some m ->
    check_action_enabled other st' = Ok (true, st').
Proof.
  intros Hc Htype Hm Hrun.
  assert (Hstate : b = false /\
            st' = set_mutexes (<[m := mkMutexState None]> (mutexes st))
                    (set_scheduler (scheduler st') st)).
  { unfold process_mutex in Hrun.
    apply bind_ok in Hrun as (c' & s & Hread & Hrun).
    apply read_ok in Hread as [Hread ->].
    unfold get_action in Hread. rewrite Hc in Hread. injection Hread as <-.
    rewrite Hm in Hrun.
    assert (Hbody : (bind (wake_lock_waiters curr) (fun _ =>
                       bind (set_locked (Some m) None) (fun _ => ret false))) st
                    = Ok (b, st'))
      by (destruct Htype as [Ht | Ht]; rewrite Ht in Hrun; exact Hrun).
    clear Hrun.
    apply bind_ok in Hbody as (u & s1 & Hwake & Hbody).
    apply wake_lock_waiters_scheduler in Hwake.
    apply bind_ok in Hbody as (u' & s2 & Hset & Hbody).
    apply ret_ok in Hbody as [-> ->]. split; [reflexivity |].
    unfold set_locked in Hset.
    apply bind_ok in Hset as (m' & s & Hm' & Hset). apply lift_ok in Hm' as [[= <-] ->].
    apply bind_ok in Hset as (old & s & Hold & Hset). apply read_ok in Hold as [_ ->].
    apply modify_ok in Hset as ->. rewrite Hwake. reflexivity. }
  destruct Hstate as [-> Hst']. split; [reflexivity |]. split; [exact Hst' |].
  intros other o Ho Hlock Hmo.
  apply (lock_enabledness st' other o m None Ho Hlock Hmo).
  rewrite Hst'. apply lookup_insert_eq.
Qed.

(** *** Condition variables *)

Lemma notify_all_loop (waiters : list act_ptr) st (r : unit + Empty_set) st' :
  for_eachM (R := Empty_set) (fun rit (_ : unit) =>
    bind (read (fun st => get_thread_of st rit)) (fun thr =>
    bind (lift (deref thr)) (fun thr =>
    bind (modify (fun st => set_scheduler (sched_wake thr (scheduler st)) st))
         (fun _ => ret (Continue tt))))) waiters tt st = Ok (r, st') ->
  exists thrs,
    Forall2 (fun w t => exists a, actions st !! w = Some a /\
                                  get_thread st (get_tid a) = Some t) waiters thrs /\
    st' = set_scheduler (foldl (fun s t => sched_wake t s) (scheduler st) thrs) st.
Proof.
  revert st. induction waiters as [| w waiters IH]; intros st Hloop; simpl in Hloop.
  - apply ret_ok in Hloop as [_ ->]. exists []. split; [constructor |].
    destruct st; reflexivity.
  - apply bind_ok in Hloop as (ctl & s1 & Hturn & Hloop).
    apply bind_ok in Hturn as (thr & z & Hthr & Hturn).
    apply read_ok in Hthr as [Hthr ->].
    apply bind_ok in Hturn as (t & z & Ht & Hturn). apply lift_ok in Ht as [Ht ->].
    apply bind_ok in Hturn as (u & z & Hwake & Hturn). apply modify_ok in Hwake as ->.
    apply ret_ok in Hturn as [-> ->].
    destruct thr as [t' |]; simpl in Ht; [| discriminate]. injection Ht as ->.
    apply rbind_ok in Hthr as (a & Ha & [= Hthread]).
    unfold get_action in Ha. destruct (actions st !! w) as [a' |] eqn:Hw;
      simpl in Ha; [| discriminate]. injection Ha as ->.
    apply IH in Hloop as (thrs & Hall & ->).
    exists (t :: thrs). split; [| reflexivity].
    constructor; [eauto | exact Hall].
Qed.

(** X6. An ATOMIC_NOTIFY_ALL wakes the thread of every waiter of its
    location, in the order of the waiter list, and leaves the list empty;
    it returns false and changes nothing else.  A notify-one processed at
    the location right after it finds no waiter and changes nothing. *)
Theorem notify_all_wakes_all st (curr : act_ptr) (c : ModelAction) (b : bool) st' :
  actions st !! curr = Some c ->
  get_type c = ATOMIC_NOTIFY_ALL ->
  process_mutex curr st = Ok (b, st') ->
  b = false /\
  (exists thrs,
     Forall2 (fun w t => exists a, actions st !! w = Some a /\
                                   get_thread st (get_tid a) = Some t)
             (default [] (condvar_waiters_map st !! get_location c)) thrs /\
     st' = set_condvar_waiters_map
             (<[get_location c := []]> (condvar_waiters_map st))
             (set_scheduler (foldl (fun s t => sched_wake t s) (scheduler st) thrs)
                            st)) /\
  forall (n : act_ptr) (na : ModelAction),
    actions st' !! n = Some na ->
    get_type na = ATOMIC_NOTIFY_ONE ->
    get_location na = get_location c ->
    process_mutex n st' = Ok (false, st').
Proof.
  intros Hc Htype Hrun.
  assert (Hstate : b = false /\ exists thrs,
     Forall2 (fun w t => exists a, actions st !! w = Some a /\
                                   get_thread st (get_tid a) = Some t)
             (default [] (condvar_waiters_map st !! get_location c)) thrs /\
     st' = set_condvar_waiters_map
             (<[get_location c := []]> (condvar_waiters_map st))
             (set_scheduler (foldl (fun s t => sched_wake t s) (scheduler st) thrs)
                            st)).
  { unfold process_mutex in Hrun.
    apply bind_ok in Hrun as (c' & z & Hread & Hrun).
    apply read_ok in Hread as [Hread ->].
    unfold get_action in Hread. rewrite Hc in Hread. injection Hread as <-.
    rewrite Htype in Hrun.
    apply bind_ok in Hrun as (waiters & s1 & Hget & Hrun).
    apply bind_ok in Hrun as (r & s2 & Hloop & Hrun).
    apply bind_ok in Hrun as (u & s3 & Hclear & Hrun).
    apply modify_ok in Hclear as ->. apply ret_ok in Hrun as [-> ->].
    split; [reflexivity |].
    apply notify_all_loop in Hloop as (thrs & Hall & ->).
    unfold get_safe_ptr_action in Hget.
    apply bind_ok in Hget as (hash & z & Hhash & Hget).
    apply gets_ok in Hhash as [-> ->].
    destruct (condvar_waiters_map st !! get_location c) as [tmp |] eqn:Htmp.
    - apply ret_ok in Hget as [-> ->]. exists thrs. split; [exact Hall |]. reflexivity.
    - apply bind_ok in Hget as (u1 & z & Hput & Hget).
      apply modify_ok in Hput as ->. apply ret_ok in Hget as [-> ->].
      inversion Hall; subst. exists []. split; [constructor |].
      simpl. unfold set_condvar_waiters_map, set_scheduler. simpl.
      rewrite insert_insert_eq. reflexivity. }
  destruct Hstate as [-> (thrs & Hall & Hst')].
  split; [reflexivity |]. split; [exists thrs; auto |].
  intros n na Hn Hnotify Hloc.
  unfold process_mutex, bind, read, get_action. rewrite Hn. simpl.
  rewrite Hnotify, Hloc. unfold get_safe_ptr_action, bind, gets.
  assert (Hempty : condvar_waiters_map st' !! get_location c = Some []).
  { rewrite Hst'. apply lookup_insert_eq. }
  rewrite Hempty. reflexivity.
Qed.

(** X7. An ATOMIC_WAIT on the mutex [m] frees the mutex.  When the fuzzer's
    [shouldWait] says so, the action is appended to the waiter list of its
    location, created when missing, and its thread is put to sleep after
    the lock's waiters are woken; otherwise the waiter lists stay as they
    are.  The call returns false and changes no action and no thread. *)
Theorem wait_registers st (curr : act_ptr) (c : ModelAction) (m : loc)
    (b : bool) st' :
  actions st !! curr = Some c ->
  get_type c = ATOMIC_WAIT ->
  get_mutex c = Some m ->
  process_mutex curr st = Ok (b, st') ->
  b = false /\
  exists sch (wait : bool) fz,
    wake_lock_waiters curr st = Ok (tt, set_scheduler sch st) /\
    shouldWait (view st) curr (fuzzer st) = (wait, fz) /\
    if wait then
      exists thr,
        get_thread st (get_tid c) = Some thr /\
        st' = set_scheduler (sched_sleep thr sch)
                (set_condvar_waiters_map
                   (<[get_location c :=
                        default [] (condvar_waiters_map st !! get_location c)
                        ++ [curr]]> (condvar_waiters_map st))
                   (set_fuzzer fz
                      (set_mutexes (<[m := mkMutexState None]> (mutexes st)) st)))
    else
      st' = set_scheduler sch
              (set_fuzzer fz
                 (set_mutexes (<[m := mkMutexState None]> (mutexes st)) st)).
Proof.
  intros Hc Htype Hm Hrun. unfold process_mutex in Hrun.
  apply bind_ok in Hrun as (c' & z & Hread & Hrun).
  apply read_ok in Hread as [Hread ->].
  unfold get_action in Hread. rewrite Hc in Hread. injection Hread as <-.
  rewrite Htype, Hm in Hrun.
  apply bind_ok in Hrun as (u & s1 & Hwake & Hrun). destruct u.
  pose proof (wake_lock_waiters_scheduler _ _ _ _ Hwake) as Hs1.
  apply bind_ok in Hrun as (u & s2 & Hset & Hrun).
  unfold set_locked in Hset.
  apply bind_ok in Hset as (m' & z & Hm' & Hset). apply lift_ok in Hm' as [[= <-] ->].
  apply bind_ok in Hset as (old & z & Hold & Hset). apply read_ok in Hold as [_ ->].
  apply modify_ok in Hset as ->.
  apply bind_ok in Hrun as (wait & s3 & Hwait & Hrun).
  apply bind_ok in Hrun as (u' & s4 & Hsleep & Hrun).
  apply ret_ok in Hrun as [-> ->]. split; [reflexivity |].
  exists (scheduler s1), wait.
  rewrite Hs1 in Hwait. simpl in Hwait.
  change (view (set_mutexes _ (set_scheduler _ st))) with (view st) in Hwait.
  destruct (shouldWait (view st) curr (fuzzer st)) as [wait' fz] eqn:Hask.
  injection Hwait as -> <-.
  exists fz. split; [rewrite <- Hs1; exact Hwake |]. split; [reflexivity |].
  destruct wait.
  - apply bind_ok in Hsleep as (waiters & s5 & Hget & Hsleep).
    apply bind_ok in Hsleep as (u'' & s6 & Hpush & Hsleep).
    apply modify_ok in Hpush as ->.
    apply bind_ok in Hsleep as (t & z & Ht & Hsleep). apply read_ok in Ht as [Ht ->].
    apply bind_ok in Hsleep as (thr & z & Hthr & Hsleep).
    apply lift_ok in Hthr as [Hthr ->]. apply modify_ok in Hsleep as ->.
    destruct t as [t |]; simpl in Hthr; [| discriminate]. injection Hthr as ->.
    unfold get_safe_ptr_action in Hget.
    apply bind_ok in Hget as (hash & z & Hhash & Hget).
    apply gets_ok in Hhash as [-> ->]. simpl in Hget.
    destruct (condvar_waiters_map st !! get_location c) as [tmp |] eqn:Htmp.
    + apply ret_ok in Hget as [-> ->].
      unfold get_thread_of, get_action in Ht. simpl in Ht. rewrite Hc in Ht.
      simpl in Ht. injection Ht as Ht.
      exists thr. split; [exact Ht |]. reflexivity.
    + apply bind_ok in Hget as (u3 & z & Hput & Hget).
      apply modify_ok in Hput as ->. apply ret_ok in Hget as [-> ->].
      unfold get_thread_of, get_action in Ht. simpl in Ht. rewrite Hc in Ht.
      simpl in Ht. injection Ht as Ht.
      exists thr. split; [exact Ht |]. simpl.
      unfold set_scheduler, set_condvar_waiters_map. simpl.
      rewrite insert_insert_eq. reflexivity.
  - apply ret_ok in Hsleep as [_ ->]. reflexivity.
Qed.

(** X8. [process_mutex] is for mutex operations only: on an action of any
    other type it fails its assertion, whatever the state of the engine. *)
Theorem process_mutex_other_types st (curr : act_ptr) (c : ModelAction) :
  actions st !! curr = Some c ->
  is_mutex_op c = false ->
  process_mutex curr st = Err AssertionFailure.
Proof.
  intros Hc Hop. unfold process_mutex, bind, read, get_action. rewrite Hc. simpl.
  unfold is_mutex_op in Hop.
  destruct (get_type c); try reflexivity; vm_compute in Hop; discriminate.
Qed.

(** *** Synchronization *)

Lemma cv_max_lookup (this cv : ClockVector) (k : nat) (x : modelclock_t) :
  this !! k = Some x \/ cv !! k = Some x ->
  exists y, cv_max this cv !! k = Some y /\ x <= y.
Proof.
  revert cv k. induction this as [| c this IH]; intros cv k.
  - intros [Hx | Hx]; [inversion Hx |]. cbn [cv_max].
    exists (Z.max 0 x). split; [| lia].
    revert k Hx. induction cv as [| d cv IHcv]; intros k Hx; [inversion Hx |].
    destruct k as [| k]; simpl in *; [congruence | now apply IHcv].
  - destruct cv as [| d cv].
    + intros [Hx | Hx]; [| inversion Hx]. simpl. exists x. split; [exact Hx | lia].
    + destruct k as [| k]; simpl.
      * intros [[= <-] | [= <-]]; eexists; (split; [reflexivity | lia]).
      * apply IH.
Qed.

Lemma synchronized_since_cv_max (this cv : ClockVector) (t : thread_id_t)
    (n : modelclock_t) :
  synchronized_since this t n = true \/ synchronized_since cv t n = true ->
  synchronized_since (cv_max this cv) t n = true.
Proof.
  assert (Hone : forall v, synchronized_since v t n = true ->
            0 <= t /\ exists x, v !! Z.to_nat t = Some x /\ n <= x).
  { intros v Hv. unfold synchronized_since, getClock, vsize, ClockVector in *.
    apply andb_prop in Hv as [Hv Hn]. apply andb_prop in Hv as [Ht Hsize].
    apply Z.leb_le in Ht. apply Z.ltb_lt in Hsize. apply Z.leb_le in Hn.
    split; [exact Ht |].
    destruct (lookup_lt_is_Some_2 v (Z.to_nat t)) as [x Hx]; [lia |].
    exists x. split; [exact Hx |].
    rewrite (proj2 (Z.ltb_ge t 0)), Hx in Hn by lia. exact Hn. }
  intros Hseen.
  assert (Hx : 0 <= t /\ exists x, (this !! Z.to_nat t = Some x \/
                                    cv !! Z.to_nat t = Some x) /\ n <= x).
  { destruct Hseen as [Hs | Hs]; apply Hone in Hs as (Ht & x & Hx & Hn);
      (split; [exact Ht |]); exists x; auto. }
  destruct Hx as (Ht & x & Hx & Hn).
  apply (cv_max_lookup this cv) in Hx as (y & Hy & Hxy).
  unfold synchronized_since, getClock, vsize, ClockVector in *.
  pose proof (lookup_lt_Some _ _ _ Hy) as Hlen.
  destruct (Z.ltb_spec t 0); [lia |]. rewrite Hy. simpl.
  rewrite !andb_true_iff, !Z.leb_le, Z.ltb_lt. lia.
Qed.

(** X9. [synchronize(first, second)] fails its assertion when [second] is
    earlier than [first], and dereferences NULL when [first] is NULL.
    Otherwise it returns true and changes only the clock vector of
    [second], which becomes the merge of the two: whatever either vector
    had seen before, the vector of [second] has seen afterwards. *)
Theorem synchronize_inherits st (first second : act_ptr) (f s : ModelAction) :
  actions st !! first = Some f ->
  actions st !! second = Some s ->
  synchronize None second st = Err NullDeref /\
  (act_lt s f = true ->
   synchronize (Some first) second st = Err AssertionFailure) /\
  (act_lt s f = false ->
   forall fcv scv,
     get_cv f = Some fcv -> get_cv s = Some scv ->
     synchronize (Some first) second st
     = Ok (true, set_actions
                   (<[second := set_cv (Some (cv_max scv fcv)) s]> (actions st)) st) /\
     forall t n,
       synchronized_since fcv t n = true \/ synchronized_since scv t n = true ->
       synchronized_since (cv_max scv fcv) t n = true).
Proof.
  intros Hf Hs. split; [reflexivity |].
  unfold synchronize, bind, lift, read, get_action. simpl. rewrite Hf. simpl.
  rewrite Hs. simpl. split.
  - intros ->. reflexivity.
  - intros -> fcv scv Hfcv Hscv. split.
    + unfold synchronize_with, bind, lift, read, get_action. rewrite Hs. simpl.
      rewrite Hscv, Hfcv. simpl.
      unfold update_action, bind, read, modify, get_action. rewrite Hs. reflexivity.
    + intros t n Hseen. apply synchronized_since_cv_max. tauto.
Qed.

(** *** Threads *)

Lemma vresize_length {A} (n : Z) (d : A) (v : list A) :
  length (vresize n d v) = Z.to_nat n.
Proof. unfold vresize. rewrite length_app, length_take, length_replicate. lia. Qed.

Lemma vresize_lookup_old {A} (n : Z) (d : A) (v : list A) (k : nat) :
  (k < length v)%nat -> (k < Z.to_nat n)%nat -> vresize n d v !! k = v !! k.
Proof.
  intros Hk Hn. unfold vresize.
  rewrite lookup_app_l by (rewrite length_take; lia).
  apply lookup_take_lt. exact Hn.
Qed.

Lemma vresize_lookup_new {A} (n : Z) (d : A) (v : list A) (k : nat) :
  (length v <= k)%nat -> (k < Z.to_nat n)%nat -> vresize n d v !! k = Some d.
Proof.
  intros Hk Hn. unfold vresize.
  rewrite lookup_app_r by (rewrite length_take; lia).
  apply lookup_replicate_2. rewrite length_take. lia.
Qed.

Lemma to_unsigned_small (n : Z) : 0 <= n < 2 ^ 32 -> to_unsigned n = n.
Proof. intros Hn. unfold to_unsigned. apply Z.mod_small. exact Hn. Qed.

Lemma get_thread_lookup st (tid : thread_id_t) :
  get_thread st tid = mjoin (thread_map st !! Z.to_nat (to_unsigned tid)).
Proof.
  unfold get_thread, id_to_int, vsize.
  destruct (Z.ltb_spec (to_unsigned tid) (Z.of_nat (length (thread_map st))))
    as [Hlt | Hge]; [reflexivity |].
  rewrite lookup_ge_None_2; [reflexivity |].
  unfold to_unsigned in *.
  pose proof (Z.mod_pos_bound tid (2 ^ 32) ltac:(lia)). lia.
Qed.

(** The thread map once [add_thread] has registered [t] under the id [i]. *)
Lemma registered_lookup (tm : list (option thr_ptr)) (i : Z) (t : thr_ptr) :
  0 <= i ->
  let tm' := <[Z.to_nat i := Some t]>
               (if vsize tm <=? i then vresize (i + 1) None tm else tm) in
  vsize tm' = Z.max (vsize tm) (i + 1) /\
  tm' !! Z.to_nat i = Some (Some t) /\
  forall j, j <> Z.to_nat i -> mjoin (tm' !! j) = mjoin (tm !! j).
Proof.
  intros Hi. cbv zeta. unfold vsize. rewrite length_insert.
  destruct (Z.leb_spec (Z.of_nat (length tm)) i) as [Hgrow | Hfits].
  - rewrite vresize_length. split; [lia |]. split.
    + apply list_lookup_insert_eq. rewrite vresize_length. lia.
    + intros j Hj. rewrite list_lookup_insert_ne by congruence.
      destruct (Nat.lt_ge_cases j (length tm)) as [Hold | Hnew].
      * rewrite vresize_lookup_old by lia. reflexivity.
      * rewrite (lookup_ge_None_2 tm j) by lia.
        destruct (Nat.lt_ge_cases j (Z.to_nat (i + 1))) as [Hin | Hout].
        -- rewrite vresize_lookup_new by lia. reflexivity.
        -- rewrite lookup_ge_None_2 by (rewrite vresize_length; lia). reflexivity.
  - split; [lia |]. split.
    + apply list_lookup_insert_eq. lia.
    + intros j Hj. rewrite list_lookup_insert_ne by congruence. reflexivity.
Qed.

Lemma add_thread_run st (t : thr_ptr) (th : Thread) :
  threads st !! t = Some th ->
  let i := to_unsigned (get_id th) in
  i < 2 ^ 32 - 1 ->
  add_thread t st
  = Ok (tt, set_scheduler
              (if is_model_thread th then scheduler st
               else sched_add_thread t (scheduler st))
              (set_thread_map
                 (<[Z.to_nat i := Some t]>
                    (if vsize (thread_map st) <=? i
                     then vresize (i + 1) None (thread_map st)
                     else thread_map st)) st)).
Proof.
  intros Ht. cbv zeta. intros Hmax. unfold add_thread, id_to_int.
  unfold bind at 1, read at 1, get_thread_obj. rewrite Ht. cbn [deref].
  unfold bind at 1, modify at 1.
  assert (Hi : 0 <= to_unsigned (get_id th)).
  { unfold to_unsigned. apply Z.mod_pos_bound. lia. }
  rewrite (to_unsigned_small (to_unsigned (get_id th) + 1)) by lia.
  set (i := to_unsigned (get_id th)) in *.
  unfold bind at 1, read at 1, vset.
  destruct (Z.leb_spec (vsize (thread_map st)) i) as [Hgrow | Hfits].
  - cbn [thread_map set_thread_map]. unfold vsize at 1.
    rewrite vresize_length.
    destruct (Z.leb_spec 0 i), (Z.ltb_spec i (Z.of_nat (Z.to_nat (i + 1))));
      try lia. cbn [andb].
    unfold bind at 1, modify at 1.
    destruct (is_model_thread th); reflexivity.
  - destruct (Z.leb_spec 0 i), (Z.ltb_spec i (vsize (thread_map st))); try lia.
    cbn [andb]. unfold bind at 1, modify at 1.
    destruct (is_model_thread th); destruct st; reflexivity.
Qed.

(** X10. [add_thread] registers a Thread under its id: afterwards
    [get_thread] of the id returns the Thread, [get_thread] of every other
    id returns what it returned before, the thread map has grown just enough
    to hold the id, and the scheduler has been told of the Thread unless it
    is the model thread.  The id is below the largest unsigned number: for
    that one the new size [i + 1] of the map wraps around to 0, the map is
    emptied, and the Thread is stored outside it. *)
Theorem add_thread_registers st (t : thr_ptr) (th : Thread) :
  threads st !! t = Some th ->
  (0 <= get_id th < 2 ^ 32 - 1 ->
   exists st',
     add_thread t st = Ok (tt, st') /\
     get_thread st' (get_id th) = Some t /\
     (forall tid, to_unsigned tid <> get_id th ->
                  get_thread st' tid = get_thread st tid) /\
     vsize (thread_map st') = Z.max (vsize (thread_map st)) (get_id th + 1) /\
     st' = set_scheduler
             (if is_model_thread th then scheduler st
              else sched_add_thread t (scheduler st))
             (set_thread_map (thread_map st') st)) /\
  (get_id th = 2 ^ 32 - 1 ->
   vsize (thread_map st) < 2 ^ 32 ->
   add_thread t st = Err OutOfBounds).
Proof.
  intros Ht. split.
  - intros Hid.
    assert (Hsmall : to_unsigned (get_id th) = get_id th)
      by (apply to_unsigned_small; lia).
    eexists. split; [apply (add_thread_run st t th Ht); rewrite Hsmall; lia |].
    cbv zeta. rewrite Hsmall.
    destruct (registered_lookup (thread_map st) (get_id th) t)
      as (Hsize & Hself & Hothers); [lia |].
    rewrite !get_thread_lookup. cbn [thread_map set_scheduler set_thread_map].
    rewrite Hsmall.
    split; [rewrite Hself; reflexivity |].
    split.
    + intros tid Htid. rewrite !get_thread_lookup.
      cbn [thread_map set_scheduler set_thread_map]. apply Hothers.
      unfold to_unsigned in *.
      pose proof (Z.mod_pos_bound tid (2 ^ 32) ltac:(lia)). lia.
    + split; [exact Hsize | reflexivity].
  - intros Hid Hsize. unfold add_thread, id_to_int.
    unfold bind at 1, read at 1, get_thread_obj. rewrite Ht. cbn [deref].
    rewrite Hid. change (to_unsigned (2 ^ 32 - 1)) with 4294967295.
    change (to_unsigned (4294967295 + 1)) with 0.
    change (2 ^ 32) with 4294967296 in Hsize.
    unfold bind at 1, modify at 1.
    destruct (Z.leb_spec (vsize (thread_map st)) 4294967295) as [_ | Hbig]; [| lia].
    unfold bind at 1, read at 1, vset.
    cbn [thread_map set_thread_map]. unfold vsize. rewrite vresize_length.
    reflexivity.
Qed.

(** *** Searches from the tail of an action list *)

Lemma find_action_none st (p : ModelAction -> bool) (l : list act_ptr) :
  find_action st p l = Ok None <-> no_match st p l.
Proof.
  unfold no_match. induction l as [| rit l IH]; simpl.
  - split; [intros _ y Hy; inversion Hy | reflexivity].
  - unfold get_action. destruct (actions st !! rit) as [a |] eqn:Ha; simpl.
    + destruct (p a) eqn:Hp.
      * split; [discriminate |]. intros Hno.
        destruct (Hno rit) as (ya & Hya & Hpy); [constructor |]. congruence.
      * rewrite IH. split.
        -- intros Hno y Hy. apply elem_of_cons in Hy as [-> | Hy]; eauto.
        -- intros Hno y Hy. apply Hno. now constructor.
    + split; [discriminate |]. intros Hno.
      destruct (Hno rit) as (ya & Hya & _); [constructor |]. congruence.
Qed.

Lemma find_action_first st (p : ModelAction -> bool) (l : list act_ptr)
    (u : act_ptr) :
  find_action st p l = Ok (Some u) <->
  exists l1 l2 ua, l = l1 ++ u :: l2 /\ actions st !! u = Some ua /\ p ua = true /\
                   no_match st p l1.
Proof.
  unfold no_match. induction l as [| rit l IH]; simpl.
  - split; [discriminate |]. intros (l1 & l2 & ua & Hl & _).
    destruct l1; discriminate.
  - unfold get_action. destruct (actions st !! rit) as [a |] eqn:Ha; simpl.
    + destruct (p a) eqn:Hp.
      * split.
        -- intros [= <-]. exists [], l, a. repeat split; auto.
           intros y Hy. inversion Hy.
        -- intros (l1 & l2 & ua & Hl & Hua & Hpu & Hno).
           destruct l1 as [| x l1]; simpl in Hl; injection Hl as -> ->; [reflexivity |].
           destruct (Hno x) as (ya & Hya & Hpy); [constructor |]. congruence.
      * rewrite IH. split.
        -- intros (l1 & l2 & ua & -> & Hua & Hpu & Hno).
           exists (rit :: l1), l2, ua. repeat split; auto.
           intros y Hy. apply elem_of_cons in Hy as [-> | Hy]; eauto.
        -- intros (l1 & l2 & ua & Hl & Hua & Hpu & Hno).
           destruct l1 as [| x l1]; simpl in Hl; injection Hl as -> ->.
           ++ congruence.
           ++ exists l1, l2, ua. repeat split; auto.
              intros y Hy. apply Hno. now constructor.
    + split; [discriminate |]. intros (l1 & l2 & ua & Hl & Hua & Hpu & Hno).
      destruct l1 as [| x l1]; simpl in Hl; injection Hl as -> ->; [congruence |].
      destruct (Hno x) as (ya & Hya & _); [constructor |]. congruence.
Qed.

Lemma elem_of_rev {A} (l : list A) (y : A) : y ∈ rev l <-> y ∈ l.
Proof. rewrite !list_elem_of_In. symmetry. apply in_rev. Qed.

Lemma find_action_last_match st (p : ModelAction -> bool) (l : list act_ptr)
    (u : act_ptr) :
  find_action st p (rev l) = Ok (Some u) <-> last_match st p l u.
Proof.
  rewrite find_action_first. unfold last_match, no_match. split.
  - intros (l1 & l2 & ua & Hl & Hua & Hp & Hno).
    exists (rev l2), (rev l1), ua. repeat split; auto.
    + rewrite <- (rev_involutive l), Hl, rev_app_distr. simpl.
      now rewrite <- app_assoc.
    + intros y Hy. apply Hno, elem_of_rev, Hy.
  - intros (l1 & l2 & ua & -> & Hua & Hp & Hno).
    exists (rev l2), (rev l1), ua. repeat split; auto.
    + rewrite rev_app_distr. simpl. now rewrite <- app_assoc.
    + intros y Hy. apply Hno, elem_of_rev, Hy.
Qed.

Lemma find_action_no_match_rev st (p : ModelAction -> bool) (l : list act_ptr) :
  find_action st p (rev l) = Ok None <-> no_match st p l.
Proof.
  rewrite find_action_none. unfold no_match.
  split; intros Hno y Hy; apply Hno, elem_of_rev, Hy.
Qed.

(** X15. [get_last_unlock] dereferences NULL when [obj_map] has no list for
    the location of the action.  Otherwise it returns the last action of
    that list that is an unlock or a wait, and NULL exactly when the list
    has none. *)
Theorem get_last_unlock_exact st (curr : act_ptr) (c : ModelAction) :
  actions st !! curr = Some c ->
  (obj_map st !! get_location c = None ->
   get_last_unlock st curr = Err NullDeref) /\
  (forall lst,
     obj_map st !! get_location c = Some lst ->
     (forall u, get_last_unlock st curr = Ok (Some u) <->
                last_match st (fun act => is_unlock act || is_wait act) lst u) /\
     (get_last_unlock st curr = Ok None <->
      no_match st (fun act => is_unlock act || is_wait act) lst)).
Proof.
  intros Hc. unfold get_last_unlock, get_action. rewrite Hc. simpl. split.
  - intros ->. reflexivity.
  - intros lst ->. simpl. split.
    + intros u. apply find_action_last_match.
    + apply find_action_no_match_rev.
Qed.

(** *** The lists of actions *)

Lemma vset_ok {A} (v v' : list A) (i : Z) (a : A) :
  vset v i a = Ok v' ->
  0 <= i < vsize v /\ v' = <[Z.to_nat i := a]> v /\ vget v' i = Ok a.
Proof.
  unfold vset, vsize.
  destruct (Z.leb_spec 0 i), (Z.ltb_spec i (Z.of_nat (length v)));
    try discriminate.
  intros [= <-]. split; [lia |]. split; [reflexivity |].
  apply vget_lookup. split; [lia |]. apply list_lookup_insert_eq. lia.
Qed.

Lemma index_at_run (location : loc) (act : act_ptr) st :
  index_at location act st
  = Ok (tt, set_obj_map
              (<[location := default [] (obj_map st !! location) ++ [act]]>
                 (obj_map st)) st).
Proof.
  unfold index_at, get_safe_ptr_action, bind, gets, modify, ret.
  destruct (obj_map st !! location) as [lst |]; [reflexivity |].
  cbn [obj_map set_obj_map default]. rewrite insert_insert_eq. reflexivity.
Qed.

Lemma index_thrd_at_ok (location : loc) (tid : Z) (act : act_ptr) st
    (u : unit) st' :
  index_thrd_at location tid act st = Ok (u, st') ->
  exists vec l,
    st' = set_obj_thrd_map (<[location := vec]> (obj_thrd_map st)) st /\
    vget vec tid = Ok (l ++ [act]).
Proof.
  unfold index_thrd_at. intros Hrun.
  apply bind_ok in Hrun as (vec0 & s1 & Hget & Hrun).
  apply bind_ok in Hrun as (vec1 & z & Hgrow & Hrun).
  apply gets_ok in Hgrow as [_ ->].
  apply bind_ok in Hrun as (vec & z & Hpush & Hrun).
  apply lift_ok in Hpush as [Hpush ->]. apply modify_ok in Hrun as ->.
  unfold push_back_at in Hpush. apply rbind_ok in Hpush as (l & _ & Hset).
  apply vset_ok in Hset as (_ & _ & Hvget).
  exists vec, l. split; [| exact Hvget].
  unfold get_safe_ptr_vect_action in Hget.
  apply bind_ok in Hget as (hash & z & Hhash & Hget).
  apply gets_ok in Hhash as [-> ->].
  destruct (obj_thrd_map st !! location).
  - apply ret_ok in Hget as [_ ->]. reflexivity.
  - apply bind_ok in Hget as (u' & z & Hput & Hget).
    apply modify_ok in Hput as ->. apply ret_ok in Hget as [_ ->].
    unfold set_obj_thrd_map. simpl. rewrite insert_insert_eq. reflexivity.
Qed.

(** What [add_action_to_lists] leaves of the engine. *)
Lemma add_action_to_lists_state st (act : act_ptr) (a : ModelAction) st' :
  actions st !! act = Some a ->
  add_action_to_lists act st = Ok (tt, st') ->
  actions st' = actions st /\ threads st' = threads st /\
  thread_map st' = thread_map st /\
  action_trace st' = action_trace st ++ [act] /\
  (exists l, obj_map st' !! get_location a = Some (l ++ [act])) /\
  (is_wait a = true -> exists l, obj_map st' !! get_value a = Some (l ++ [act])) /\
  (exists v, vset (if to_int (vsize (thrd_last_action st)) <=? get_tid a
                   then vresize (get_num_threads st) None (thrd_last_action st)
                   else thrd_last_action st) (get_tid a) (Some act) = Ok v /\
             thrd_last_action st' = v) /\
  (if is_fence a && is_release a then
     exists v, vset (if to_int (vsize (thrd_last_fence_release st)) <=? get_tid a
                     then vresize (get_num_threads st) None
                                  (thrd_last_fence_release st)
                     else thrd_last_fence_release st) (get_tid a) (Some act) = Ok v /\
               thrd_last_fence_release st' = v
   else thrd_last_fence_release st' = thrd_last_fence_release st).
Proof.
  intros Ha Hrun. unfold add_action_to_lists in Hrun.
  apply bind_ok in Hrun as (a' & z & Hread & Hrun).
  apply read_ok in Hread as [Hread ->].
  unfold get_action in Hread. rewrite Ha in Hread. injection Hread as <-.
  unfold id_to_int in Hrun.
  apply bind_ok in Hrun as (u1 & s1 & Hidx & Hrun).
  rewrite index_at_run in Hidx. injection Hidx as <- <-.
  apply bind_ok in Hrun as (u2 & s2 & Htrace & Hrun). apply modify_ok in Htrace as ->.
  apply bind_ok in Hrun as (u3 & s3 & Hthrd & Hrun).
  apply index_thrd_at_ok in Hthrd as (vec & l & -> & _).
  apply bind_ok in Hrun as (u4 & s4 & Hgrow & Hrun). apply modify_ok in Hgrow as ->.
  apply bind_ok in Hrun as (v & z & Hv & Hrun). apply read_ok in Hv as [Hv ->].
  apply bind_ok in Hrun as (u5 & s5 & Hlast & Hrun). apply modify_ok in Hlast as ->.
  apply bind_ok in Hrun as (u6 & s6 & Hfence & Hrun).
  (* the state before the fence and wait parts *)
  match type of Hfence with
  | _ ?s = _ => set (s5 := s) in *
  end.
  assert (H5 : actions s5 = actions st /\ threads s5 = threads st /\
               thread_map s5 = thread_map st /\
               action_trace s5 = action_trace st ++ [act] /\
               obj_map s5 = <[get_location a :=
                                default [] (obj_map st !! get_location a) ++ [act]]>
                              (obj_map st) /\
               thrd_last_action s5 = v /\
               thrd_last_fence_release s5 = thrd_last_fence_release st /\
               get_num_threads s5 = get_num_threads st).
  { subst s5.
    destruct (to_int (vsize (thrd_last_action st)) <=? get_tid a) eqn:Hle;
      cbn -[vresize]; rewrite ?Hle; repeat split; reflexivity. }
  destruct H5 as (Hacts & Hthreads & Hmap & Htrace & Hobj & Hla & Hfr & Hnum).
  assert (Hv' : vset (if to_int (vsize (thrd_last_action st)) <=? get_tid a
                      then vresize (get_num_threads st) None (thrd_last_action st)
                      else thrd_last_action st) (get_tid a) (Some act) = Ok v).
  { revert Hv. cbn -[vresize to_int].
    destruct (to_int (vsize (thrd_last_action st)) <=? get_tid a); cbn -[vresize];
      auto. }
  clearbody s5.
  assert (H6 : actions s6 = actions s5 /\ threads s6 = threads s5 /\
               thread_map s6 = thread_map s5 /\
               action_trace s6 = action_trace s5 /\
               obj_map s6 = obj_map s5 /\ obj_thrd_map s6 = obj_thrd_map s5 /\
               thrd_last_action s6 = thrd_last_action s5 /\
               if is_fence a && is_release a then
                 exists v, vset (if to_int (vsize (thrd_last_fence_release s5))
                                    <=? get_tid a
                                 then vresize (get_num_threads s5) None
                                              (thrd_last_fence_release s5)
                                 else thrd_last_fence_release s5)
                                (get_tid a) (Some act) = Ok v /\
                           thrd_last_fence_release s6 = v
               else thrd_last_fence_release s6 = thrd_last_fence_release s5).
  { destruct (is_fence a && is_release a).
    - apply bind_ok in Hfence as (u7 & s7 & Hgrow & Hfence).
      apply modify_ok in Hgrow as ->.
      apply bind_ok in Hfence as (v' & z & Hv'' & Hfence).
      apply read_ok in Hv'' as [Hv'' ->]. apply modify_ok in Hfence as ->.
      destruct (to_int (vsize (thrd_last_fence_release s5)) <=? get_tid a) eqn:Hle;
        cbn -[vresize to_int] in *; repeat split; eauto.
    - apply ret_ok in Hfence as [_ ->]. repeat split; reflexivity. }
  destruct H6 as (Hacts6 & Hthreads6 & Hmap6 & Htrace6 & Hobj6 & _ & Hla6 & Hfr6).
  assert (H7 : actions st' = actions s6 /\ threads st' = threads s6 /\
               thread_map st' = thread_map s6 /\
               action_trace st' = action_trace s6 /\
               thrd_last_action st' = thrd_last_action s6 /\
               thrd_last_fence_release st' = thrd_last_fence_release s6 /\
               obj_map st' = if is_wait a
                             then <[get_value a :=
                                      default [] (obj_map s6 !! get_value a)
                                      ++ [act]]> (obj_map s6)
                             else obj_map s6).
  { destruct (is_wait a).
    - apply bind_ok in Hrun as (u7 & s7 & Hidx & Hrun).
      rewrite index_at_run in Hidx. injection Hidx as <- <-.
      apply index_thrd_at_ok in Hrun as (vec' & l' & -> & _).
      repeat split; reflexivity.
    - apply ret_ok in Hrun as [_ ->]. repeat split; reflexivity. }
  destruct H7 as (Hacts7 & Hthreads7 & Hmap7 & Htrace7 & Hla7 & Hfr7 & Hobj7).
  split; [congruence |]. split; [congruence |]. split; [congruence |].
  split; [congruence |]. split; [| split; [| split]].
  - rewrite Hobj7, Hobj6, Hobj.
    destruct (is_wait a).
    + destruct (decide (get_value a = get_location a)) as [Heq | Hne].
      * rewrite Heq, lookup_insert_eq. eauto.
      * rewrite lookup_insert_ne by congruence. rewrite lookup_insert_eq. eauto.
    + rewrite lookup_insert_eq. eauto.
  - intros Hwait. rewrite Hobj7, Hwait, lookup_insert_eq. eauto.
  - exists v. split; [exact Hv' | congruence].
  - destruct (is_fence a && is_release a).
    + destruct Hfr6 as (v' & Hv'' & Hv6). exists v'.
      rewrite Hfr, Hnum in Hv''. split; [exact Hv'' | congruence].
    + congruence.
Qed.

(** X17. [add_action_to_lists] files the action at the end of the action
    trace, of the list of its location in [obj_map] and of the list of its
    thread there in [obj_thrd_map], and records it as the last action of
    its thread: [get_last_action] and [get_parent_action] of the thread
    return it afterwards.  The last release fence of the thread becomes the
    action when it is a release fence, and is kept otherwise. *)
Theorem add_action_to_lists_indexes st (act : act_ptr) (a : ModelAction) st' :
  actions st !! act = Some a ->
  get_num_threads st < 2 ^ 31 ->
  vsize (thrd_last_action st) < 2 ^ 31 ->
  vsize (thrd_last_fence_release st) < 2 ^ 31 ->
  add_action_to_lists act st = Ok (tt, st') ->
  action_trace st' = action_trace st ++ [act] /\
  (exists l, obj_map st' !! get_location a = Some (l ++ [act])) /\
  get_last_action st' (get_tid a) = Ok (Some act) /\
  get_parent_action st' (get_tid a) = Ok (Some act) /\
  (if is_fence a && is_release a
   then get_last_fence_release st' (get_tid a) = Ok (Some act)
   else thrd_last_fence_release st' = thrd_last_fence_release st).
Proof.
  intros Ha Hnum Hsize Hfsize Hrun.
  destruct (add_action_to_lists_state st act a st' Ha Hrun)
    as (_ & _ & _ & Htrace & Hobj & _ & (v & Hv & Hla) & Hfence).
  assert (Hlookup : forall (tbl : list (option act_ptr)) v',
            vsize tbl < 2 ^ 31 ->
            vset (if to_int (vsize tbl) <=? get_tid a
                  then vresize (get_num_threads st) None tbl else tbl)
                 (get_tid a) (Some act) = Ok v' ->
            (if id_to_int (get_tid a) <? to_int (vsize v')
             then vget v' (id_to_int (get_tid a)) else Ok None) = Ok (Some act)).
  { intros tbl v' Htbl Hset. apply vset_ok in Hset as (Hrange & -> & Hget).
    unfold id_to_int. unfold vsize in *. rewrite length_insert.
    assert (Hlen : Z.of_nat (length (if to_int (Z.of_nat (length tbl)) <=? get_tid a
                     then vresize (get_num_threads st) None tbl else tbl)) < 2 ^ 31).
    { destruct (to_int (Z.of_nat (length tbl)) <=? get_tid a);
        [rewrite vresize_length |]; lia. }
    rewrite to_int_small by lia.
    destruct (Z.ltb_spec (get_tid a)
                (Z.of_nat (length (if to_int (Z.of_nat (length tbl)) <=? get_tid a
                     then vresize (get_num_threads st) None tbl else tbl))));
      [exact Hget | lia]. }
  assert (Hlast : get_last_action st' (get_tid a) = Ok (Some act)).
  { unfold get_last_action. rewrite Hla.
    apply (Hlookup (thrd_last_action st) v Hsize Hv). }
  split; [exact Htrace |]. split; [exact Hobj |]. split; [exact Hlast |].
  split.
  - unfold get_parent_action. rewrite Hlast. reflexivity.
  - destruct (is_fence a && is_release a); [| exact Hfence].
    destruct Hfence as (v' & Hv' & Hfr).
    unfold get_last_fence_release. rewrite Hfr.
    apply (Hlookup (thrd_last_fence_release st) v' Hfsize Hv').
Qed.

(** X18. A wait is filed under its mutex too: once [add_action_to_lists]
    has processed an ATOMIC_WAIT or ATOMIC_TIMEDWAIT, [get_last_unlock] of
    any action on the mutex, the value of the wait, returns the wait. *)
Theorem wait_is_last_unlock st (act : act_ptr) (a : ModelAction) st' :
  actions st !! act = Some a ->
  is_wait a = true ->
  add_action_to_lists act st = Ok (tt, st') ->
  forall (curr : act_ptr) (c : ModelAction),
    actions st' !! curr = Some c ->
    get_location c = get_value a ->
    get_last_unlock st' curr = Ok (Some act).
Proof.
  intros Ha Hwait Hrun curr c Hc Hloc.
  destruct (add_action_to_lists_state st act a st' Ha Hrun)
    as (Hacts & _ & _ & _ & _ & Hmutex & _).
  destruct (Hmutex Hwait) as [l Hl].
  unfold get_last_unlock, get_action. rewrite Hc. cbn [deref rbind].
  rewrite Hloc, Hl. cbn [deref rbind].
  rewrite rev_app_distr. cbn [rev app find_action].
  unfold get_action. rewrite Hacts, Ha. cbn [deref rbind].
  rewrite Hwait, orb_true_r. reflexivity.
Qed.

(** *** Candidates of a read *)

Lemma walked_thread_elem st (curr : act_ptr) (c : ModelAction) (l : list act_ptr)
    (w : act_ptr) :
  w ∈ walked_thread st curr c l ->
  w <> curr /\ w ∈ l /\ is_Some (actions st !! w).
Proof.
  induction l as [| act l IH]; simpl; [intros Hw; inversion Hw |].
  destruct (decide (act = curr)) as [-> | Hne].
  - intros Hw. destruct (IH Hw) as (Hcurr & Hin & Hsome).
    split; [exact Hcurr |]. split; [now constructor | exact Hsome].
  - destruct (actions st !! act) as [a |] eqn:Hact; [| intros Hw; inversion Hw].
    intros Hw. apply elem_of_cons in Hw as [-> | Hw].
    + split; [exact Hne |]. split; [constructor | eauto].
    + assert (Hrest : w ∈ walked_thread st curr c l).
      { destruct (happens_before a c) as [[|] | e];
          [inversion Hw | exact Hw | exact Hw]. }
      destruct (IH Hrest) as (Hcurr & Hin & Hsome).
      split; [exact Hcurr |]. split; [now constructor | exact Hsome].
Qed.

(** The candidate set, thread list by thread list. *)
Lemma build_may_read_from_walk st (curr : act_ptr) (c : ModelAction)
    (rf_set : list act_ptr) :
  actions st !! curr = Some c ->
  build_may_read_from st curr = Ok rf_set ->
  exists lists,
    obj_wr_thrd_map st !! get_location c = Some lists /\
    forall w, w ∈ rf_set <->
      exists lst, lst ∈ lists /\ w ∈ walked_thread st curr c (rev lst) /\
        exists a, actions st !! w = Some a /\
                  seq_cst_rule_admits st c w a /\ ~ second_rmw st c w a.
Proof.
  intros Hc Hbuild. unfold build_may_read_from, get_action in Hbuild.
  rewrite Hc in Hbuild. simpl in Hbuild.
  apply rbind_ok in Hbuild as (_ & _ & Hbuild).
  apply rbind_ok in Hbuild as (last_sc_write & Hlast & Hbuild).
  apply rbind_ok in Hbuild as (thrd_lists & Hlists & Hbuild).
  apply rbind_ok in Hbuild as (r & Hloop & [= <-]).
  assert (last_sc_write
          = if is_seqcst c then obj_last_sc_map st !! get_location c else None)
    as ->.
  { destruct (is_seqcst c); [| congruence].
    unfold get_last_seq_cst_write, get_action in Hlast. rewrite Hc in Hlast.
    simpl in Hlast. congruence. }
  destruct (obj_wr_thrd_map st !! get_location c) as [lists |]; simpl in Hlists;
    [| discriminate]. injection Hlists as ->.
  exists thrd_lists. split; [reflexivity |].
  apply (for_each_upto_vget thrd_lists
    (may_read_from_thread st curr c
       (if is_seqcst c then obj_last_sc_map st !! get_location c else None))
    (fun pre rf => forall w, w ∈ rf <->
       exists lst, lst ∈ pre /\ w ∈ walked_thread st curr c (rev lst) /\
         exists a, actions st !! w = Some a /\
                   seq_cst_rule_admits st c w a /\ ~ second_rmw st c w a)
    [] r).
  - intros w. split; [intros Hw; inversion Hw |].
    intros (lst & Hlst & _). inversion Hlst.
  - intros pre lst acc acc' Hacc Hthread w.
    rewrite <- (rev_involutive lst) in Hthread.
    rewrite (may_read_from_thread_walk st curr c (rev lst) acc acc' Hthread w).
    rewrite Hacc. split.
    + intros [(lst' & Hin & Hrest) | Hnew].
      * exists lst'. split; [apply elem_of_app; auto | exact Hrest].
      * exists lst. split; [apply elem_of_app; right; constructor | exact Hnew].
    + intros (lst' & Hin & Hrest). apply elem_of_app in Hin as [Hin | Hin].
      * left. eauto.
      * apply list_elem_of_singleton in Hin as ->. right. exact Hrest.
  - exact Hloop.
Qed.

(** X20. The candidate set of a read holds only actions, other than the
    read itself, that are filed in the lists of writes of its location.
    For an RMW-read that is not a compare-and-swap it never holds a write
    from which an RMW already reads. *)
Theorem may_read_from_excludes st (curr : act_ptr) (c : ModelAction)
    (rf_set : list act_ptr) :
  actions st !! curr = Some c ->
  build_may_read_from st curr = Ok rf_set ->
  (curr ∉ rf_set) /\
  (forall w, w ∈ rf_set ->
     exists lists lst, obj_wr_thrd_map st !! get_location c = Some lists /\
                       lst ∈ lists /\ w ∈ lst /\ is_Some (actions st !! w)) /\
  (is_rmwr c = true -> is_rmwrcas c = false ->
   forall w, Some w ∈ cg_nodes (mo_graph st) ->
             is_Some (getRMW (mo_graph st) (Some w)) -> w ∉ rf_set).
Proof.
  intros Hc Hbuild.
  destruct (build_may_read_from_walk st curr c rf_set Hc Hbuild)
    as (lists & Hlists & Hmem).
  split; [| split].
  - intros Hin. apply Hmem in Hin as (lst & _ & Hwalk & _).
    apply walked_thread_elem in Hwalk as (Hne & _). now apply Hne.
  - intros w Hin. apply Hmem in Hin as (lst & Hlst & Hwalk & _).
    apply walked_thread_elem in Hwalk as (_ & Hw & Hsome).
    exists lists, lst. repeat split; auto. apply elem_of_rev, Hw.
  - intros Hrmwr Hcas w Hnode [rmw Hrmw] Hin.
    apply Hmem in Hin as (lst & Hlst & Hwalk & a & Ha & Hadm & Hnot).
    apply Hnot. unfold second_rmw, getRMW in *. repeat split; auto.
    rewrite Hrmw. discriminate.
Qed.

(** X21. A read that is neither seq-cst nor part of an RMW may read from
    the most recent write of every thread at its location: the last action
    of each list of [obj_wr_thrd_map] for the location is in the candidate
    set [build_may_read_from] returns. *)
Theorem latest_write_is_candidate st (curr : act_ptr) (c : ModelAction)
    (rf_set : list act_ptr) (lists : list (list act_ptr)) (lst : list act_ptr)
    (w : act_ptr) :
  actions st !! curr = Some c ->
  is_seqcst c = false -> is_rmwr c = false ->
  build_may_read_from st curr = Ok rf_set ->
  obj_wr_thrd_map st !! get_location c = Some lists ->
  lst ++ [w] ∈ lists ->
  w <> curr ->
  is_Some (actions st !! w) ->
  w ∈ rf_set.
Proof.
  intros Hc Hsc Hrmwr Hbuild Hlists Hlst Hne [a Ha].
  destruct (build_may_read_from_walk st curr c rf_set Hc Hbuild)
    as (lists' & Hlists' & Hmem).
  rewrite Hlists in Hlists'. injection Hlists' as <-.
  apply Hmem. exists (lst ++ [w]). split; [exact Hlst |]. split.
  - rewrite rev_app_distr. simpl.
    destruct (decide (w = curr)); [contradiction |]. rewrite Ha. constructor.
  - exists a. split; [exact Ha |]. split.
    + left. exact Hsc.
    + intros (Hr & _). congruence.
Qed.

(** *** The two parts of an RMW *)

Lemma action_process_rmw_reads_from (act this : ModelAction) :
  get_reads_from (action_process_rmw act this) = get_reads_from this.
Proof.
  unfold action_process_rmw. destruct (is_rmwc act); [reflexivity |].
  destruct (is_rmw act); reflexivity.
Qed.

Lemma process_rmw_ok st (act : act_ptr) (a : ModelAction) (l : act_ptr) st' :
  actions st !! act = Some a ->
  process_rmw act st = Ok (l, st') ->
  exists la,
    get_last_action st (get_tid a) = Ok (Some l) /\
    actions st !! l = Some la /\
    st' = set_mo_graph
            (if is_rmw a then addRMWEdge (get_reads_from la) l (mo_graph st)
             else mo_graph st)
            (set_actions (<[l := action_process_rmw a la]> (actions st)) st).
Proof.
  intros Ha Hrun. unfold process_rmw in Hrun.
  apply bind_ok in Hrun as (a' & z & Hread & Hrun).
  apply read_ok in Hread as [Hread ->].
  unfold get_action in Hread. rewrite Ha in Hread. injection Hread as <-.
  apply bind_ok in Hrun as (lastread & z & Hlast & Hrun).
  apply read_ok in Hlast as [Hlast ->].
  apply bind_ok in Hrun as (l' & z & Hl & Hrun). apply lift_ok in Hl as [Hl ->].
  destruct lastread as [l0 |]; simpl in Hl; [| discriminate]. injection Hl as ->.
  apply bind_ok in Hrun as (u & s1 & Hupd & Hrun).
  unfold update_action in Hupd.
  apply bind_ok in Hupd as (la & z & Hla & Hupd). apply read_ok in Hla as [Hla ->].
  apply modify_ok in Hupd as ->.
  unfold get_action in Hla. destruct (actions st !! l') as [la' |] eqn:Hl';
    simpl in Hla; [| discriminate]. injection Hla as ->.
  apply bind_ok in Hrun as (u' & s2 & Hedge & Hrun).
  apply ret_ok in Hrun as [<- ->].
  exists la. split; [exact Hlast |]. split; [exact Hl' |].
  destruct (is_rmw a).
  - apply bind_ok in Hedge as (lb & z & Hlb & Hedge).
    apply read_ok in Hlb as [Hlb ->]. apply modify_ok in Hedge as ->.
    unfold get_action in Hlb. simpl in Hlb. rewrite lookup_insert_eq in Hlb.
    injection Hlb as <-. rewrite action_process_rmw_reads_from. reflexivity.
  - apply ret_ok in Hedge as [_ ->]. destruct st; reflexivity.
Qed.

(** X22. The second part of an RMW is merged into the first: for an
    ATOMIC_RMW or ATOMIC_RMWC action [initialize_curr_action] takes no
    sequence number, turns the last action of the thread into the RMW, or
    into a plain read when the RMW does not commit, deletes the action and
    returns false with that last action.  A committed RMW is recorded in
    the MO graph as the RMW of the write it read from, and from then on no
    RMW-read that is not a compare-and-swap has that write in its candidate
    set. *)
Theorem rmw_second_part st (curr : act_ptr) (c : ModelAction)
    (r : bool * act_ptr) st' :
  actions st !! curr = Some c ->
  is_rmwc c || is_rmw c = true ->
  initialize_curr_action curr st = Ok (r, st') ->
  exists l la,
    r = (false, l) /\
    get_last_action st (get_tid c) = Ok (Some l) /\
    actions st !! l = Some la /\
    priv st' = priv st /\
    actions st' = delete curr (<[l := action_process_rmw c la]> (actions st)) /\
    get_type (action_process_rmw c la)
    = (if is_rmwc c then ATOMIC_READ else ATOMIC_RMW) /\
    (is_rmw c = true ->
     forall w, get_reads_from la = Some w ->
       getRMW (mo_graph st') (Some w) = Some l /\
       mo_edge (mo_graph st') w l /\
       forall (rd : act_ptr) (rc : ModelAction) (rf_set : list act_ptr),
         actions st' !! rd = Some rc ->
         is_rmwr rc = true -> is_rmwrcas rc = false ->
         build_may_read_from st' rd = Ok rf_set ->
         w ∉ rf_set).
Proof.
  intros Hc Hsecond Hrun. unfold initialize_curr_action in Hrun.
  apply bind_ok in Hrun as (c' & z & Hread & Hrun).
  apply read_ok in Hread as [Hread ->].
  unfold get_action in Hread. rewrite Hc in Hread. injection Hread as <-.
  rewrite Hsecond in Hrun.
  apply bind_ok in Hrun as (l & s1 & Hrmw & Hrun).
  apply bind_ok in Hrun as (u & s2 & Hdel & Hrun). apply modify_ok in Hdel as ->.
  apply (process_rmw_ok st curr c l s1 Hc) in Hrmw as (la & Hlast & Hla & Hs1).
  apply ret_ok in Hrun as [-> Hst'].
  assert (Hpriv : priv st' = priv st) by (rewrite Hst', Hs1; reflexivity).
  assert (Hacts : actions st'
                  = delete curr (<[l := action_process_rmw c la]> (actions st)))
    by (rewrite Hst', Hs1; reflexivity).
  assert (Hgraph : mo_graph st'
                   = if is_rmw c
                     then addRMWEdge (get_reads_from la) l (mo_graph st)
                     else mo_graph st)
    by (rewrite Hst', Hs1; reflexivity).
  clear Hst' Hs1 s1.
  exists l, la. split; [reflexivity |]. split; [exact Hlast |].
  split; [exact Hla |]. split; [exact Hpriv |]. split; [exact Hacts |].
  split.
  { unfold action_process_rmw. destruct (is_rmwc c) eqn:Hrmwc; [reflexivity |].
    simpl in Hsecond. rewrite Hsecond. reflexivity. }
  intros Hrmw w Hw. rewrite Hrmw, Hw in Hgraph.
  assert (Hnode : Some w ∈ cg_nodes (mo_graph st'))
    by (rewrite Hgraph; unfold addRMWEdge; cbn [cg_nodes]; set_solver).
  assert (Hrec : getRMW (mo_graph st') (Some w) = Some l)
    by (rewrite Hgraph; unfold getRMW, addRMWEdge; cbn [cg_rmw];
        apply lookup_insert_eq).
  split; [exact Hrec |]. split.
  { unfold mo_edge. rewrite Hgraph. unfold addRMWEdge. cbn [cg_edges].
    apply elem_of_app. right. constructor. }
  intros rd rc rf_set Hrd Hrmwr Hcas Hbuild Hin.
  destruct (build_may_read_from_walk st' rd rc rf_set Hrd Hbuild)
    as (lists & Hlists & Hmem).
  destruct (proj1 (Hmem w) Hin) as (lst & Hlst & Hwalk & a & Ha & Hadm & Hnot).
  apply Hnot. unfold second_rmw. repeat split; auto.
  unfold getRMW in Hrec. rewrite Hrec. discriminate.
Qed.

(** *** The first time an action is seen *)

Lemma new_ClockVector_own (parent : option ClockVector) (t : thread_id_t)
    (s : modelclock_t) :
  0 <= t ->
  synchronized_since (new_ClockVector parent (Some (t, s))) t s = true /\
  forall t', t' <> t ->
    getClock (new_ClockVector parent (Some (t, s))) t'
    = getClock (default [0] parent) t'.
Proof.
  intros Ht. unfold new_ClockVector.
  destruct (Z.ltb_spec t 0) as [| _]; [lia |].
  set (base := default [0] parent).
  set (grown := vresize (Z.max (vsize base) (t + 1)) 0 base).
  assert (Hlen : (Z.to_nat t < length grown)%nat).
  { subst grown. rewrite vresize_length. unfold vsize. lia. }
  split.
  - unfold synchronized_since, getClock, vsize, ClockVector.
    rewrite length_insert.
    destruct (Z.ltb_spec t 0); [lia |].
    rewrite list_lookup_insert_eq by exact Hlen. simpl.
    rewrite !andb_true_iff, !Z.leb_le, Z.ltb_lt. lia.
  - intros t' Hne. unfold getClock, ClockVector.
    destruct (Z.ltb_spec t' 0); [reflexivity |].
    rewrite list_lookup_insert_ne by lia.
    subst grown.
    destruct (Nat.lt_ge_cases (Z.to_nat t') (length base)) as [Hold | Hnew].
    + rewrite vresize_lookup_old; [reflexivity | exact Hold |].
      unfold vsize. lia.
    + rewrite (lookup_ge_None_2 base) by lia.
      destruct (Nat.lt_ge_cases (Z.to_nat t')
                  (Z.to_nat (Z.max (vsize base) (t + 1)))) as [Hin | Hout].
      * rewrite vresize_lookup_new by lia. reflexivity.
      * rewrite lookup_ge_None_2 by (rewrite vresize_length; lia). reflexivity.
Qed.

(** X23. An action that is not the second part of an RMW is new:
    [initialize_curr_action] gives it the next sequence number, which
    becomes the last used one, and returns true with the action itself.
    Its new clock vector has seen the action, agrees with the clock vector
    of the thread's parent action on every other thread, and the action
    records the last release fence of its thread. *)
Theorem new_action_initialized st (curr : act_ptr) (c : ModelAction)
    (r : bool * act_ptr) st' :
  actions st !! curr = Some c ->
  is_rmwc c || is_rmw c = false ->
  0 <= get_tid c ->
  initialize_curr_action curr st = Ok (r, st') ->
  let seq := to_unsigned (used_sequence_numbers (priv st) + 1) in
  r = (true, curr) /\
  used_sequence_numbers (priv st') = seq /\
  exists c' parent cv,
    actions st' = <[curr := c']> (actions st) /\
    get_parent_action st (get_tid c) = Ok parent /\
    get_last_fence_release st (get_tid c) = Ok (get_last_fence_release_of c') /\
    get_seq_number c' = seq /\ get_cv c' = Some cv /\
    erase_links (set_seq_number 0 (set_last_fence_release None c'))
    = erase_links (set_seq_number 0 (set_last_fence_release None c)) /\
    happens_before c' c' = Ok true /\
    forall t, t <> get_tid c ->
      getClock cv t
      = getClock (default [0] (p ← parent; a ← actions st !! p; get_cv a)) t.
Proof.
  intros Hc Hfirst Htid Hrun. cbv zeta. unfold initialize_curr_action in Hrun.
  apply bind_ok in Hrun as (c0 & z & Hread & Hrun).
  apply read_ok in Hread as [Hread ->].
  unfold get_action in Hread. rewrite Hc in Hread. injection Hread as <-.
  rewrite Hfirst in Hrun.
  apply bind_ok in Hrun as (seq & s1 & Hseq & Hrun).
  assert (Hs1 : seq = to_unsigned (used_sequence_numbers (priv st) + 1) /\
                s1 = set_priv (set_used_sequence_numbers seq (priv st)) st).
  { unfold get_next_seq_num in Hseq.
    apply bind_ok in Hseq as (n & z & Hn & Hseq). apply gets_ok in Hn as [-> ->].
    apply bind_ok in Hseq as (u & z & Hput & Hseq). apply modify_ok in Hput as ->.
    apply ret_ok in Hseq as [-> ->]. split; reflexivity. }
  destruct Hs1 as [Hseq' Hs1]. clear Hseq.
  assert (Hinv : forall st0 st1 (u : unit) (f : ModelAction -> ModelAction) a,
            actions st0 !! curr = Some a ->
            update_action curr f st0 = Ok (u, st1) ->
            st1 = set_actions (<[curr := f a]> (actions st0)) st0).
  { intros st0 st1 u f a Ha Hupd. rewrite (update_action_ok st0 curr f a Ha) in Hupd.
    now injection Hupd as <-. }
  apply bind_ok in Hrun as (u1 & s2 & Hupd1 & Hrun).
  apply (Hinv s1 s2 u1 _ c) in Hupd1; [| rewrite Hs1; exact Hc].
  apply bind_ok in Hrun as (parent & z & Hparent & Hrun).
  apply read_ok in Hparent as [Hparent ->].
  apply bind_ok in Hrun as (popt & s3 & Hpa & Hrun).
  assert (Hpopt : s3 = s2 /\ popt = (p ← parent; actions s2 !! p)).
  { destruct parent as [p |].
    - apply bind_ok in Hpa as (pa' & z' & Hget & Hpa).
      apply read_ok in Hget as [Hget ->]. apply ret_ok in Hpa as [-> ->].
      split; [reflexivity |]. unfold get_action in Hget. simpl.
      destruct (actions s2 !! p) as [x |]; simpl in Hget; [| discriminate].
      now injection Hget as ->.
    - apply ret_ok in Hpa as [-> ->]. split; reflexivity. }
  destruct Hpopt as [-> Hpopt]. clear Hpa.
  apply bind_ok in Hrun as (u2 & s4 & Hupd2 & Hrun).
  apply (Hinv s2 s4 u2 _ (set_seq_number seq c)) in Hupd2;
    [| rewrite Hupd1; apply lookup_insert_eq].
  apply bind_ok in Hrun as (fr & z & Hfr & Hrun). apply read_ok in Hfr as [Hfr ->].
  apply bind_ok in Hrun as (u3 & s5 & Hupd3 & Hrun).
  apply (Hinv s4 s5 u3 _ (create_cv popt (set_seq_number seq c))) in Hupd3;
    [| rewrite Hupd2; apply lookup_insert_eq].
  apply ret_ok in Hrun as [-> ->].
  (* the fields of the states on the way *)
  assert (Hacts2 : actions s2 = <[curr := set_seq_number seq c]> (actions st))
    by (rewrite Hupd1, Hs1; reflexivity).
  assert (Hframe2 : thrd_last_action s2 = thrd_last_action st /\
                    thread_map s2 = thread_map st /\ threads s2 = threads st /\
                    thrd_last_fence_release s2 = thrd_last_fence_release st /\
                    priv s2 = set_used_sequence_numbers seq (priv st))
    by (rewrite Hupd1, Hs1; repeat split; reflexivity).
  destruct Hframe2 as (Hla2 & Htm2 & Hth2 & Hfr2 & Hpriv2).
  assert (Hframe4 : thrd_last_fence_release s4 = thrd_last_fence_release s2 /\
                    priv s4 = priv s2 /\
                    actions s4 = <[curr := create_cv popt (set_seq_number seq c)]>
                                   (actions s2))
    by (rewrite Hupd2; repeat split; reflexivity).
  destruct Hframe4 as (Hfr4 & Hpriv4 & Hacts4).
  assert (Hframe5 : priv s5 = priv s4 /\
                    actions s5
                    = <[curr := set_last_fence_release fr
                                  (create_cv popt (set_seq_number seq c))]>
                        (actions s4))
    by (rewrite Hupd3; repeat split; reflexivity).
  destruct Hframe5 as (Hpriv5 & Hacts5).
  clear Hupd1 Hupd2 Hupd3 Hs1 Hinv.
  rewrite <- Hseq'.
  split; [reflexivity |].
  split; [rewrite Hpriv5, Hpriv4, Hpriv2; reflexivity |].
  exists (set_last_fence_release fr (create_cv popt (set_seq_number seq c))),
         parent,
         (new_ClockVector (popt ≫= get_cv) (Some (get_tid c, seq))).
  split.
  { rewrite Hacts5, Hacts4, Hacts2, !insert_insert_eq. reflexivity. }
  split.
  { rewrite <- Hparent. unfold get_parent_action, get_last_action.
    rewrite !get_thread_lookup, Hla2, Htm2. unfold get_thread_obj.
    rewrite Hth2. reflexivity. }
  split.
  { change (get_last_fence_release st (get_tid c) = Ok fr).
    rewrite <- Hfr. unfold get_last_fence_release. rewrite Hfr4, Hfr2. reflexivity. }
  split; [reflexivity |]. split; [reflexivity |]. split; [reflexivity |].
  destruct (new_ClockVector_own (popt ≫= get_cv) (get_tid c) seq Htid)
    as [Hown Hothers].
  split.
  { unfold happens_before, set_last_fence_release, create_cv, set_cv, set_seq_number.
    cbn [get_cv get_tid get_seq_number deref rbind].
    rewrite Hown. reflexivity. }
  intros t Ht. rewrite (Hothers t Ht). f_equal. f_equal. rewrite Hpopt, Hacts2.
  destruct parent as [p |]; [| reflexivity]. simpl.
  destruct (decide (p = curr)) as [-> | Hne].
  - rewrite lookup_insert_eq, Hc. reflexivity.
  - rewrite lookup_insert_ne by congruence. reflexivity.
Qed.

(** Constants and methods of headers that are not under src/, as in the
    engine. *)
Variable FENCE_LOCATION : loc.
Variable VALUE_NONE : Z.
Variable getInitThread : option thr_ptr.
Variable could_synchronize_with : ModelAction -> ModelAction -> bool.

(** *** Modification order of writes *)

Lemma addEdges_edges (edgeset : list node_key) (to : node_key) (g : CycleGraph) :
  cg_edges (addEdges edgeset to g)
  = cg_edges g ++ map (fun from => (from, to)) edgeset.
Proof.
  unfold addEdges. revert g. induction edgeset as [| e es IH]; intros g; simpl.
  - now rewrite app_nil_r.
  - rewrite IH. simpl. now rewrite <- app_assoc.
Qed.

Lemma w_mo_thread_extends st (curr : act_ptr) (c : ModelAction)
    (fence : option act_ptr) (lst : list act_ptr) (edgeset edgeset' : list node_key) :
  w_mo_thread st curr c fence lst edgeset = Ok edgeset' ->
  exists more, edgeset' = edgeset ++ more.
Proof.
  unfold w_mo_thread. intros Hwalk.
  apply rbind_ok in Hwalk as (r & Hloop & [= <-]).
  revert Hloop.
  apply (for_each_invariant _ (fun es => exists more, es = edgeset ++ more)).
  - exists []. now rewrite app_nil_r.
  - intros act es ctl [more ->] Hturn.
    assert (Hext : forall x, exists more', (edgeset ++ more) ++ [x] = edgeset ++ more').
    { intros x. exists (more ++ [x]). now rewrite app_assoc. }
    destruct (decide (act = curr)).
    + destruct (is_rmw c); [destruct (bool_decide _) |];
        injection Hturn as <-; eauto.
    + apply rbind_ok in Hturn as (a & _ & Hturn).
      apply rbind_ok in Hturn as (stmt7 & _ & Hturn).
      destruct stmt7; [injection Hturn as <-; apply Hext |].
      apply rbind_ok in Hturn as (hb & _ & Hturn).
      destruct hb; [| injection Hturn as <-; eauto].
      destruct (is_write a); [injection Hturn as <-; apply Hext |].
      destruct (is_read a); injection Hturn as <-; [apply Hext | eauto].
Qed.

(** What [w_modification_order] does to the engine: it records a seq-cst
    write as the last one of its location, and adds to the MO graph the edges
    from a set that starts with the previous last seq-cst write. *)
Lemma w_modification_order_state st (curr : act_ptr) (c : ModelAction) st' :
  actions st !! curr = Some c ->
  w_modification_order FENCE_LOCATION curr st = Ok (tt, st') ->
  exists more,
    let first := if is_seqcst c
                 then match obj_last_sc_map st !! get_location c with
                      | Some l => [Some l]
                      | None => []
                      end
                 else [] in
    let st1 := if is_seqcst c
               then set_obj_last_sc_map
                      (<[get_location c := curr]> (obj_last_sc_map st)) st
               else st in
    st' = set_mo_graph (addEdges (first ++ more) (Some curr) (mo_graph st)) st1.
Proof.
  intros Hc Hrun. unfold w_modification_order in Hrun.
  apply bind_ok in Hrun as (c' & s0 & Hread & Hrun).
  apply read_ok in Hread as [Hread ->].
  unfold get_action in Hread. rewrite Hc in Hread. injection Hread as <-.
  apply bind_ok in Hrun as (u & s1 & Hassert & Hrun).
  apply lift_ok in Hassert as [_ ->].
  apply bind_ok in Hrun as (first & s2 & Hfirst & Hrun).
  assert (Hsc :
    first = (if is_seqcst c
             then match obj_last_sc_map st !! get_location c with
                  | Some l => [Some l]
                  | None => []
                  end
             else []) /\
    s2 = (if is_seqcst c
          then set_obj_last_sc_map
                 (<[get_location c := curr]> (obj_last_sc_map st)) st
          else st)).
  { destruct (is_seqcst c).
    - apply bind_ok in Hfirst as (last & s & Hlast & Hfirst).
      apply read_ok in Hlast as [Hlast ->].
      unfold get_last_seq_cst_write, get_action in Hlast. rewrite Hc in Hlast.
      simpl in Hlast. injection Hlast as <-.
      apply bind_ok in Hfirst as (u' & s & Hput & Hfirst).
      apply modify_ok in Hput as ->.
      apply ret_ok in Hfirst as [-> ->]. auto.
    - apply ret_ok in Hfirst as [-> ->]. auto. }
  destruct Hsc as [-> ->].
  apply bind_ok in Hrun as (fence & s3 & Hfence & Hrun).
  apply read_ok in Hfence as [_ ->].
  apply bind_ok in Hrun as (thrd_lists & s3 & Hlists & Hrun).
  apply read_ok in Hlists as [_ ->].
  apply bind_ok in Hrun as (r & s3 & Hloop & Hrun).
  apply read_ok in Hloop as [Hloop ->].
  apply modify_ok in Hrun as ->.
  cut (exists more, finished r = (if is_seqcst c
          then match obj_last_sc_map st !! get_location c with
               | Some l => [Some l]
               | None => []
               end
          else []) ++ more).
  { intros [more ->]. exists more. cbv zeta.
    destruct (is_seqcst c); reflexivity. }
  revert Hloop.
  apply (for_each_invariant _ (fun es => exists more, es =
          (if is_seqcst c
           then match obj_last_sc_map st !! get_location c with
                | Some l => [Some l]
                | None => []
                end
           else []) ++ more)).
  - exists []. now rewrite app_nil_r.
  - intros i es ctl [more ->] Hturn.
    apply rbind_ok in Hturn as (fence' & _ & Hturn).
    apply rbind_ok in Hturn as (lst & _ & Hturn).
    apply rbind_ok in Hturn as (es' & Hthread & [= <-]).
    apply w_mo_thread_extends in Hthread as [more' ->].
    exists (more ++ more'). now rewrite app_assoc.
Qed.


Lemma w_modification_order_facts st (curr : act_ptr) (c : ModelAction) st' :
  actions st !! curr = Some c ->
  w_modification_order FENCE_LOCATION curr st = Ok (tt, st') ->
  cg_edges (mo_graph st) ⊆ cg_edges (mo_graph st') /\
  (is_seqcst c = true ->
     obj_last_sc_map st' = <[get_location c := curr]> (obj_last_sc_map st) /\
     forall W', obj_last_sc_map st !! get_location c = Some W' ->
                mo_edge (mo_graph st') W' curr) /\
  (is_seqcst c = false -> obj_last_sc_map st' = obj_last_sc_map st).
Proof.
  intros Hc Hrun.
  destruct (w_modification_order_state st curr c st' Hc Hrun) as [more ->].
  cbv zeta. split; [| split].
  - intros e He. destruct (is_seqcst c); simpl;
      rewrite addEdges_edges, elem_of_app; auto.
  - intros ->. simpl. split; [reflexivity |].
    intros W' HW'. unfold mo_edge. rewrite HW'.
    cbn [mo_graph set_mo_graph]. rewrite addEdges_edges.
    apply elem_of_app. right. simpl. constructor.
  - intros ->. reflexivity.
Qed.

Lemma writes_processed_edges st (ws : list (act_ptr * ModelAction)) st' :
  writes_processed FENCE_LOCATION st ws st' ->
  cg_edges (mo_graph st) ⊆ cg_edges (mo_graph st').
Proof.
  induction 1 as [st | st w c st1 ws st2 Hc Hrun _ IH | st st1 ws st2 [Hkeep _] _ IH].
  - intros e He. exact He.
  - destruct (w_modification_order_facts st w c st1 Hc Hrun) as [Hsub _].
    intros e He. apply IH, Hsub, He.
  - intros e He. apply IH, Hkeep, He.
Qed.

Lemma mo_path_mono (g g' : CycleGraph) (a b : act_ptr) :
  cg_edges g ⊆ cg_edges g' -> mo_path g a b -> mo_path g' a b.
Proof.
  intros Hsub. unfold mo_path. induction 1 as [a | a b c Hab _ IH].
  - apply rtc_refl.
  - eapply rtc_l; [| exact IH]. unfold mo_edge in *. apply Hsub, Hab.
Qed.

(** Every seq-cst write processed later at a location is reached from the
    write that is the last seq-cst write of the location now. *)
Lemma last_sc_write_reaches st (ws : list (act_ptr * ModelAction)) st' :
  writes_processed FENCE_LOCATION st ws st' ->
  forall (last : act_ptr) (j : nat) (w2 : act_ptr) (c2 : ModelAction),
    ws !! j = Some (w2, c2) ->
    is_seqcst c2 = true ->
    obj_last_sc_map st !! get_location c2 = Some last ->
    mo_path (mo_graph st') last w2.
Proof.
  induction 1 as [st | st w c st1 ws st2 Hc Hrun Hrest IH
                     | st st1 ws st2 [_ Hmap] _ IH];
    intros last j w2 c2 Hj Hsc Hlast.
  - inversion Hj.
  - destruct (w_modification_order_facts st w c st1 Hc Hrun)
      as (_ & Hseq & Hrelaxed).
    pose proof (writes_processed_edges _ _ _ Hrest) as Hsub.
    destruct (is_seqcst c) eqn:Hcsc.
    + destruct (Hseq eq_refl) as [Hmap Hedge].
      destruct (decide (get_location c = get_location c2)) as [Hloc | Hloc].
      * (* the write is seq-cst at the location: it is the new last one *)
        assert (Hfirst : mo_path (mo_graph st2) last w).
        { apply (mo_path_mono (mo_graph st1)); [exact Hsub |].
          apply rtc_once, Hedge. now rewrite Hloc. }
        destruct j as [| j]; simpl in Hj.
        -- injection Hj as <- <-. exact Hfirst.
        -- etransitivity; [exact Hfirst |].
           apply (IH w j w2 c2 Hj Hsc).
           rewrite Hmap, <- Hloc. apply lookup_insert_eq.
      * destruct j as [| j]; simpl in Hj.
        -- injection Hj as <- <-. contradiction.
        -- apply (IH last j w2 c2 Hj Hsc).
           rewrite Hmap, lookup_insert_ne by exact Hloc. exact Hlast.
    + destruct j as [| j]; simpl in Hj.
      * injection Hj as <- <-. congruence.
      * apply (IH last j w2 c2 Hj Hsc).
        rewrite (Hrelaxed eq_refl). exact Hlast.
  - apply (IH last j w2 c2 Hj Hsc). rewrite Hmap. exact Hlast.
Qed.

(** C4. When [w_modification_order] processes a seq-cst write [W], the MO
    graph gains the edge from the previous last seq-cst write of the
    location, if there is one, to [W], and [obj_last_sc_map] then names [W]
    for the location.  So of two seq-cst writes processed at one location,
    the MO graph has a path from the earlier to the later. *)
Theorem seq_cst_writes_ordered :
  (forall st (curr : act_ptr) (c : ModelAction) st',
     actions st !! curr = Some c ->
     is_seqcst c = true ->
     w_modification_order FENCE_LOCATION curr st = Ok (tt, st') ->
     obj_last_sc_map st' !! get_location c = Some curr /\
     forall W', obj_last_sc_map st !! get_location c = Some W' ->
                mo_edge (mo_graph st') W' curr) /\
  (forall st (ws : list (act_ptr * ModelAction)) st',
     writes_processed FENCE_LOCATION st ws st' ->
     forall (i j : nat) (w1 w2 : act_ptr) (c1 c2 : ModelAction),
       (i < j)%nat ->
       ws !! i = Some (w1, c1) -> ws !! j = Some (w2, c2) ->
       is_seqcst c1 = true -> is_seqcst c2 = true ->
       get_location c1 = get_location c2 ->
       mo_path (mo_graph st') w1 w2).
Proof.
  split.
  - intros st curr c st' Hc Hsc Hrun.
    destruct (w_modification_order_facts st curr c st' Hc Hrun) as (_ & Hseq & _).
    destruct (Hseq Hsc) as [-> Hedge]. split; [apply lookup_insert_eq | exact Hedge].
  - induction 1 as [st | st w c st1 ws st2 Hc Hrun Hrest IH
                       | st st1 ws st2 _ _ IH];
      intros i j w1 w2 c1 c2 Hij Hi Hj Hsc1 Hsc2 Hloc.
    + inversion Hi.
    + destruct j as [| j]; [lia |]. simpl in Hj.
      destruct i as [| i]; simpl in Hi.
      * injection Hi as <- <-.
        destruct (w_modification_order_facts st w c st1 Hc Hrun) as (_ & Hseq & _).
        destruct (Hseq Hsc1) as [Hmap _].
        apply (last_sc_write_reaches st1 ws st2 Hrest w j w2 c2 Hj Hsc2).
        rewrite Hmap, <- Hloc. apply lookup_insert_eq.
      * apply (IH i j w1 w2 c1 c2); [lia | assumption ..].
    + apply (IH i j w1 w2 c1 c2); assumption.
Qed.

(** *** The assert flag *)

Local Abbreviation Keeps := (@keeps_asserted Sched Fuzz _).

Lemma keeps_ret {A} (a : A) : Keeps (ret a).
Proof. intros st a' st' Hrun. apply ret_ok in Hrun as [_ ->]. reflexivity. Qed.

Lemma keeps_read {A} (f : ModelExecution -> result A) : Keeps (read f).
Proof. intros st a st' Hrun. apply read_ok in Hrun as [_ ->]. reflexivity. Qed.

Lemma keeps_lift {A} (r : result A) : Keeps (lift r).
Proof. apply keeps_read. Qed.

Lemma keeps_gets {A} (f : ModelExecution -> A) : Keeps (gets f).
Proof. intros st a st' Hrun. apply gets_ok in Hrun as [_ ->]. reflexivity. Qed.

Lemma keeps_modify (f : ModelExecution -> ModelExecution) :
  (forall st, asserted (priv (f st)) = asserted (priv st)) ->
  Keeps (modify f).
Proof. intros Hf st u st' Hrun. apply modify_ok in Hrun as ->. apply Hf. Qed.

Lemma keeps_bind {A B} (m : M A) (k : A -> M B) :
  keeps_asserted m -> (forall a, Keeps (k a)) -> Keeps (bind m k).
Proof.
  intros Hm Hk st b st' Hrun. apply bind_ok in Hrun as (a & st1 & Hm1 & Hk1).
  rewrite (Hk a st1 b st' Hk1). exact (Hm st a st1 Hm1).
Qed.

Lemma keeps_fuzzer {A} (ask : ModelExecution -> A * Fuzz) :
  Keeps (fun st => let '(a, fz) := ask st in Ok (a, set_fuzzer fz st)).
Proof.
  intros st a st'. destruct (ask st) as [a' fz]. intros [= <- <-]. reflexivity.
Qed.

Lemma keeps_notify {A} (l : loc) (ask : ModelExecution -> A * list act_ptr * Fuzz) :
  Keeps (fun st =>
           let '(a, waiters, fz) := ask st in
           Ok (a, set_condvar_waiters_map
                    (<[l := waiters]> (condvar_waiters_map st)) (set_fuzzer fz st))).
Proof.
  intros st a st'. destruct (ask st) as [[a' waiters] fz]. intros [= <- <-].
  reflexivity.
Qed.

Lemma keeps_for_eachM {X A R} (body : X -> A -> M (loop_ctl A R)) (xs : list X)
    (acc : A) :
  (forall x a, Keeps (body x a)) -> Keeps (for_eachM body xs acc).
Proof.
  intros Hbody. revert acc. induction xs as [| x xs IH]; intros acc; simpl.
  - apply keeps_ret.
  - apply keeps_bind; [apply Hbody |].
    intros [a | a | r]; [apply IH | apply keeps_ret | apply keeps_ret].
Qed.

Create HintDb keeps.

#[local] Hint Resolve keeps_ret keeps_read keeps_lift keeps_gets keeps_fuzzer
  keeps_notify : keeps.

(** Follow the code of a method, call by call. *)
Ltac keeps :=
  repeat first
    [ progress intros
    | solve [auto with keeps]
    | apply keeps_bind
    | apply keeps_for_eachM
    | apply keeps_modify; intros; simpl; repeat case_match; reflexivity
    | apply keeps_fuzzer
    | apply keeps_notify
    | match goal with
      | |- keeps_asserted (match ?x with _ => _ end) => destruct x
      | |- keeps_asserted (let '(_, _) := ?x in _) => destruct x
      end ].

Lemma keeps_update_action (p : act_ptr) (f : ModelAction -> ModelAction) :
  Keeps (update_action p f).
Proof. unfold update_action. keeps. Qed.

Lemma keeps_update_thread (t : option thr_ptr) (f : Thread -> Thread) :
  Keeps (update_thread t f).
Proof. unfold update_thread. keeps. Qed.

Lemma keeps_get_safe_ptr_action get put (ptr : loc) :
  (forall h st, asserted (priv (put h st)) = asserted (priv st)) ->
  Keeps (get_safe_ptr_action get put ptr).
Proof.
  intros Hput. unfold get_safe_ptr_action. apply keeps_bind; [keeps |].
  intros hash. destruct (hash !! ptr); [keeps |].
  apply keeps_bind; [apply keeps_modify; intros; apply Hput | keeps].
Qed.

Lemma keeps_get_safe_ptr_vect_action get put (ptr : loc) :
  (forall h st, asserted (priv (put h st)) = asserted (priv st)) ->
  Keeps (get_safe_ptr_vect_action get put ptr).
Proof.
  intros Hput. unfold get_safe_ptr_vect_action. apply keeps_bind; [keeps |].
  intros hash. destruct (hash !! ptr); [keeps |].
  apply keeps_bind; [apply keeps_modify; intros; apply Hput | keeps].
Qed.

#[local] Hint Resolve keeps_update_action keeps_update_thread : keeps.
#[local] Hint Extern 1 (keeps_asserted (get_safe_ptr_action _ _ _)) =>
  apply keeps_get_safe_ptr_action; intros; reflexivity : keeps.
#[local] Hint Extern 1 (keeps_asserted (get_safe_ptr_vect_action _ _ _)) =>
  apply keeps_get_safe_ptr_vect_action; intros; reflexivity : keeps.

Lemma keeps_get_next_id : Keeps get_next_id.
Proof. unfold get_next_id. keeps. Qed.

Lemma keeps_get_next_seq_num : Keeps get_next_seq_num.
Proof. unfold get_next_seq_num. keeps. Qed.

Lemma keeps_should_wake_up (curr : act_ptr) (thread : thr_ptr) :
  Keeps (should_wake_up could_synchronize_with curr thread).
Proof. unfold should_wake_up. keeps. Qed.

#[local] Hint Resolve keeps_get_next_id keeps_get_next_seq_num
  keeps_should_wake_up : keeps.

Lemma keeps_wake_up_sleeping_actions (curr : act_ptr) :
  Keeps (wake_up_sleeping_actions could_synchronize_with curr).
Proof. unfold wake_up_sleeping_actions. keeps. Qed.

Lemma keeps_insert_walk_cv (next_seq : modelclock_t) (act : act_ptr)
    (front back : list act_ptr) :
  Keeps (insert_walk_cv next_seq act front back).
Proof.
  revert back. induction front as [| rit front IH]; intros back; simpl; [keeps |].
  apply keeps_bind; [keeps |]. intros r.
  destruct (get_seq_number r =? next_seq); [keeps | apply IH].
Qed.

#[local] Hint Resolve keeps_wake_up_sleeping_actions keeps_insert_walk_cv : keeps.

Lemma keeps_insertIntoActionListAndSetCV (lst : list act_ptr) (act : act_ptr) :
  Keeps (insertIntoActionListAndSetCV lst act).
Proof. unfold insertIntoActionListAndSetCV. keeps. Qed.

#[local] Hint Resolve keeps_insertIntoActionListAndSetCV : keeps.

Lemma keeps_add_normal_write_to_lists (act : act_ptr) :
  Keeps (add_normal_write_to_lists act).
Proof. unfold add_normal_write_to_lists. keeps. Qed.

Lemma keeps_add_write_to_lists (write : act_ptr) :
  Keeps (add_write_to_lists write).
Proof. unfold add_write_to_lists. keeps. Qed.

Lemma keeps_w_modification_order (curr : act_ptr) :
  Keeps (w_modification_order FENCE_LOCATION curr).
Proof. unfold w_modification_order. keeps. Qed.

#[local] Hint Resolve keeps_add_normal_write_to_lists keeps_add_write_to_lists
  keeps_w_modification_order : keeps.

Lemma keeps_convertNonAtomicStore (location : loc) :
  Keeps (convertNonAtomicStore FENCE_LOCATION location).
Proof. unfold convertNonAtomicStore. keeps. Qed.

Lemma keeps_hb_step (rf : option act_ptr) (vec : option ClockVector) :
  Keeps (hb_step rf vec).
Proof. unfold hb_step. keeps. Qed.

#[local] Hint Resolve keeps_convertNonAtomicStore keeps_hb_step : keeps.

Lemma keeps_get_hb_from_write (rf : option act_ptr) :
  Keeps (get_hb_from_write rf).
Proof. unfold get_hb_from_write. keeps. Qed.

#[local] Hint Resolve keeps_get_hb_from_write : keeps.

Lemma keeps_read_from (act rf : act_ptr) : Keeps (read_from act rf).
Proof. unfold read_from. keeps. Qed.

Lemma keeps_synchronize (first : option act_ptr) (second : act_ptr) :
  Keeps (synchronize first second).
Proof. unfold synchronize, synchronize_with. keeps. Qed.

#[local] Hint Resolve keeps_read_from keeps_synchronize : keeps.

Lemma keeps_process_read_loop (fuel : nat) (curr : act_ptr)
    (rf_set priorset : list act_ptr) :
  Keeps (process_read_loop FENCE_LOCATION VALUE_NONE fuel curr rf_set priorset).
Proof.
  revert rf_set priorset. induction fuel as [| fuel IH]; intros rf_set priorset;
    simpl; [keeps |].
  apply keeps_bind; [keeps |]. intros index.
  destruct (index =? -1); [keeps |].
  apply keeps_bind; [keeps |]. intros rf.
  apply keeps_bind; [keeps |]. intros [[accepted priorset'] canprune].
  destruct accepted; [keeps |].
  apply keeps_bind; [keeps |]. intros rf_set'. apply IH.
Qed.

#[local] Hint Resolve keeps_process_read_loop : keeps.

Lemma keeps_process_read (curr : act_ptr) (rf_set : list act_ptr) :
  Keeps (process_read FENCE_LOCATION VALUE_NONE curr rf_set).
Proof. unfold process_read. keeps. Qed.

#[local] Hint Resolve keeps_process_read : keeps.

Lemma keeps_get_uninitialized_action (curr : act_ptr) :
  Keeps (get_uninitialized_action curr).
Proof. unfold get_uninitialized_action. keeps. Qed.

#[local] Hint Resolve keeps_get_uninitialized_action : keeps.

Lemma keeps_add_uninit_action_to_lists (act : act_ptr) :
  Keeps (add_uninit_action_to_lists act).
Proof. unfold add_uninit_action_to_lists. keeps. Qed.

Lemma keeps_add_action_to_lists (act : act_ptr) :
  Keeps (add_action_to_lists act).
Proof. unfold add_action_to_lists, index_at, index_thrd_at. keeps. Qed.

Lemma keeps_add_thread (t : thr_ptr) : Keeps (add_thread t).
Proof. unfold add_thread. keeps. Qed.

#[local] Hint Resolve keeps_add_uninit_action_to_lists keeps_add_action_to_lists
  keeps_add_thread : keeps.

Lemma keeps_create_thread (curr : act_ptr) : Keeps (create_thread curr).
Proof. unfold create_thread. keeps. Qed.

Lemma keeps_join_thread (curr : act_ptr) : Keeps (join_thread curr).
Proof. unfold join_thread. keeps. Qed.

#[local] Hint Resolve keeps_create_thread keeps_join_thread : keeps.

Lemma keeps_process_thread_action (curr : act_ptr) :
  Keeps (process_thread_action getInitThread curr).
Proof. unfold process_thread_action. keeps. Qed.

Lemma keeps_process_write (curr : act_ptr) :
  Keeps (process_write FENCE_LOCATION VALUE_NONE curr).
Proof. unfold process_write. keeps. Qed.

Lemma keeps_process_fence (curr : act_ptr) : Keeps (process_fence curr).
Proof. unfold process_fence. keeps. Qed.

Lemma keeps_process_mutex (curr : act_ptr) : Keeps (process_mutex curr).
Proof.
  unfold process_mutex, process_mutex_lock, wake_lock_waiters, set_locked. keeps.
Qed.

Lemma keeps_process_rmw (act : act_ptr) : Keeps (process_rmw act).
Proof. unfold process_rmw. keeps. Qed.

#[local] Hint Resolve keeps_process_thread_action keeps_process_write
  keeps_process_fence keeps_process_mutex keeps_process_rmw : keeps.

Lemma keeps_initialize_curr_action (curr : act_ptr) :
  Keeps (initialize_curr_action curr).
Proof. unfold initialize_curr_action. keeps. Qed.

#[local] Hint Resolve keeps_initialize_curr_action : keeps.

Lemma keeps_check_current_action (curr : act_ptr) :
  Keeps (check_current_action FENCE_LOCATION VALUE_NONE getInitThread
           could_synchronize_with curr).
Proof. unfold check_current_action. keeps. Qed.

(** *** The action trace *)

Local Abbreviation Traces := (@keeps_trace Sched Fuzz).

Lemma traces_ret {A} (a : A) : Traces (ret a).
Proof. intros st a' st' Hrun. apply ret_ok in Hrun as [_ ->]. reflexivity. Qed.

Lemma traces_read {A} (f : ModelExecution -> result A) : Traces (read f).
Proof. intros st a st' Hrun. apply read_ok in Hrun as [_ ->]. reflexivity. Qed.

Lemma traces_lift {A} (r : result A) : Traces (lift r).
Proof. apply traces_read. Qed.

Lemma traces_gets {A} (f : ModelExecution -> A) : Traces (gets f).
Proof. intros st a st' Hrun. apply gets_ok in Hrun as [_ ->]. reflexivity. Qed.

Lemma traces_modify (f : ModelExecution -> ModelExecution) :
  (forall st, action_trace (f st) = action_trace st) ->
  Traces (modify f).
Proof. intros Hf st u st' Hrun. apply modify_ok in Hrun as ->. apply Hf. Qed.

Lemma traces_bind {A B} (m : M A) (k : A -> M B) :
  keeps_trace m -> (forall a, Traces (k a)) -> Traces (bind m k).
Proof.
  intros Hm Hk st b st' Hrun. apply bind_ok in Hrun as (a & st1 & Hm1 & Hk1).
  rewrite (Hk a st1 b st' Hk1). exact (Hm st a st1 Hm1).
Qed.

Lemma traces_notify {A} (l : loc) (ask : ModelExecution -> A * list act_ptr * Fuzz) :
  Traces (fun st =>
            let '(a, waiters, fz) := ask st in
            Ok (a, set_condvar_waiters_map
                     (<[l := waiters]> (condvar_waiters_map st)) (set_fuzzer fz st))).
Proof.
  intros st a st'. destruct (ask st) as [[a' waiters] fz]. intros [= <- <-].
  reflexivity.
Qed.

Lemma traces_fuzzer {A} (ask : ModelExecution -> A * Fuzz) :
  Traces (fun st => let '(a, fz) := ask st in Ok (a, set_fuzzer fz st)).
Proof.
  intros st a st'. destruct (ask st) as [a' fz]. intros [= <- <-]. reflexivity.
Qed.

Lemma traces_for_eachM {X A R} (body : X -> A -> M (loop_ctl A R)) (xs : list X)
    (acc : A) :
  (forall x a, Traces (body x a)) -> Traces (for_eachM body xs acc).
Proof.
  intros Hbody. revert acc. induction xs as [| x xs IH]; intros acc; simpl.
  - apply traces_ret.
  - apply traces_bind; [apply Hbody |].
    intros [a | a | r]; [apply IH | apply traces_ret | apply traces_ret].
Qed.

Create HintDb traces.

#[local] Hint Resolve traces_ret traces_read traces_lift traces_gets traces_fuzzer
  traces_notify : traces.

Ltac traces :=
  repeat first
    [ progress intros
    | solve [auto with traces]
    | apply traces_bind
    | apply traces_for_eachM
    | apply traces_modify; intros; simpl; repeat case_match; reflexivity
    | apply traces_fuzzer
    | apply traces_notify
    | match goal with
      | |- keeps_trace (match ?x with _ => _ end) => destruct x
      | |- keeps_trace (let '(_, _) := ?x in _) => destruct x
      end ].

Lemma traces_update_action (p : act_ptr) (f : ModelAction -> ModelAction) :
  Traces (update_action p f).
Proof. unfold update_action. traces. Qed.

Lemma traces_update_thread (t : option thr_ptr) (f : Thread -> Thread) :
  Traces (update_thread t f).
Proof. unfold update_thread. traces. Qed.

Lemma traces_get_safe_ptr_action get put (ptr : loc) :
  (forall h st, action_trace (put h st) = action_trace st) ->
  Traces (get_safe_ptr_action get put ptr).
Proof.
  intros Hput. unfold get_safe_ptr_action. apply traces_bind; [traces |].
  intros hash. destruct (hash !! ptr); [traces |].
  apply traces_bind; [apply traces_modify; intros; apply Hput | traces].
Qed.

Lemma traces_get_safe_ptr_vect_action get put (ptr : loc) :
  (forall h st, action_trace (put h st) = action_trace st) ->
  Traces (get_safe_ptr_vect_action get put ptr).
Proof.
  intros Hput. unfold get_safe_ptr_vect_action. apply traces_bind; [traces |].
  intros hash. destruct (hash !! ptr); [traces |].
  apply traces_bind; [apply traces_modify; intros; apply Hput | traces].
Qed.

#[local] Hint Resolve traces_update_action traces_update_thread : traces.
#[local] Hint Extern 1 (keeps_trace (get_safe_ptr_action _ _ _)) =>
  apply traces_get_safe_ptr_action; intros; reflexivity : traces.
#[local] Hint Extern 1 (keeps_trace (get_safe_ptr_vect_action _ _ _)) =>
  apply traces_get_safe_ptr_vect_action; intros; reflexivity : traces.

Lemma traces_get_next_id : Traces get_next_id.
Proof. unfold get_next_id. traces. Qed.

#[local] Hint Resolve traces_get_next_id : traces.

Lemma traces_add_write_to_lists (write : act_ptr) :
  Traces (add_write_to_lists write).
Proof. unfold add_write_to_lists. traces. Qed.

Lemma traces_w_modification_order (curr : act_ptr) :
  Traces (w_modification_order FENCE_LOCATION curr).
Proof. unfold w_modification_order. traces. Qed.

#[local] Hint Resolve traces_add_write_to_lists traces_w_modification_order : traces.

Lemma traces_hb_step (rf : option act_ptr) (vec : option ClockVector) :
  Traces (hb_step rf vec).
Proof. unfold hb_step. traces. Qed.

#[local] Hint Resolve traces_hb_step : traces.

Lemma traces_get_hb_from_write (rf : option act_ptr) :
  Traces (get_hb_from_write rf).
Proof. unfold get_hb_from_write. traces. Qed.

#[local] Hint Resolve traces_get_hb_from_write : traces.

Lemma traces_synchronize (first : option act_ptr) (second : act_ptr) :
  Traces (synchronize first second).
Proof. unfold synchronize, synchronize_with. traces. Qed.

Lemma traces_add_thread (t : thr_ptr) : Traces (add_thread t).
Proof. unfold add_thread. traces. Qed.

#[local] Hint Resolve traces_synchronize traces_add_thread : traces.

Lemma traces_create_thread (curr : act_ptr) : Traces (create_thread curr).
Proof. unfold create_thread. traces. Qed.

Lemma traces_join_thread (curr : act_ptr) : Traces (join_thread curr).
Proof. unfold join_thread. traces. Qed.

#[local] Hint Resolve traces_create_thread traces_join_thread : traces.

Lemma traces_process_thread_action (curr : act_ptr) :
  Traces (process_thread_action getInitThread curr).
Proof. unfold process_thread_action. traces. Qed.

Lemma traces_process_write (curr : act_ptr) :
  Traces (process_write FENCE_LOCATION VALUE_NONE curr).
Proof. unfold process_write. traces. Qed.

Lemma traces_process_fence (curr : act_ptr) : Traces (process_fence curr).
Proof. unfold process_fence. traces. Qed.

Lemma traces_process_mutex (curr : act_ptr) : Traces (process_mutex curr).
Proof.
  unfold process_mutex, process_mutex_lock, wake_lock_waiters, set_locked. traces.
Qed.

#[local] Hint Resolve traces_process_thread_action traces_process_write
  traces_process_fence traces_process_mutex : traces.

(** The run [H] of a method that keeps the action trace. *)
Ltac trace_kept H :=
  match type of H with
  | ?m ?s = Ok (_, _) =>
      let Hk := fresh "Hk" in
      assert (Hk : keeps_trace m) by traces;
      exact (Hk _ _ _ H)
  end.

(** An action that is not the second part of a RMW is initialized in
    place. *)
Lemma initialize_curr_action_in_place st (curr : act_ptr) (c : ModelAction) r st' :
  actions st !! curr = Some c ->
  is_rmwc c || is_rmw c = false ->
  initialize_curr_action curr st = Ok (r, st') ->
  r = (true, curr).
Proof.
  intros Hc Hfirst Hrun. unfold initialize_curr_action in Hrun.
  apply bind_ok in Hrun as (c0 & z & Hread & Hrun).
  apply read_ok in Hread as [Hread ->].
  unfold get_action in Hread. rewrite Hc in Hread. injection Hread as <-.
  rewrite Hfirst in Hrun.
  apply bind_ok in Hrun as (seq & s1 & _ & Hrun).
  apply bind_ok in Hrun as (u1 & s2 & _ & Hrun).
  apply bind_ok in Hrun as (parent & s3 & _ & Hrun).
  apply bind_ok in Hrun as (pa & s4 & _ & Hrun).
  apply bind_ok in Hrun as (u2 & s5 & _ & Hrun).
  apply bind_ok in Hrun as (fr & s6 & _ & Hrun).
  apply bind_ok in Hrun as (u3 & s7 & _ & Hrun).
  apply ret_ok in Hrun as [<- _]. reflexivity.
Qed.

Lemma add_action_to_lists_trace st (act : act_ptr) (u : unit) st' :
  add_action_to_lists act st = Ok (u, st') ->
  action_trace st' = action_trace st ++ [act].
Proof.
  intros Hrun. destruct u.
  assert (Ha : exists a, actions st !! act = Some a).
  { unfold add_action_to_lists in Hrun.
    apply bind_ok in Hrun as (a & z & Hread & _).
    apply read_ok in Hread as [Hread _]. unfold get_action in Hread.
    destruct (actions st !! act) as [a' |]; [eauto | discriminate]. }
  destruct Ha as [a Ha].
  apply (add_action_to_lists_state st act a st' Ha Hrun).
Qed.

(** A step on an action that is not the second part of a RMW returns the
    action and files it at the end of the action trace, whatever
    [process_read] has answered on the way. *)
Lemma check_current_action_files st (curr : act_ptr) (c : ModelAction)
    (curr' : act_ptr) st' :
  actions st !! curr = Some c ->
  is_rmwc c || is_rmw c = false ->
  check_current_action FENCE_LOCATION VALUE_NONE getInitThread
    could_synchronize_with curr st = Ok (curr', st') ->
  curr' = curr /\ exists trace, action_trace st' = trace ++ [curr].
Proof.
  intros Hc Hfirst Hrun. unfold check_current_action in Hrun.
  apply bind_ok in Hrun as (c0 & z & Hread & Hrun).
  apply read_ok in Hread as [Hread ->].
  unfold get_action in Hread. rewrite Hc in Hread. injection Hread as <-.
  rewrite Hfirst in Hrun. cbn [negb andb] in Hrun.
  apply bind_ok in Hrun as (r & s1 & Hinit & Hrun).
  apply (initialize_curr_action_in_place st curr c r s1 Hc Hfirst) in Hinit as ->.
  apply bind_ok in Hrun as (u1 & s2 & _ & Hrun).
  apply bind_ok in Hrun as (u2 & s3 & _ & Hrun).
  apply bind_ok in Hrun as (c1 & s4 & _ & Hrun).
  apply bind_ok in Hrun as (rf_set & s5 & _ & Hrun).
  apply bind_ok in Hrun as (u3 & s6 & _ & Hrun).
  apply bind_ok in Hrun as (u4 & s7 & Hadd & Hrun).
  apply add_action_to_lists_trace in Hadd.
  apply bind_ok in Hrun as (c2 & z & Hread & Hrun). apply read_ok in Hread as [_ ->].
  apply bind_ok in Hrun as (u5 & s8 & Hwrite & Hrun).
  assert (H8 : action_trace s8 = action_trace s7).
  { trace_kept Hwrite. }
  apply bind_ok in Hrun as (u6 & s9 & Hthread & Hrun).
  apply traces_process_thread_action in Hthread.
  apply bind_ok in Hrun as (c3 & z & Hread & Hrun). apply read_ok in Hread as [_ ->].
  apply bind_ok in Hrun as (u7 & s10 & Hwr & Hrun).
  assert (H10 : action_trace s10 = action_trace s9).
  { trace_kept Hwr. }
  apply bind_ok in Hrun as (c4 & z & Hread & Hrun). apply read_ok in Hread as [_ ->].
  apply bind_ok in Hrun as (u8 & s11 & Hfence & Hrun).
  assert (H11 : action_trace s11 = action_trace s10).
  { trace_kept Hfence. }
  apply bind_ok in Hrun as (c5 & z & Hread & Hrun). apply read_ok in Hread as [_ ->].
  apply bind_ok in Hrun as (u9 & s12 & Hmutex & Hrun).
  assert (H12 : action_trace s12 = action_trace s11).
  { trace_kept Hmutex. }
  apply ret_ok in Hrun as [<- ->].
  split; [reflexivity |].
  exists (action_trace s6). congruence.
Qed.



(** *** Thread actions *)

Lemma create_thread_run st (curr : act_ptr) (c : ModelAction) :
  actions st !! curr = Some c ->
  let id := next_thread_id (priv st) in
  let th := fresh (dom (threads st)) in
  let i := to_unsigned id in
  i < 2 ^ 32 - 1 ->
  create_thread curr st
  = Ok (th,
        set_threads (<[th := set_creation (Some curr) (new_Thread id)]> (threads st))
          (set_scheduler (sched_add_thread th (scheduler st))
             (set_thread_map
                (<[Z.to_nat i := Some th]>
                   (if vsize (thread_map st) <=? i
                    then vresize (i + 1) None (thread_map st)
                    else thread_map st))
                (set_actions (<[curr := set_thread_operand (Some th) c]> (actions st))
                   (set_priv (set_next_thread_id (to_unsigned (id + 1)) (priv st))
                      st))))).
Proof.
  intros Hc. cbv zeta. intros Hmax. unfold create_thread.
  unfold bind at 1, get_next_id at 1, bind at 1, gets at 1, bind at 1, modify at 1,
    ret at 1.
  unfold bind at 1, gets at 1. cbn [threads set_priv].
  unfold bind at 1, modify at 1.
  unfold bind at 1, update_action at 1, bind at 1, read at 1, get_action at 1.
  cbn [actions set_threads set_priv]. rewrite Hc. cbn [deref].
  unfold modify at 1.
  unfold bind at 1.
  erewrite add_thread_run;
    [| cbn [threads set_actions set_threads]; apply lookup_insert_eq
     | cbn [new_Thread get_id set_creation]; exact Hmax].
  cbn [new_Thread get_id is_model_thread].
  unfold update_thread, bind, lift, read, modify, get_thread_obj, ret.
  cbn -[to_unsigned vresize vsize fresh Z.leb].
  rewrite lookup_insert_eq. cbn -[to_unsigned vresize vsize fresh Z.leb].
  rewrite insert_insert_eq. reflexivity.
Qed.

(** X11. A THREAD_CREATE makes a Thread with the next thread id: the Thread
    is new and ready, it is found by [get_thread] under that id, it records
    the action as its creation, and [get_num_threads] is one more.  The
    Thread is the one [action_select_next_thread] then chooses, and the
    creation is its parent action as long as it has not acted. *)
Theorem thread_create_registers st (curr : act_ptr) (c : ModelAction) :
  actions st !! curr = Some c ->
  get_type c = THREAD_CREATE ->
  0 <= get_num_threads st -> get_num_threads st + 1 < 2 ^ 32 ->
  exists st' th t,
    process_thread_action getInitThread curr st = Ok (tt, st') /\
    threads st !! th = None /\
    threads st' !! th = Some t /\
    get_id t = get_num_threads st /\ get_creation t = Some curr /\
    get_state t = THREAD_READY /\ is_model_thread t = false /\
    get_thread st' (get_num_threads st) = Some th /\
    get_num_threads st' = get_num_threads st + 1 /\
    action_select_next_thread st' curr = Ok (Some th) /\
    (get_last_action st (get_num_threads st) = Ok None ->
     get_parent_action st' (get_num_threads st) = Ok (Some curr)).
Proof.
  intros Hc Htype Hpos Hmax. unfold get_num_threads in *.
  unfold process_thread_action.
  unfold bind at 1, read at 1, get_action at 1. rewrite Hc. cbn [deref].
  rewrite Htype. unfold bind at 1.
  rewrite (create_thread_run st curr c Hc)
    by (rewrite (to_unsigned_small (next_thread_id (priv st))) by lia; lia).
  cbv zeta. unfold ret.
  rewrite (to_unsigned_small (next_thread_id (priv st))) by lia.
  rewrite (to_unsigned_small (next_thread_id (priv st) + 1)) by lia.
  destruct (registered_lookup (thread_map st) (next_thread_id (priv st))
              (fresh (dom (threads st)))) as (_ & Hself & _); [lia |].
  eexists _, (fresh (dom (threads st))), _. split; [reflexivity |].
  split; [apply not_elem_of_dom, is_fresh |].
  cbn [threads set_threads]. split; [apply lookup_insert_eq |].
  split; [reflexivity |]. split; [reflexivity |]. split; [reflexivity |].
  split; [reflexivity |].
  assert (Hthread : forall st0,
            thread_map st0 = <[Z.to_nat (next_thread_id (priv st)) :=
                               Some (fresh (dom (threads st)))]>
                             (if vsize (thread_map st) <=? next_thread_id (priv st)
                              then vresize (next_thread_id (priv st) + 1) None
                                           (thread_map st)
                              else thread_map st) ->
            get_thread st0 (next_thread_id (priv st)) = Some (fresh (dom (threads st)))).
  { intros st0 Hs. rewrite get_thread_lookup, Hs.
    rewrite (to_unsigned_small (next_thread_id (priv st))) by lia.
    rewrite Hself. reflexivity. }
  split; [apply Hthread; reflexivity |].
  split; [reflexivity |].
  split.
  - unfold action_select_next_thread, get_action.
    cbn [actions set_threads set_scheduler set_thread_map set_actions].
    rewrite lookup_insert_eq. cbn [deref rbind].
    assert (Hrmwr : is_rmwr (set_thread_operand
                               (Some (fresh (dom (threads st)))) c) = false).
    { unfold is_rmwr. cbn [get_type set_thread_operand]. rewrite Htype. reflexivity. }
    rewrite Hrmwr. cbn [rbind get_type set_thread_operand]. rewrite Htype.
    reflexivity.
  - intros Hlast. unfold get_parent_action.
    match goal with
    | |- context [get_last_action ?s ?tid] =>
        change (get_last_action s tid) with (get_last_action st tid)
    end.
    rewrite Hlast. cbn [rbind]. rewrite Hthread by reflexivity. cbn [deref rbind].
    unfold get_thread_obj. cbn [threads set_threads]. rewrite lookup_insert_eq.
    reflexivity.
Qed.

(** X12. A PTHREAD_CREATE writes the pthread id it hands out, the value of
    [pthread_counter], to the location of the action, makes the Thread and
    files it in [pthread_map] under the id, so that [get_pthread] of the id
    returns the Thread.  [get_pthread] returns NULL for every id above the
    new counter; the counter itself passes the bound check of
    [get_pthread], which then indexes [pthread_map] at its size when the
    map was not longer than the counter. *)
Theorem pthread_create_registers st (curr : act_ptr) (c : ModelAction) :
  actions st !! curr = Some c ->
  get_type c = PTHREAD_CREATE ->
  0 <= get_num_threads st < 2 ^ 32 - 1 ->
  0 <= pthread_counter st -> pthread_counter st + 2 < 2 ^ 32 ->
  exists st' th,
    process_thread_action getInitThread curr st = Ok (tt, st') /\
    memory st' !! get_location c = Some (pthread_counter st) /\
    pthread_counter st' = pthread_counter st + 1 /\
    get_thread st' (get_num_threads st) = Some th /\
    get_pthread st' (pthread_counter st) = Ok (Some th) /\
    (forall pid, pthread_counter st' < uint32_t pid -> get_pthread st' pid = Ok None) /\
    (vsize (pthread_map st) <= pthread_counter st' ->
     get_pthread st' (pthread_counter st') = Err OutOfBounds).
Proof.
  intros Hc Htype Hn Hpos Hmax. unfold get_num_threads in *.
  set (k := pthread_counter st) in *.
  set (th := fresh (dom (threads st))).
  set (id := next_thread_id (priv st)) in *.
  (* the engine before, and after, the Thread is made *)
  set (s1 := set_pthread_counter (k + 1)
               (set_memory (<[get_location c := uint32_t k]> (memory st)) st)).
  set (s2 := set_threads (<[th := set_creation (Some curr) (new_Thread id)]> (threads st))
               (set_scheduler (sched_add_thread th (scheduler st))
                  (set_thread_map
                     (<[Z.to_nat id := Some th]>
                        (if vsize (thread_map st) <=? id
                         then vresize (id + 1) None (thread_map st)
                         else thread_map st))
                     (set_actions
                        (<[curr := set_thread_operand (Some th) c]> (actions st))
                        (set_priv (set_next_thread_id (to_unsigned (id + 1)) (priv st))
                                  s1))))).
  set (pm := if vsize (pthread_map st) <? k + 1
             then vresize (k + 1) None (pthread_map st) else pthread_map st).
  assert (Hsize : vsize pm = Z.max (vsize (pthread_map st)) (k + 1)).
  { subst pm. unfold vsize.
    destruct (Z.ltb_spec (Z.of_nat (length (pthread_map st))) (k + 1));
      [rewrite vresize_length |]; lia. }
  assert (Hcreate : create_thread curr s1 = Ok (th, s2)).
  { rewrite (create_thread_run s1 curr c Hc)
      by (change (next_thread_id (priv s1)) with id;
          rewrite (to_unsigned_small id) by lia; lia).
    cbv zeta.
    change (next_thread_id (priv s1)) with id.
    change (threads s1) with (threads st).
    change (scheduler s1) with (scheduler st).
    change (thread_map s1) with (thread_map st).
    change (actions s1) with (actions st).
    change (priv s1) with (priv st).
    rewrite (to_unsigned_small id) by lia. reflexivity. }
  assert (Hgrow : (if vsize (pthread_map s2) <? pthread_counter s2
                   then set_pthread_map
                          (vresize (pthread_counter s2) None (pthread_map s2)) s2
                   else s2) = set_pthread_map pm s2).
  { change (pthread_map s2) with (pthread_map st).
    change (pthread_counter s2) with (k + 1). subst pm.
    destruct (vsize (pthread_map st) <? k + 1); [reflexivity |].
    subst s2. reflexivity. }
  assert (Hset : vset pm (to_unsigned (k + 1 - 1)) (Some th)
                 = Ok (<[Z.to_nat k := Some th]> pm)).
  { replace (k + 1 - 1) with k by lia. rewrite (to_unsigned_small k) by lia.
    unfold vset. destruct (Z.leb_spec 0 k), (Z.ltb_spec k (vsize pm)); try lia.
    reflexivity. }
  exists (set_pthread_map (<[Z.to_nat k := Some th]> pm) s2), th.
  split.
  { unfold process_thread_action.
    apply bind_ok. exists c, st. split.
    { apply read_ok. split; [unfold get_action; rewrite Hc |]; reflexivity. }
    rewrite Htype.
    apply bind_ok. exists k, st. split; [apply gets_ok; split; reflexivity |].
    apply bind_ok. eexists tt, _. split; [apply modify_ok; reflexivity |].
    apply bind_ok. exists tt, s1. split.
    { apply modify_ok. subst s1. cbn [set_pthread_counter].
      rewrite (to_unsigned_small (k + 1)) by lia. reflexivity. }
    apply bind_ok. exists th, s2. split; [exact Hcreate |].
    apply bind_ok. exists tt, (set_pthread_map pm s2). split.
    { apply modify_ok. symmetry. exact Hgrow. }
    apply bind_ok. exists (<[Z.to_nat k := Some th]> pm), (set_pthread_map pm s2).
    split.
    { apply read_ok. split; [exact Hset | reflexivity]. }
    apply modify_ok. reflexivity. }
  split.
  { change (<[get_location c := uint32_t k]> (memory st) !! get_location c = Some k).
    rewrite lookup_insert_eq. unfold uint32_t. rewrite Z.mod_small by lia.
    reflexivity. }
  split; [reflexivity |].
  split.
  { rewrite get_thread_lookup.
    change (thread_map (set_pthread_map (<[Z.to_nat k := Some th]> pm) s2))
      with (<[Z.to_nat id := Some th]>
              (if vsize (thread_map st) <=? id
               then vresize (id + 1) None (thread_map st)
               else thread_map st)).
    rewrite (to_unsigned_small id) by lia.
    destruct (registered_lookup (thread_map st) id th) as (_ & Hself & _); [lia |].
    rewrite Hself. reflexivity. }
  assert (Hu : forall n, 0 <= n < 2 ^ 32 -> uint32_t n = n).
  { intros n Hrange. unfold uint32_t. apply Z.mod_small, Hrange. }
  assert (Hpthread : forall pid,
            get_pthread (set_pthread_map (<[Z.to_nat k := Some th]> pm) s2) pid
            = if uint32_t pid <? k + 1 + 1
              then vget (<[Z.to_nat k := Some th]> pm) (uint32_t pid)
              else Ok None).
  { intros pid. unfold get_pthread.
    change (pthread_counter (set_pthread_map (<[Z.to_nat k := Some th]> pm) s2))
      with (k + 1).
    rewrite (Hu (k + 1 + 1)) by lia. reflexivity. }
  split.
  { rewrite Hpthread, (Hu k) by lia.
    destruct (Z.ltb_spec k (k + 1 + 1)); [| lia].
    apply vget_lookup. split; [lia |].
    apply list_lookup_insert_eq. unfold vsize in *. lia. }
  split.
  { intros pid Hpid. rewrite Hpthread.
    change (pthread_counter (set_pthread_map (<[Z.to_nat k := Some th]> pm) s2))
      with (k + 1) in Hpid.
    destruct (Z.ltb_spec (uint32_t pid) (k + 1 + 1)); [lia | reflexivity]. }
  { intros Hshort.
    change (pthread_counter (set_pthread_map (<[Z.to_nat k := Some th]> pm) s2))
      with (k + 1) in *.
    rewrite Hpthread, (Hu (k + 1)) by lia.
    destruct (Z.ltb_spec (k + 1) (k + 1 + 1)); [| lia].
    unfold vget. destruct (Z.ltb_spec (k + 1) 0); [lia |].
    rewrite lookup_ge_None_2; [reflexivity |].
    rewrite length_insert. unfold vsize in *. lia. }
Qed.

Lemma join_enabledness st (j : act_ptr) (ja : ModelAction) (blocking : thr_ptr)
    (t : Thread) :
  actions st !! j = Some ja -> is_thread_join ja = true ->
  get_thread_operand ja = Some blocking -> threads st !! blocking = Some t ->
  check_action_enabled j st = Ok (is_complete t, st).
Proof.
  intros Hj Hjoin Hop Ht.
  unfold check_action_enabled, bind, read, lift, get_action. rewrite Hj. simpl.
  assert (Hlock : is_lock ja = false).
  { unfold is_thread_join in Hjoin. apply bool_decide_eq_true in Hjoin.
    unfold is_lock. apply bool_decide_eq_false. intros Heq. rewrite Heq in Hjoin.
    apply elem_of_cons in Hjoin as [[=] | Hjoin].
    apply list_elem_of_singleton in Hjoin. discriminate. }
  rewrite Hlock, Hjoin, Hop. unfold get_thread_obj. simpl. rewrite Ht. simpl.
  destruct (is_complete t); reflexivity.
Qed.

(** X13. A join is enabled exactly when the Thread it waits for is
    complete.  A THREAD_FINISH or THREADONLY_FINISH completes the thread of
    the action, whether or not it is the initial thread, and changes
    nothing else but the scheduler and, for the THREAD_FINISH of the
    initial thread, the finished flag; so every join on the thread is
    enabled afterwards. *)
Theorem finish_enables_join st (curr : act_ptr) (c : ModelAction) (th : thr_ptr)
    st' :
  actions st !! curr = Some c ->
  get_type c = THREAD_FINISH \/ get_type c = THREADONLY_FINISH ->
  get_thread st (get_tid c) = Some th ->
  process_thread_action getInitThread curr st = Ok (tt, st') ->
  (exists t,
     threads st !! th = Some t /\
     st' = set_isfinished
             (isfinished st
              || (bool_decide (get_type c = THREAD_FINISH)
                  && bool_decide (Some th = getInitThread)))
             (set_threads (<[th := complete t]> (threads st))
                (set_scheduler (scheduler st') st))) /\
  forall (j : act_ptr) (ja : ModelAction),
    actions st' !! j = Some ja -> is_thread_join ja = true ->
    get_thread_operand ja = Some th ->
    check_action_enabled j st' = Ok (true, st').
Proof.
  intros Hc Htype Hthr Hrun.
  assert (Hstate : exists t,
     threads st !! th = Some t /\
     st' = set_isfinished
             (isfinished st
              || (bool_decide (get_type c = THREAD_FINISH)
                  && bool_decide (Some th = getInitThread)))
             (set_threads (<[th := complete t]> (threads st))
                (set_scheduler (scheduler st') st))).
  { unfold process_thread_action in Hrun.
    apply bind_ok in Hrun as (c' & z & Hread & Hrun).
    apply read_ok in Hread as [Hread ->].
    unfold get_action in Hread. rewrite Hc in Hread. injection Hread as <-.
    set (isfin := bool_decide (get_type c = THREAD_FINISH)) in *.
    assert (Hbody :
      (bind (read (fun st => get_thread_of st curr)) (fun th =>
         if isfin && bool_decide (th = getInitThread)
         then bind (update_thread th complete) (fun _ => modify (set_isfinished true))
         else
           bind (gets get_num_threads) (fun n =>
           bind (for_eachM (R := Empty_set) (fun i (_ : unit) =>
             bind (gets (fun st => get_thread st (int_to_id i))) (fun waiting =>
             bind (lift (deref waiting)) (fun wp =>
             bind (read (fun st => get_thread_obj st wp)) (fun w =>
             bind (if bool_decide (waiting_on w = th) then
                     bind (lift (deref (get_pending w))) (fun p =>
                     bind (read (fun st => get_action st p)) (fun pa =>
                     if is_thread_join pa then
                       modify (fun st => set_scheduler (sched_wake wp (scheduler st)) st)
                     else ret tt))
                   else ret tt)
                  (fun _ => ret (Continue tt)))))) (upto n) tt) (fun _ =>
           update_thread th complete)))) st = Ok (tt, st')).
    { destruct Htype as [Ht | Ht]; rewrite Ht in Hrun; exact Hrun. }
    clear Hrun.
    apply bind_ok in Hbody as (t0 & z & Ht0 & Hbody).
    apply read_ok in Ht0 as [Ht0 ->].
    unfold get_thread_of, get_action in Ht0. rewrite Hc in Ht0. simpl in Ht0.
    rewrite Hthr in Ht0. injection Ht0 as <-.
    assert (Hcomplete : forall st0 st1 (u : unit),
              update_thread (Some th) complete st0 = Ok (u, st1) ->
              exists t, threads st0 !! th = Some t /\
                        st1 = set_threads (<[th := complete t]> (threads st0)) st0).
    { intros st0 st1 u Hupd. unfold update_thread in Hupd.
      apply bind_ok in Hupd as (p & z & Hp & Hupd). apply lift_ok in Hp as [[= <-] ->].
      apply bind_ok in Hupd as (t & z & Ht & Hupd). apply read_ok in Ht as [Ht ->].
      apply modify_ok in Hupd as ->.
      unfold get_thread_obj in Ht. destruct (threads st0 !! th) as [t' |];
        simpl in Ht; [| discriminate]. injection Ht as ->. eauto. }
    destruct (isfin && bool_decide (Some th = getInitThread)) eqn:Hinit.
    - apply bind_ok in Hbody as (u & s1 & Hupd & Hbody).
      apply modify_ok in Hbody as ->.
      apply Hcomplete in Hupd as (t & Ht & ->). exists t. split; [exact Ht |].
      rewrite orb_true_r. destruct st; reflexivity.
    - apply bind_ok in Hbody as (n & z & Hn & Hbody). apply gets_ok in Hn as [_ ->].
      apply bind_ok in Hbody as (r & s1 & Hloop & Hbody).
      assert (Hs1 : s1 = set_scheduler (scheduler s1) st).
      { revert Hloop.
        apply (for_eachM_relates (fun z1 z2 => z2 = set_scheduler (scheduler z2) z1)).
        - intros z0. destruct z0; reflexivity.
        - intros z1 z2 z3 H12 H23. rewrite H23, H12. reflexivity.
        - intros i a z0 ctl z1 Hturn.
          apply bind_ok in Hturn as (w & z & Hw & Hturn). apply gets_ok in Hw as [_ ->].
          apply bind_ok in Hturn as (wp & z & Hwp & Hturn).
          apply lift_ok in Hwp as [_ ->].
          apply bind_ok in Hturn as (wt & z & Hwt & Hturn).
          apply read_ok in Hwt as [_ ->].
          apply bind_ok in Hturn as (u' & z & Hwake & Hturn).
          apply ret_ok in Hturn as [_ ->].
          destruct (bool_decide (waiting_on wt = Some th)).
          + apply bind_ok in Hwake as (p & z' & Hp & Hwake).
            apply lift_ok in Hp as [_ ->].
            apply bind_ok in Hwake as (pa & z' & Hpa & Hwake).
            apply read_ok in Hpa as [_ ->].
            destruct (is_thread_join pa).
            * apply modify_ok in Hwake as ->. reflexivity.
            * apply ret_ok in Hwake as [_ ->]. destruct z0; reflexivity.
          + apply ret_ok in Hwake as [_ ->]. destruct z0; reflexivity. }
      apply Hcomplete in Hbody as (t & Ht & ->).
      rewrite Hs1 in Ht. exists t. split; [exact Ht |].
      rewrite orb_false_r. rewrite Hs1. destruct st; reflexivity. }
  destruct Hstate as (t & Ht & Hst'). split; [eauto |].
  intros j ja Hj Hjoin Hop.
  rewrite (join_enabledness st' j ja th (complete t) Hj Hjoin Hop).
  - reflexivity.
  - rewrite Hst'. apply lookup_insert_eq.
Qed.

(** *** Sleeping threads *)

(** X14. The first part of an RMW wakes no sleeping thread: for an RMWR
    action [should_wake_up] answers false of every Thread without asking
    the fuzzer, and [wake_up_sleeping_actions] leaves the engine as it is. *)
Theorem rmwr_wakes_nobody st (curr : act_ptr) (c : ModelAction) :
  actions st !! curr = Some c ->
  is_rmwr c = true ->
  (forall (thread : thr_ptr) (b : bool) st',
     should_wake_up could_synchronize_with curr thread st = Ok (b, st') ->
     b = false /\ st' = st) /\
  (forall (u : unit) st',
     wake_up_sleeping_actions could_synchronize_with curr st = Ok (u, st') ->
     st' = st) /\
  ((forall i, 0 <= i < get_num_threads st ->
      exists p t, get_thread st i = Some p /\ threads st !! p = Some t) ->
   wake_up_sleeping_actions could_synchronize_with curr st = Ok (tt, st)).
Proof.
  intros Hc Hrmwr.
  assert (Hone : forall (thread : thr_ptr) (b : bool) st',
     should_wake_up could_synchronize_with curr thread st = Ok (b, st') ->
     b = false /\ st' = st).
  { intros thread b st' Hrun. unfold should_wake_up in Hrun.
    apply bind_ok in Hrun as (c' & z & Hread & Hrun).
    apply read_ok in Hread as [Hread ->].
    unfold get_action in Hread. rewrite Hc in Hread. injection Hread as <-.
    apply bind_ok in Hrun as (thr & z & Hthr & Hrun). apply read_ok in Hthr as [_ ->].
    rewrite Hrmwr in Hrun. apply ret_ok in Hrun as [-> ->]. auto. }
  assert (Hturn : forall i (ctl : loop_ctl unit Empty_set) st',
     (bind (gets (fun st => get_thread st (int_to_id i))) (fun thr =>
      bind (lift (deref thr)) (fun thr =>
      bind (gets (fun st => sched_is_sleep_set thr (scheduler st))) (fun asleep =>
      bind (if asleep : bool then
              bind (should_wake_up could_synchronize_with curr thr) (fun wake =>
                if wake : bool then
                  bind (modify (fun st =>
                          set_scheduler (sched_remove_sleep thr (scheduler st)) st))
                       (fun _ =>
                  bind (read (fun st => get_thread_obj st thr)) (fun t =>
                  bind (lift (deref (get_pending t))) (fun p =>
                  bind (read (fun st => get_action st p)) (fun pa =>
                  if is_sleep pa then update_thread (Some thr) (set_wakeup_state true)
                  else ret tt))))
                else ret tt)
            else ret tt) (fun _ => ret (Continue tt)))))) st = Ok (ctl, st') ->
     ctl = Continue tt /\ st' = st).
  { intros i ctl st' Hrun.
    apply bind_ok in Hrun as (thr & z & Hthr & Hrun). apply gets_ok in Hthr as [_ ->].
    apply bind_ok in Hrun as (p & z & Hp & Hrun). apply lift_ok in Hp as [_ ->].
    apply bind_ok in Hrun as (asleep & z & Has & Hrun). apply gets_ok in Has as [_ ->].
    apply bind_ok in Hrun as (u & s1 & Hwake & Hrun).
    apply ret_ok in Hrun as [-> ->]. split; [reflexivity |].
    destruct asleep.
    - apply bind_ok in Hwake as (wake & s2 & Hshould & Hwake).
      apply Hone in Hshould as [-> ->]. now apply ret_ok in Hwake as [_ ->].
    - now apply ret_ok in Hwake as [_ ->]. }
  split; [exact Hone |]. split.
  - intros u st' Hrun. unfold wake_up_sleeping_actions in Hrun.
    apply bind_ok in Hrun as (n & z & Hn & Hrun). apply gets_ok in Hn as [-> ->].
    apply bind_ok in Hrun as (r & s1 & Hloop & Hrun).
    apply ret_ok in Hrun as [_ ->].
    enough (Hrel : st = st -> s1 = st) by (apply Hrel; reflexivity).
    revert Hloop.
    apply (for_eachM_relates (fun z1 z2 => z1 = st -> z2 = st)).
    + intros z0 Hz. exact Hz.
    + intros z1 z2 z3 H12 H23 Hz. apply H23, H12, Hz.
    + intros i a z0 ctl z1 Hbody ->. apply Hturn in Hbody as [_ ->]. reflexivity.
  - intros Hvalid. unfold wake_up_sleeping_actions.
    unfold bind at 1, gets at 1.
    match goal with
    | |- context [for_eachM ?body _ _] => set (turn := body)
    end.
    assert (Hloop : forall l,
              (forall i, i ∈ l -> exists p t, get_thread st i = Some p /\
                                              threads st !! p = Some t) ->
              for_eachM turn l tt st = Ok (inl tt, st)).
    { induction l as [| i l IH]; intros Hl; [reflexivity |].
      cbn [for_eachM]. unfold bind at 1.
      destruct (Hl i) as (p & t & Hp & Ht); [constructor |].
      assert (Hbody : turn i tt st = Ok (Continue tt, st)).
      { subst turn. cbv beta.
        unfold bind at 1, gets at 1. unfold int_to_id. rewrite Hp.
        unfold bind at 1, lift at 1, read at 1. cbn [deref].
        unfold bind at 1, gets at 1.
        destruct (sched_is_sleep_set p (scheduler st)); [| reflexivity].
        unfold bind at 1. unfold bind at 1.
        unfold should_wake_up, bind, read, get_action, get_thread_obj.
        rewrite Hc. cbn [deref]. rewrite Ht. cbn [deref]. rewrite Hrmwr.
        reflexivity. }
      rewrite Hbody. apply IH. intros k Hk. apply Hl. now constructor. }
    unfold bind at 1.
    rewrite Hloop by (intros i Hi; apply Hvalid, elem_of_upto, Hi).
    reflexivity.
Qed.

(** *** Seq-cst fences *)

Lemma nodes_before_split (bf : act_ptr) (l r : list act_ptr) :
  bf ∉ l -> nodes_before bf (l ++ bf :: r) = Ok r.
Proof.
  induction l as [| x l IH]; intros Hnot; simpl.
  - destruct (decide (bf = bf)); [reflexivity | contradiction].
  - destruct (decide (x = bf)) as [-> | _]; [exfalso; apply Hnot; constructor |].
    apply IH. intros Hin. apply Hnot. now constructor.
Qed.

Lemma nodes_before_missing (bf : act_ptr) (l : list act_ptr) :
  bf ∉ l -> nodes_before bf l = Err NullDeref.
Proof.
  induction l as [| x l IH]; intros Hnot; simpl; [reflexivity |].
  destruct (decide (x = bf)) as [-> | _]; [exfalso; apply Hnot; constructor |].
  apply IH. intros Hin. apply Hnot. now constructor.
Qed.

(** X16. [get_last_seq_cst_fence] returns NULL when no fence has been filed
    at FENCE_LOCATION.  Otherwise, with no [before_fence], it returns the
    last seq-cst fence of the thread in the list of FENCE_LOCATION; with a
    [before_fence] it returns the last one among the actions filed before
    the last occurrence of [before_fence], and it dereferences NULL when
    [before_fence] is not in the list.  It returns NULL exactly when the
    actions it searches hold no seq-cst fence of the thread. *)
Theorem last_seq_cst_fence_exact st (tid : thread_id_t) :
  let p := fun act => is_fence act && (tid =? get_tid act) && is_seqcst act in
  (obj_map st !! FENCE_LOCATION = None ->
   forall before, get_last_seq_cst_fence FENCE_LOCATION st tid before = Ok None) /\
  (forall lst,
     obj_map st !! FENCE_LOCATION = Some lst ->
     (forall f, get_last_seq_cst_fence FENCE_LOCATION st tid None = Ok (Some f) <->
                last_match st p lst f) /\
     (get_last_seq_cst_fence FENCE_LOCATION st tid None = Ok None <->
      no_match st p lst) /\
     (forall bf l1 l2,
        lst = l1 ++ bf :: l2 -> bf ∉ l2 ->
        (forall f, get_last_seq_cst_fence FENCE_LOCATION st tid (Some bf) = Ok (Some f)
                   <-> last_match st p l1 f) /\
        (get_last_seq_cst_fence FENCE_LOCATION st tid (Some bf) = Ok None <->
         no_match st p l1)) /\
     (forall bf, bf ∉ lst ->
        get_last_seq_cst_fence FENCE_LOCATION st tid (Some bf) = Err NullDeref)).
Proof.
  cbv zeta. unfold get_last_seq_cst_fence. split.
  - intros -> before. reflexivity.
  - intros lst ->. split; [| split; [| split]].
    + intros f. cbn [rbind]. apply find_action_last_match.
    + cbn [rbind]. apply find_action_no_match_rev.
    + intros bf l1 l2 -> Hlast.
      rewrite rev_app_distr. cbn [rev]. rewrite <- app_assoc. cbn [app].
      rewrite nodes_before_split by (rewrite elem_of_rev; exact Hlast).
      cbn [rbind]. split.
      * intros f. apply find_action_last_match.
      * apply find_action_no_match_rev.
    + intros bf Hnot.
      rewrite nodes_before_missing by (rewrite elem_of_rev; exact Hnot).
      reflexivity.
Qed.

End EngineProofs.

(** * The properties on closed examples *)

(** Decide a closed goal by evaluation. *)
Ltac evaluate :=
  vm_compute;
  repeat match goal with
         | |- _ /\ _ => split
         end;
  first [ reflexivity | discriminate | intros; discriminate | lia ].



Lemma is_deadlocked_exact_witness :
  is_deadlocked ex_deadlock = Ok true /\
  (forall i, 0 <= i < get_num_threads ex_deadlock -> is_enabled ex_deadlock i = false).
Proof.
  destruct (is_deadlocked_exact ex_deadlock) as (b & Hrun & Hiff & _).
  - intros i Hi. change (get_num_threads ex_deadlock) with 3 in Hi.
    assert (i = 0 \/ i = 1 \/ i = 2) as [-> | [-> | ->]] by lia;
      eexists _, _; split; reflexivity.
  - assert (b = true) as -> by (vm_compute in Hrun; congruence).
    split; [reflexivity |]. apply Hiff. reflexivity.
Defined.

Lemma insertIntoActionList_cases_witness :
  insertIntoActionList ex_lists [] 5%positive = Ok [5%positive] /\
  insertIntoActionList ex_lists [1; 2; 3; 4]%positive 5%positive
  = Ok [1; 2; 3; 5; 4]%positive /\
  insertIntoActionList ex_lists [1; 2; 3; 4]%positive 6%positive
  = Ok [1; 2; 3; 4]%positive.
Proof.
  assert (Hvalid : forall lst : list positive,
            lst ⊆ [1; 2; 3; 4]%positive ->
            forall y, y ∈ lst -> is_Some (actions ex_lists !! y)).
  { intros lst Hsub y Hy. apply Hsub in Hy.
    repeat (apply elem_of_cons in Hy as [-> | Hy]; [eexists; reflexivity |]).
    inversion Hy. }
  assert (Hseq : forall (n : modelclock_t) (l : list positive),
            Forall (fun y => exists ya, actions ex_lists !! y = Some ya /\
                                        get_seq_number ya <> n) l ->
            forall y ya, y ∈ l -> actions ex_lists !! y = Some ya ->
                         get_seq_number ya <> n).
  { intros n l Hall y ya Hy Hya. rewrite Forall_forall in Hall.
    destruct (Hall y Hy) as (ya' & Hya' & Hne). congruence. }
  split; [| split].
  - destruct (insertIntoActionList_cases ex_lists [] 5%positive
                (toy_done NONATOMIC_WRITE memory_order_relaxed 100 0 1 2 [0; 2])
                eq_refl) as (Hempty & _).
    + apply Hvalid. intros y Hy. inversion Hy.
    + apply Hempty. reflexivity.
  - destruct (insertIntoActionList_cases ex_lists [1; 2; 3; 4]%positive 5%positive
                (toy_done NONATOMIC_WRITE memory_order_relaxed 100 0 1 2 [0; 2])
                eq_refl) as (_ & Hmatch & _).
    + apply Hvalid. reflexivity.
    + apply (Hmatch [1; 2]%positive 3%positive
               (toy_done ATOMIC_READ memory_order_relaxed 100 0 1 2 [0; 2])
               [4%positive]); [reflexivity .. |].
      apply Hseq. repeat constructor. eexists. split; [reflexivity | evaluate].
  - destruct (insertIntoActionList_cases ex_lists [1; 2; 3; 4]%positive 6%positive
                (toy_done NONATOMIC_WRITE memory_order_relaxed 100 0 1 9 [0; 9])
                eq_refl) as (_ & _ & Hnone).
    + apply Hvalid. reflexivity.
    + apply Hnone; [discriminate |].
      apply Hseq. repeat constructor; eexists; (split; [reflexivity | evaluate]).
Defined.

Lemma trylock_behaviour_witness :
  (exists st' t' c',
     process_mutex 10%positive ex_trylock_free = Ok (true, st') /\
     threads st' !! 3%positive = Some t' /\ return_value t' = 1 /\
     mutexes st' !! 300 = Some (mkMutexState (Some 3%positive)) /\
     actions st' !! 10%positive = Some c' /\ get_cv c' = Some [0; 3; 5]) /\
  (exists st' t',
     process_mutex 10%positive ex_trylock_taken = Ok (false, st') /\
     threads st' !! 3%positive = Some t' /\ return_value t' = 0 /\
     mutexes st' = mutexes ex_trylock_taken).
Proof.
  split.
  - (* the mutex is free, and thread 1 has unlocked it *)
    destruct (trylock_behaviour ex_trylock_free 10%positive
                (toy_done ATOMIC_TRYLOCK memory_order_seq_cst 300 0 2 5 [0; 0; 5])
                300 (mkMutexState None) 3%positive (toy_thread 2 false))
      as [_ Hfree]; [reflexivity .. |].
    destruct (Hfree eq_refl (Some 11%positive) eq_refl)
      as (b & st' & t' & Hrun & Ht' & Hret & Howner & -> & ua & ccv & ucv
          & Hua & Hccv & Hucv & Hcv).
    { intros u ua [= <-] Hua. vm_compute in Hua. injection Hua as <-.
      repeat split; discriminate. }
    vm_compute in Hua. injection Hua as <-.
    injection Hccv as <-. injection Hucv as <-.
    destruct (actions st' !! 10%positive) as [c' |] eqn:Hc'; [| discriminate].
    exists st', t', c'. repeat split; try assumption.
    cbn [fmap option_fmap option_map] in Hcv. injection Hcv as ->. reflexivity.
  - (* thread 1 holds the mutex *)
    destruct (trylock_behaviour ex_trylock_taken 10%positive
                (toy_done ATOMIC_TRYLOCK memory_order_seq_cst 300 0 2 5 [0; 0; 5])
                300 (mkMutexState (Some 2%positive)) 3%positive (toy_thread 2 false))
      as [Htaken _]; [reflexivity .. |].
    destruct Htaken as (st' & t' & Hrun & Ht' & Hret & Hmutexes & _);
      [discriminate |].
    exists st', t'. auto.
Defined.

Lemma notify_one_behaviour_witness :
  11%positive ∈ [11; 12]%positive /\
  get_thread_of ex_notify 11%positive = Ok (Some 3%positive) /\
  process_mutex 10%positive ex_notify
  = Ok (false, set_scheduler (sched_wake 3%positive (scheduler ex_notify))
                             (set_fuzzer [] ex_notify)) /\
  condvar_waiters_map
    (set_scheduler (sched_wake 3%positive (scheduler ex_notify))
                   (set_fuzzer [] ex_notify)) !! 200
  = Some [11; 12]%positive.
Proof.
  split; [constructor |]. split; [reflexivity |].
  split; [| reflexivity].
  destruct (notify_one_behaviour ex_notify 10%positive
              (toy_done ATOMIC_NOTIFY_ONE memory_order_seq_cst 200 0 1 5 [0; 5])
              eq_refl eq_refl) as (Hwake & _).
  destruct (Hwake [11; 12]%positive 11%positive 3%positive [11; 12]%positive [])
    as (_ & Hsame); [reflexivity | constructor | reflexivity | reflexivity |].
  apply Hsame. reflexivity.
Defined.

(** C8 as the specification states it fails where the condition variable
    has no waiter list yet: the notify-one gives it an empty one.  And the
    list of a notify-one that wakes a thread is as the fuzzer leaves it:
    with a fuzzer that takes the waiter it chooses out of the list, the
    list is one waiter shorter afterwards, though the core removes none. *)
Lemma notify_one_counterexample :
  (default [] (condvar_waiters_map ex_notify_none !! 200) = [] /\
   exists st',
     process_mutex 10%positive ex_notify_none = Ok (false, st') /\
     condvar_waiters_map ex_notify_none !! 200 = None /\
     condvar_waiters_map st' !! 200 = Some [] /\
     st' <> ex_notify_none) /\
  (condvar_waiters_map (with_fuzzer tt ex_notify) !! 200 = Some [11; 12]%positive /\
   exists st',
     process_mutex 10%positive (with_fuzzer tt ex_notify) = Ok (false, st') /\
     scheduler st' = sched_wake 3%positive (scheduler ex_notify) /\
     condvar_waiters_map st' !! 200 = Some [12%positive]).
Proof.
  split.
  - split; [reflexivity |].
    eexists. split; [vm_compute; reflexivity |].
    split; [reflexivity |]. split; [reflexivity |].
    intros Heq. apply (f_equal (fun st => condvar_waiters_map st !! 200)) in Heq.
    vm_compute in Heq. discriminate.
  - split; [reflexivity |].
    eexists. split; [vm_compute; reflexivity |].
    split; reflexivity.
Qed.

Lemma may_read_from_seq_cst_rule_witness :
  actions ex_seq_cst_read !! 10%positive = Some ex_read_10 /\
  build_may_read_from ex_seq_cst_read 10%positive = Ok [12%positive] /\
  seq_cst_rule_admits ex_seq_cst_read ex_read_10 12%positive ex_write_12 /\
  ~ seq_cst_rule_admits ex_seq_cst_read ex_read_10 11%positive ex_write_11.
Proof.
  pose proof (may_read_from_seq_cst_rule ex_seq_cst_read 10%positive ex_read_10
                [12%positive] eq_refl eq_refl) as Hrule.
  split; [reflexivity |]. split; [reflexivity |]. split.
  - destruct (proj1 (Hrule 12%positive)) as (_ & a & Ha & Hadmits & _);
      [constructor |].
    vm_compute in Ha. injection Ha as <-. exact Hadmits.
  - intros Hadmits.
    assert (Hin : 11%positive ∈ [12%positive]).
    { apply Hrule. split; [vm_compute; repeat constructor |].
      exists ex_write_11. split; [reflexivity |]. split; [exact Hadmits |].
      intros ([=] & _). }
    apply list_elem_of_singleton in Hin. discriminate.
Defined.

(** C2 as the specification states it fails on a seq-cst write that is not
    the last one, and on a write that happens before the last seq-cst write:
    the specification admits both, [build_may_read_from] takes neither. *)
Lemma may_read_from_counterexample :
  build_may_read_from ex_seq_cst_read 10%positive = Ok [12%positive] /\
  (11%positive ∈ walked_writes ex_seq_cst_read 10%positive ex_read_10 /\
   actions ex_seq_cst_read !! 11%positive = Some ex_write_11 /\
   seq_cst_rule_of_spec ex_seq_cst_read ex_read_10 11%positive ex_write_11 /\
   11%positive ∉ [12%positive]) /\
  (13%positive ∈ walked_writes ex_seq_cst_read 10%positive ex_read_10 /\
   actions ex_seq_cst_read !! 13%positive = Some ex_write_13 /\
   seq_cst_rule_of_spec ex_seq_cst_read ex_read_10 13%positive ex_write_13 /\
   13%positive ∉ [12%positive]).
Proof.
  split; [reflexivity |]. split.
  - split; [vm_compute; repeat constructor |]. split; [reflexivity |].
    split; [right; left; reflexivity |].
    intros Hin. apply list_elem_of_singleton in Hin. discriminate.
  - split; [vm_compute; repeat constructor |]. split; [reflexivity |].
    split.
    + right. right. left. exists 12%positive, ex_write_12.
      repeat split; reflexivity.
    + intros Hin. apply list_elem_of_singleton in Hin. discriminate.
Qed.

Lemma seq_cst_writes_ordered_witness :
  writes_processed toy_FENCE_LOCATION ex_three_writes
    [(11%positive, ex_sc_write 1); (12%positive, ex_sc_write 2);
     (13%positive, ex_sc_write 3)] ex_three_written /\
  obj_last_sc_map ex_three_written !! 100 = Some 13%positive /\
  mo_edge (mo_graph ex_two_written) 11%positive 12%positive /\
  mo_edge (mo_graph ex_three_written) 12%positive 13%positive /\
  mo_path (mo_graph ex_three_written) 11%positive 13%positive.
Proof.
  destruct (seq_cst_writes_ordered (Sched := toy_sched) (Fuzz := list Z)
              toy_FENCE_LOCATION) as [Hstep Hpairs].
  assert (Hrun : writes_processed toy_FENCE_LOCATION ex_three_writes
            [(11%positive, ex_sc_write 1); (12%positive, ex_sc_write 2);
             (13%positive, ex_sc_write 3)] ex_three_written).
  { apply (processed_write _ _ _ _ ex_one_written); [reflexivity .. |].
    apply (processed_write _ _ _ _ ex_two_written); [reflexivity .. |].
    apply (processed_write _ _ _ _ ex_three_written); [reflexivity .. |].
    apply processed_none. }
  split; [exact Hrun |].
  destruct (Hstep ex_one_written 12%positive (ex_sc_write 2) ex_two_written)
    as [_ Hedge12]; [reflexivity .. |].
  destruct (Hstep ex_two_written 13%positive (ex_sc_write 3) ex_three_written)
    as [Hlast Hedge23]; [reflexivity .. |].
  split; [exact Hlast |].
  split; [apply Hedge12; reflexivity |].
  split; [apply Hedge23; reflexivity |].
  apply (Hpairs _ _ _ Hrun 0%nat 2%nat 11%positive 13%positive
           (ex_sc_write 1) (ex_sc_write 3)); [lia | reflexivity ..].
Defined.



